(** * Synchronisation of explanations and question links with a manifest

    A shallow embedding of the three database synchronisation scripts of
    the repository:

    - the incremental [scripts/sync-explanations.ts] (diff between two
      revisions of [meta.json], module [Incremental]);
    - the earlier full rebuild [scripts/sync-explanations.ts] for the
      single-link schema (module [SyncFull]);
    - the full rebuild [scripts/insert-explanations.ts] for the ordered
      many-to-many schema (module [InsertFull]).

    Strings are byte strings holding the UTF-8 encoding of the JavaScript
    string.  Database tables are explicit values threaded through the
    scripts; every SQL statement a script issues is also appended to a
    trace, so that the sequence of mutations can be stated and compared.
    [console.warn] lines are part of the trace, [console.log] lines are
    not modelled.  The inputs the scripts obtain from their environment
    are parameters: the parsed manifests, the set of changed files
    reported by [git diff], the content directory, the store, and the
    stream of random identifiers [uuidv4()] draws from.  Manifest
    validation and the connection set-up happen before any statement is
    issued and are not modelled. *)

From Stdlib Require Import ZArith List String Ascii Lia Sorted.
From stdpp Require Import base gmap sets list strings.

(** ** Bytes and hexadecimal digits *)

Module Bytes.
Local Open Scope Z_scope.

Definition of_string (s : string) : list Z :=
  map (fun c => Z.of_N (N_of_ascii c)) (list_ascii_of_string s).

Definition hex_digit (d : Z) : ascii :=
  if d <? 10 then ascii_of_N (Z.to_N (48 + d)) else ascii_of_N (Z.to_N (87 + d)).

Definition HEX_digit (d : Z) : ascii :=
  if d <? 10 then ascii_of_N (Z.to_N (48 + d)) else ascii_of_N (Z.to_N (55 + d)).

Definition hex2 (b : Z) : string :=
  String (hex_digit (Z.shiftr b 4)) (String (hex_digit (Z.land b 15)) EmptyString).

Definition HEX2 (b : Z) : string :=
  String (HEX_digit (Z.shiftr b 4)) (String (HEX_digit (Z.land b 15)) EmptyString).

(** big-endian and little-endian words from bytes *)
Fixpoint be_word (bs : list Z) : Z :=
  match bs with
  | [] => 0
  | b :: r => Z.lor (Z.shiftl b (8 * Z.of_nat (length r))) (be_word r)
  end.

Fixpoint le_word (bs : list Z) : Z :=
  match bs with
  | [] => 0
  | b :: r => Z.lor b (Z.shiftl (le_word r) 8)
  end.

Definition be_bytes (n : nat) (w : Z) : list Z :=
  map (fun i => Z.land (Z.shiftr w (8 * Z.of_nat i)) 255) (rev (seq 0 n)).

Fixpoint chunks (fuel n : nat) (bs : list Z) : list (list Z) :=
  match fuel with
  | O => []
  | S fuel' =>
      match bs with
      | [] => []
      | _ => firstn n bs :: chunks fuel' n (skipn n bs)
      end
  end.
End Bytes.

(** ** SHA-1 (FIPS 180-4), the digest behind [uuid]'s [v5]

    The [uuid] package is a dependency of the scripts, not code of the
    repository; its [v5] is RFC 4122 name-based UUID generation over
    SHA-1, written out here so that identifiers can be computed. *)

Module Sha1.
Import Bytes.
Local Open Scope Z_scope.

Definition u32 (x : Z) : Z := Z.land x 0xFFFFFFFF.
Definition rotl (x n : Z) : Z := u32 (Z.lor (Z.shiftl x n) (Z.shiftr x (32 - n))).

Definition pad (msg : list Z) : list Z :=
  let l := Z.of_nat (length msg) in
  let k := (55 - l) mod 64 in
  msg ++ [0x80] ++ repeat 0 (Z.to_nat k) ++ be_bytes 8 (8 * l).

(** The message schedule, most recent word first. *)
Fixpoint schedule (n : nat) (w : list Z) : list Z :=
  match n with
  | O => w
  | S n' =>
      let x := Z.lxor (Z.lxor (nth 2 w 0) (nth 7 w 0)) (Z.lxor (nth 13 w 0) (nth 15 w 0)) in
      schedule n' (rotl x 1 :: w)
  end.

Definition f (t : nat) (b c d : Z) : Z :=
  if (t <? 20)%nat then Z.lor (Z.land b c) (Z.land (Z.lxor b 0xFFFFFFFF) d)
  else if (t <? 40)%nat then Z.lxor (Z.lxor b c) d
  else if (t <? 60)%nat then Z.lor (Z.lor (Z.land b c) (Z.land b d)) (Z.land c d)
  else Z.lxor (Z.lxor b c) d.

Definition K (t : nat) : Z :=
  if (t <? 20)%nat then 0x5A827999
  else if (t <? 40)%nat then 0x6ED9EBA1
  else if (t <? 60)%nat then 0x8F1BBCDC
  else 0xCA62C1D6.

Definition hstate : Type := Z * Z * Z * Z * Z.

Definition round (st : hstate) (tw : nat * Z) : hstate :=
  let '(a, b, c, d, e) := st in
  let '(t, w) := tw in
  let T := u32 (rotl a 5 + f t b c d + e + K t + w) in
  (T, a, rotl b 30, c, d).

Definition block (H : hstate) (blk : list Z) : hstate :=
  let w0 := map be_word (chunks 16 4 blk) in
  let w := rev (schedule 64 (rev w0)) in
  let '(a, b, c, d, e) := fold_left round (combine (seq 0 80) w) H in
  let '(h0, h1, h2, h3, h4) := H in
  (u32 (h0 + a), u32 (h1 + b), u32 (h2 + c), u32 (h3 + d), u32 (h4 + e)).

Definition init : hstate :=
  (0x67452301, 0xEFCDAB89, 0x98BADCFE, 0x10325476, 0xC3D2E1F0).

Definition sha1 (msg : list Z) : list Z :=
  let p := pad msg in
  let '(h0, h1, h2, h3, h4) := fold_left block (chunks (length p) 64 p) init in
  flat_map (be_bytes 4) [h0; h1; h2; h3; h4].
End Sha1.

(** ** [uuid]: [v5(name, namespace)] and the random [v4] *)

Module Uuid.
Import Bytes.
Local Open Scope Z_scope.

(** [uuidv5.URL], the namespace 6ba7b811-9dad-11d1-80b4-00c04fd430c8 *)
Definition URL : list Z :=
  [0x6b; 0xa7; 0xb8; 0x11; 0x9d; 0xad; 0x11; 0xd1;
   0x80; 0xb4; 0x00; 0xc0; 0x4f; 0xd4; 0x30; 0xc8].

(** bytes[6] = (bytes[6] & 0x0f) | 0x50; bytes[8] = (bytes[8] & 0x3f) | 0x80 *)
Definition v5_byte (bytes : list Z) (i : nat) : Z :=
  if (i =? 6)%nat then Z.lor (Z.land (nth 6 bytes 0) 0x0f) 0x50
  else if (i =? 8)%nat then Z.lor (Z.land (nth 8 bytes 0) 0x3f) 0x80
  else nth i bytes 0.

Definition v5_bytes (name : string) (ns : list Z) : list Z :=
  let bytes := Sha1.sha1 (ns ++ of_string name) in
  map (v5_byte bytes) (seq 0 16).

Definition hex_at (b : list Z) (i : nat) : string := hex2 (nth i b 0).

Definition stringify (b : list Z) : string :=
  hex_at b 0 +:+ hex_at b 1 +:+ hex_at b 2 +:+ hex_at b 3 +:+ "-" +:+
  hex_at b 4 +:+ hex_at b 5 +:+ "-" +:+
  hex_at b 6 +:+ hex_at b 7 +:+ "-" +:+
  hex_at b 8 +:+ hex_at b 9 +:+ "-" +:+
  hex_at b 10 +:+ hex_at b 11 +:+ hex_at b 12 +:+ hex_at b 13 +:+
  hex_at b 14 +:+ hex_at b 15.

Definition v5 (name : string) (ns : list Z) : string := stringify (v5_bytes name ns).

(** [v4()] draws a fresh random identifier.  The source of randomness is
    an input of the model: the [n]-th draw of a process is [rng n]. *)
Definition rng : Type := nat -> string.
End Uuid.

(** ** [xxhashjs]: [XXH.h64(input, seed)] and [UINT64.toString(16)] *)

Module Xxh64.
Import Bytes.
Local Open Scope Z_scope.

Definition u64 (x : Z) : Z := Z.land x 0xFFFFFFFFFFFFFFFF.
Definition rotl (x n : Z) : Z := u64 (Z.lor (Z.shiftl x n) (Z.shiftr x (64 - n))).
Definition P1 : Z := 11400714785074694791.
Definition P2 : Z := 14029467366897019727.
Definition P3 : Z := 1609587929392839161.
Definition P4 : Z := 9650029242287828579.
Definition P5 : Z := 2870177450012600261.

Definition round (acc input : Z) : Z := u64 (rotl (u64 (acc + input * P2)) 31 * P1).
Definition merge (h v : Z) : Z := u64 (Z.lxor h (round 0 v) * P1 + P4).

Definition accs : Type := Z * Z * Z * Z.

Definition lane (blk : list Z) (i : nat) : Z := le_word (firstn 8 (skipn (8 * i) blk)).

Definition stripe (v : accs) (blk : list Z) : accs :=
  let '(v1, v2, v3, v4) := v in
  (round v1 (lane blk 0), round v2 (lane blk 1), round v3 (lane blk 2), round v4 (lane blk 3)).

Fixpoint stripes (fuel : nat) (v : accs) (bs : list Z) : accs * list Z :=
  match fuel with
  | O => (v, bs)
  | S fuel' =>
      if (32 <=? length bs)%nat
      then stripes fuel' (stripe v (firstn 32 bs)) (skipn 32 bs)
      else (v, bs)
  end.

Fixpoint tail8 (fuel : nat) (h : Z) (bs : list Z) : Z * list Z :=
  match fuel with
  | O => (h, bs)
  | S fuel' =>
      if (8 <=? length bs)%nat
      then tail8 fuel'
             (u64 (rotl (Z.lxor h (round 0 (le_word (firstn 8 bs)))) 27 * P1 + P4))
             (skipn 8 bs)
      else (h, bs)
  end.

Definition tail4 (h : Z) (bs : list Z) : Z * list Z :=
  if (4 <=? length bs)%nat
  then (u64 (rotl (Z.lxor h (u64 (le_word (firstn 4 bs) * P1))) 23 * P2 + P3), skipn 4 bs)
  else (h, bs).

Definition tail1 (h b : Z) : Z := u64 (rotl (Z.lxor h (u64 (b * P5))) 11 * P1).

Definition avalanche (h : Z) : Z :=
  let h := u64 (Z.lxor h (Z.shiftr h 33) * P2) in
  let h := u64 (Z.lxor h (Z.shiftr h 29) * P3) in
  Z.lxor h (Z.shiftr h 32).

Definition h64 (input : list Z) (seed : Z) : Z :=
  let len := length input in
  let '(h, rest) :=
    if (32 <=? len)%nat then
      let '((v1, v2, v3, v4), rest) :=
        stripes len (u64 (seed + P1 + P2), u64 (seed + P2), u64 seed, u64 (seed - P1)) input in
      let h := u64 (rotl v1 1 + rotl v2 7 + rotl v3 12 + rotl v4 18) in
      (merge (merge (merge (merge h v1) v2) v3) v4, rest)
    else (u64 (seed + P5), input) in
  let h := u64 (h + Z.of_nat len) in
  let '(h, rest) := tail8 len h rest in
  let '(h, rest) := tail4 h rest in
  avalanche (fold_left tail1 rest h).

(** [toString(16)]: lower-case digits, no leading zeros. *)
Fixpoint to_hex (fuel : nat) (x : Z) (acc : string) : string :=
  match fuel with
  | O => acc
  | S fuel' =>
      let acc' := String (hex_digit (Z.land x 15)) acc in
      if x <? 16 then acc' else to_hex fuel' (Z.shiftr x 4) acc'
  end.

Definition toString16 (x : Z) : string := to_hex 64 x EmptyString.
End Xxh64.

(** ** JavaScript built-ins used by the scripts *)

Module Js.
Import Bytes.

(** [s.slice(a, b)] for [0 <= a <= b]; indices beyond the end are clamped. *)
Definition slice (a b : nat) (s : string) : string := String.substring a (b - a) s.

(** [s.endsWith(suffix)] *)
Definition endsWith (s suffix : string) : bool :=
  bool_decide (list_ascii_of_string suffix `suffix_of` list_ascii_of_string s).

(** [Array.prototype.sort()] without a comparator: ascending by code
    unit, here by byte of the UTF-8 encoding.  The scripts only compare
    two sorted arrays for equality, which does not depend on the total
    order chosen. *)
Fixpoint sort_insert (x : string) (l : list string) : list string :=
  match l with
  | [] => [x]
  | y :: r => if String.leb x y then x :: l else y :: sort_insert x r
  end.

Definition sort (l : list string) : list string := fold_right sort_insert [] l.

(** [JSON.stringify] of an array of strings *)
Definition dquote : ascii := ascii_of_nat 34.

Definition json_char (c : ascii) : string :=
  let n := nat_of_ascii c in
  if (n =? 34)%nat then String "\"%char (String dquote EmptyString)
  else if (n =? 92)%nat then "\\"
  else if (n =? 8)%nat then "\b"
  else if (n =? 12)%nat then "\f"
  else if (n =? 10)%nat then "\n"
  else if (n =? 13)%nat then "\r"
  else if (n =? 9)%nat then "\t"
  else if (n <? 32)%nat then "\u00" +:+ hex2 (Z.of_nat n)
  else String c EmptyString.

Fixpoint json_chars (s : string) : string :=
  match s with
  | EmptyString => EmptyString
  | String c r => json_char c +:+ json_chars r
  end.

Definition json_string (s : string) : string :=
  String dquote (json_chars s +:+ String dquote EmptyString).

Definition JSON_stringify (l : list string) : string :=
  "[" +:+ String.concat "," (map json_string l) +:+ "]".

(** [encodeURIComponent]: every byte outside [A-Z a-z 0-9 - _ . ! ~ * ' ( )]
    becomes [%XX] with upper-case digits. *)
Definition uri_unreserved (c : ascii) : bool :=
  let n := nat_of_ascii c in
  ((65 <=? n) && (n <=? 90)) || ((97 <=? n) && (n <=? 122)) || ((48 <=? n) && (n <=? 57))
  || bool_decide (n ∈ [45; 95; 46; 33; 126; 42; 39; 40; 41]).

Fixpoint encodeURIComponent (s : string) : string :=
  match s with
  | EmptyString => EmptyString
  | String c r =>
      (if uri_unreserved c then String c EmptyString
       else String "%"%char (HEX2 (Z.of_nat (nat_of_ascii c))))
      +:+ encodeURIComponent r
  end.

(** [[...new Set(l)]]: duplicates dropped, first occurrences kept in order. *)
Fixpoint uniq_from (seen : gset string) (l : list string) : list string :=
  match l with
  | [] => []
  | x :: r => if decide (x ∈ seen) then uniq_from seen r else x :: uniq_from ({[x]} ∪ seen) r
  end.

Definition uniq (l : list string) : list string := uniq_from ∅ l.
End Js.

(** ** The relational store

    Three tables: ["nauka-ppla_question"] (single-link schema: the
    question row holds [explanationId]), ["nauka-ppla_explanation"]
    (keyed by [id], as [ON CONFLICT (id)] requires) and the join table
    ["nauka-ppla_question_to_explanation"] of the ordered schema.
    Foreign-key constraints are not declared in the repository and are
    not modelled: every statement succeeds. *)

Module Store.
Record question := Question {
  q_id : string;
  q_externalId : string;
  q_explanationId : option string }.

Record link := Link {
  l_questionId : string;
  l_explanationId : string;
  l_order : nat;
  l_id : string }.

Record db := Db {
  question_tbl : list question;
  explanation_tbl : gmap string string;
  link_tbl : list link }.

Global Instance question_eq_dec : EqDecision question.
Proof. solve_decision. Defined.
Global Instance link_eq_dec : EqDecision link.
Proof. solve_decision. Defined.

(** The statements the scripts issue. *)
Inductive op :=
| UnlinkIfMatches (externalId explanationId : string)
    (* UPDATE question SET explanationId = NULL
       WHERE externalId = .. AND explanationId = .. *)
| DeleteExplanation (id : string)
    (* DELETE FROM explanation WHERE id = .. *)
| UpsertExplanation (id content : string)
    (* INSERT INTO explanation .. ON CONFLICT (id) DO UPDATE .. *)
| SetQuestionLink (externalId explanationId : string)
    (* UPDATE question SET explanationId = .. WHERE externalId = .. *)
| DeleteLinks (questionId : string)
    (* DELETE FROM question_to_explanation WHERE questionId = .. *)
| InsertLink (row : link).
    (* INSERT INTO question_to_explanation VALUES (..) *)

(** Statements that overwrite a value with a constant: running one
    twice, or before another one on the same key, changes nothing. *)
Definition is_assignment (o : op) : bool :=
  match o with
  | UpsertExplanation _ _ | SetQuestionLink _ _ => true
  | _ => false
  end.

(** The explanation a statement addresses. *)
Definition op_explanation (o : op) : option string :=
  match o with
  | UnlinkIfMatches _ e | DeleteExplanation e | UpsertExplanation e _
  | SetQuestionLink _ e => Some e
  | DeleteLinks _ => None
  | InsertLink row => Some (l_explanationId row)
  end.

Definition unlink_row (externalId explanationId : string) (r : question) : question :=
  if decide (q_externalId r = externalId ∧ q_explanationId r = Some explanationId)
  then Question (q_id r) (q_externalId r) None
  else r.

Definition link_row (externalId explanationId : string) (r : question) : question :=
  if decide (q_externalId r = externalId)
  then Question (q_id r) (q_externalId r) (Some explanationId)
  else r.

Definition exec (o : op) (d : db) : db :=
  match o with
  | UnlinkIfMatches q e =>
      Db (map (unlink_row q e) (question_tbl d)) (explanation_tbl d) (link_tbl d)
  | DeleteExplanation e =>
      Db (question_tbl d) (delete e (explanation_tbl d)) (link_tbl d)
  | UpsertExplanation e c =>
      Db (question_tbl d) (<[e := c]> (explanation_tbl d)) (link_tbl d)
  | SetQuestionLink q e =>
      Db (map (link_row q e) (question_tbl d)) (explanation_tbl d) (link_tbl d)
  | DeleteLinks qid =>
      Db (question_tbl d) (explanation_tbl d)
         (List.filter (fun l => negb (String.eqb (l_questionId l) qid)) (link_tbl d))
  | InsertLink row =>
      Db (question_tbl d) (explanation_tbl d) (link_tbl d ++ [row])
  end.

(** Statements that cannot change a given question row: they go to
    another table, to another question, or are scoped to a link the
    row does not hold. *)
Definition keeps_row (r : question) (o : op) : Prop :=
  match o with
  | UnlinkIfMatches q e => q <> q_externalId r \/ q_explanationId r <> Some e
  | SetQuestionLink q _ => q <> q_externalId r
  | _ => True
  end.

(** [RETURNING id] of the link update, and [SELECT id .. WHERE externalId]. *)
Definition returning (externalId : string) (d : db) : list string :=
  map q_id (List.filter (fun r => String.eqb (q_externalId r) externalId) (question_tbl d)).

Definition select_question (externalId : string) (d : db) : list string :=
  map q_id (List.filter (fun r => String.eqb (q_externalId r) externalId) (question_tbl d)).

(** The current link of the question with a given external id. *)
Definition link_of (externalId : string) (d : db) : list (option string) :=
  map q_explanationId
      (List.filter (fun r => String.eqb (q_externalId r) externalId) (question_tbl d)).

(** What a run emits: statements, tagged with the manifest entry (file
    path or question id) being processed, and warnings. *)
Inductive event :=
| Sql (subject : string) (o : op)
| Warn (msg : string).

Definition sql_ops (t : list event) : list op :=
  flat_map (fun ev => match ev with Sql _ o => [o] | Warn _ => [] end) t.

Definition run (ops : list op) (d : db) : db := fold_left (fun d o => exec o d) ops d.

(** The state a script threads through its loops. *)
Record state (S : Type) := State {
  st_db : db;
  st_stats : S;
  st_trace : list event }.
Global Arguments State {S} _ _ _.
Global Arguments st_db {S} _.
Global Arguments st_stats {S} _.
Global Arguments st_trace {S} _.

Definition issue {S} (subject : string) (o : op) (st : state S) : state S :=
  State (exec o (st_db st)) (st_stats st) (st_trace st ++ [Sql subject o]).

Definition warn {S} (msg : string) (st : state S) : state S :=
  State (st_db st) (st_stats st) (st_trace st ++ [Warn msg]).

Definition count {S} (f : S -> S) (st : state S) : state S :=
  State (st_db st) (f (st_stats st)) (st_trace st).
End Store.

(** ** The array-shaped manifest: [metaSchema] of both [sync-explanations.ts] *)

Module Meta.
Record MetaEntry := Entry { file : string; questions : list string }.

Global Instance MetaEntry_eq_dec : EqDecision MetaEntry.
Proof. solve_decision. Defined.

(** [new Map(meta.map((e) => [e.file, e]))]: a later entry with the same
    key replaces an earlier one. *)
Definition toMap (meta : list MetaEntry) : gmap string MetaEntry :=
  fold_left (fun m e => <[file e := e]> m) meta ∅.

Definition has {A} (m : gmap string A) (k : string) : bool :=
  bool_decide (is_Some (m !! k)).
End Meta.

(** ** The incremental sync *)

Module Incremental.
Import Store Meta.

Definition generateExplanationId (filePath : string) : string :=
  Uuid.v5 filePath Uuid.URL.

Record stats := Stats {
  deleted : nat;
  upserted : nat;
  questionsLinked : nat;
  questionsUnlinked : nat;
  questionsNotFound : list string }.

Definition incDeleted (s : stats) : stats :=
  Stats (S (deleted s)) (upserted s) (questionsLinked s) (questionsUnlinked s)
        (questionsNotFound s).
Definition incUpserted (s : stats) : stats :=
  Stats (deleted s) (S (upserted s)) (questionsLinked s) (questionsUnlinked s)
        (questionsNotFound s).
Definition incLinked (s : stats) : stats :=
  Stats (deleted s) (upserted s) (S (questionsLinked s)) (questionsUnlinked s)
        (questionsNotFound s).
Definition incUnlinked (s : stats) : stats :=
  Stats (deleted s) (upserted s) (questionsLinked s) (S (questionsUnlinked s))
        (questionsNotFound s).
Definition pushNotFound (qid : string) (s : stats) : stats :=
  Stats (deleted s) (upserted s) (questionsLinked s) (questionsUnlinked s)
        (questionsNotFound s ++ [qid]).

(** *** Diff of the two manifests *)
Section Diff.
Variables (oldMeta newMeta : list MetaEntry) (changedFiles : gset string).

Definition oldMap : gmap string MetaEntry := toMap oldMeta.
Definition newMap : gmap string MetaEntry := toMap newMeta.

Definition removed : list MetaEntry :=
  List.filter (fun e => negb (has newMap (file e))) oldMeta.
Definition added : list MetaEntry :=
  List.filter (fun e => negb (has oldMap (file e))) newMeta.
Definition kept : list MetaEntry :=
  List.filter (fun e => has oldMap (file e)) newMeta.

(** [oldMap.get(e.file)!]: defined for every kept entry. *)
Definition oldQuestions (e : MetaEntry) : list string :=
  match oldMap !! file e with
  | Some old => questions old
  | None => []
  end.

Definition questionsDiffer (e : MetaEntry) : bool :=
  negb (String.eqb (Js.JSON_stringify (Js.sort (oldQuestions e)))
                   (Js.JSON_stringify (Js.sort (questions e)))).

Definition questionsModified : list MetaEntry := List.filter questionsDiffer kept.

Definition alreadyHandled : gset string :=
  list_to_set (map file added ++ map file questionsModified).

Definition contentOnly : list MetaEntry :=
  List.filter
    (fun e => negb (bool_decide (file e ∈ alreadyHandled))
              && bool_decide (file e ∈ changedFiles))
    kept.

Definition toUpsert : list MetaEntry := added ++ questionsModified ++ contentOnly.

(** The script never materialises the fifth class: the kept entries
    for which neither condition holds are simply not processed. *)
Definition unchanged : list MetaEntry :=
  List.filter
    (fun e => negb (questionsDiffer e) && negb (bool_decide (file e ∈ changedFiles)))
    kept.
End Diff.

(** *** Applying the diff

    [fs p] is the result of [readFile(join(explanationsDir, p))]:
    [None] when the read throws. *)
Section Apply.
Variable fs : string -> option string.

Definition unlinkQuestion (entryFile explanationId : string)
    (st : state stats) (qid : string) : state stats :=
  count incUnlinked (issue entryFile (UnlinkIfMatches qid explanationId) st).

Definition removeEntry (st : state stats) (entry : MetaEntry) : state stats :=
  let explanationId := generateExplanationId (file entry) in
  let st := fold_left (unlinkQuestion (file entry) explanationId) (questions entry) st in
  count incDeleted (issue (file entry) (DeleteExplanation explanationId) st).

Definition linkQuestion (entryFile explanationId : string)
    (st : state stats) (qid : string) : state stats :=
  let result := returning qid (st_db st) in
  let st := issue entryFile (SetQuestionLink qid explanationId) st in
  if (0 <? length result)%nat then count incLinked st
  else count (pushNotFound qid) st.

Definition upsertEntry (st : state stats) (entry : MetaEntry) : state stats :=
  let explanationId := generateExplanationId (file entry) in
  match fs (file entry) with
  | None => warn ("  Warning: File not found: " +:+ file entry) st
  | Some content =>
      let st := count incUpserted
                  (issue (file entry) (UpsertExplanation explanationId content) st) in
      fold_left (linkQuestion (file entry) explanationId) (questions entry) st
  end.

Definition removedQuestions (old_questions : list string) (entry : MetaEntry) : list string :=
  let newQuestions : gset string := list_to_set (questions entry) in
  List.filter (fun q => negb (bool_decide (q ∈ newQuestions))) old_questions.

Definition unlinkDropped (oldMeta : list MetaEntry)
    (st : state stats) (entry : MetaEntry) : state stats :=
  let explanationId := generateExplanationId (file entry) in
  fold_left (unlinkQuestion (file entry) explanationId)
            (removedQuestions (oldQuestions oldMeta entry) entry) st.

Definition main (oldMeta newMeta : list MetaEntry) (changedFiles : gset string)
    (d : db) : state stats :=
  let removed := removed oldMeta newMeta in
  let questionsModified := questionsModified oldMeta newMeta in
  let toUpsert := toUpsert oldMeta newMeta changedFiles in
  let st := State d (Stats 0 0 0 0 []) [] in
  if ((length removed =? 0) && (length toUpsert =? 0)
      && (length questionsModified =? 0))%nat
  then st
  else
    let st := fold_left removeEntry removed st in
    let st := fold_left upsertEntry toUpsert st in
    fold_left (unlinkDropped oldMeta) questionsModified st.
End Apply.
End Incremental.

(** ** The content directory

    What [readdir(dir, { withFileTypes: true })] and [readFile] see: a
    tree of named files and directories.  [relPath rel name] is
    [relative(baseDir, join(dir, name))] for a directory [dir] whose own
    relative path is [rel] (POSIX separators). *)

Module Fs.
#[local] Set Warnings "-register-all".
Inductive dirent :=
| File (name content : string)
| Dir (name : string) (entries : list dirent).

Definition relPath (rel name : string) : string :=
  match rel with
  | EmptyString => name
  | _ => rel +:+ "/" +:+ name
  end.

(** [if (!content)]: a missing key and an empty file are both falsy. *)
Definition truthy (content : option string) : option string :=
  match content with
  | Some (String c r) => Some (String c r)
  | _ => None
  end.
End Fs.

(** ** The full rebuild for the single-link schema *)

Module SyncFull.
Import Store Meta Fs.

Definition generateExplanationId (filePath : string) : string :=
  let hash := Xxh64.toString16 (Xxh64.h64 (Bytes.of_string filePath) 0) in
  Js.slice 0 8 hash +:+ "-" +:+ Js.slice 8 12 hash +:+ "-" +:+ Js.slice 12 16 hash
  +:+ "-0000-000000000000".

Fixpoint readEntry (rel : string) (files : gmap string string) (entry : dirent)
    : gmap string string :=
  match entry with
  | Dir name entries =>
      let subFiles := fold_left (readEntry (relPath rel name)) entries ∅ in
      subFiles ∪ files
  | File name content =>
      if Js.endsWith name ".md" then <[relPath rel name := content]> files else files
  end.

Definition readExplanationsDir (entries : list dirent) : gmap string string :=
  fold_left (readEntry EmptyString) entries ∅.

Record stats := Stats {
  explanationsUpserted : nat;
  questionsUpdated : nat;
  questionsNotFound : list string }.

Definition incUpserted (s : stats) : stats :=
  Stats (S (explanationsUpserted s)) (questionsUpdated s) (questionsNotFound s).
Definition incUpdated (s : stats) : stats :=
  Stats (explanationsUpserted s) (S (questionsUpdated s)) (questionsNotFound s).
Definition pushNotFound (qid : string) (s : stats) : stats :=
  Stats (explanationsUpserted s) (questionsUpdated s) (questionsNotFound s ++ [qid]).

Section Apply.
Variable explanationFiles : gmap string string.

Definition linkQuestion (entryFile explanationId : string)
    (st : state stats) (questionExternalId : string) : state stats :=
  let result := returning questionExternalId (st_db st) in
  let st := issue entryFile (SetQuestionLink questionExternalId explanationId) st in
  if (0 <? length result)%nat then count incUpdated st
  else warn ("  Warning: Question not found: " +:+ questionExternalId)
            (count (pushNotFound questionExternalId) st).

Definition processEntry (st : state stats) (entry : MetaEntry) : state stats :=
  match truthy (explanationFiles !! file entry) with
  | None => warn ("Warning: File not found: " +:+ file entry) st
  | Some content =>
      let explanationId := generateExplanationId (file entry) in
      let st := count incUpserted
                  (issue (file entry) (UpsertExplanation explanationId content) st) in
      fold_left (linkQuestion (file entry) explanationId) (questions entry) st
  end.
End Apply.

Definition main (meta : list MetaEntry) (explanationsDir : list dirent) (d : db)
    : state stats :=
  let explanationFiles := readExplanationsDir explanationsDir in
  fold_left (processEntry explanationFiles) meta (State d (Stats 0 0 []) []).
End SyncFull.

(** ** The full rebuild for the ordered schema *)

Module InsertFull.
Import Store Fs.

Definition BRANCH : string := "feat/profil-skrzydla".
Definition SVGS_BASE_URL : string :=
  "https://raw.githubusercontent.com/fmkra/pplka-explanations/refs/heads/"
  +:+ BRANCH +:+ "/explanations/".

Definition generateExplanationId (filePath : string) : string :=
  Uuid.v5 filePath Uuid.URL.

Definition svgContent (relativePath : string) : string :=
  let svgUrl := SVGS_BASE_URL +:+ Js.encodeURIComponent relativePath in
  "![](" +:+ svgUrl +:+ ")".

Fixpoint readEntry (rel : string) (files : gmap string string) (entry : dirent)
    : gmap string string :=
  match entry with
  | Dir name entries =>
      let subFiles := fold_left (readEntry (relPath rel name)) entries ∅ in
      subFiles ∪ files
  | File name content =>
      if Js.endsWith name ".md" then <[relPath rel name := content]> files
      else if Js.endsWith name ".svg"
           then <[relPath rel name := svgContent (relPath rel name)]> files
           else files
  end.

Definition readExplanationsDir (entries : list dirent) : gmap string string :=
  fold_left (readEntry EmptyString) entries ∅.

(** The counters of [main], and the number of [uuidv4()] draws so far. *)
Record stats := Stats {
  explanationsUpserted : nat;
  linksInserted : nat;
  questionsNotFound : list string;
  uuidsDrawn : nat }.

Definition incUpserted (s : stats) : stats :=
  Stats (S (explanationsUpserted s)) (linksInserted s) (questionsNotFound s) (uuidsDrawn s).
Definition incLinks (s : stats) : stats :=
  Stats (explanationsUpserted s) (S (linksInserted s)) (questionsNotFound s) (uuidsDrawn s).
Definition pushNotFound (qid : string) (s : stats) : stats :=
  Stats (explanationsUpserted s) (linksInserted s) (questionsNotFound s ++ [qid])
        (uuidsDrawn s).
Definition incDrawn (s : stats) : stats :=
  Stats (explanationsUpserted s) (linksInserted s) (questionsNotFound s) (S (uuidsDrawn s)).

(** [meta.json] of this script: question external id -> ordered file
    paths, given as the entries of the parsed object in [Object.keys]
    order. *)
Definition manifest : Type := list (string * list string).

Definition questionIds (meta : manifest) : list string := map fst meta.
Definition uniqueFiles (meta : manifest) : list string := Js.uniq (flat_map snd meta).

Section Apply.
Variables (explanationFiles : gmap string string) (uuidv4 : Uuid.rng).

Definition upsertFile (st : state stats) (file : string) : state stats :=
  match truthy (explanationFiles !! file) with
  | None => warn ("Warning: File not found: " +:+ file) st
  | Some content =>
      let explanationId := generateExplanationId file in
      count incUpserted (issue file (UpsertExplanation explanationId content) st)
  end.

Definition insertLink (questionExternalId questionId : string)
    (st : state stats) (item : nat * string) : state stats :=
  let '(order, file) := item in
  match truthy (explanationFiles !! file) with
  | None => warn ("Warning: File not found: " +:+ file +:+ ", skipping link") st
  | Some _ =>
      let explanationId := generateExplanationId file in
      let id := uuidv4 (uuidsDrawn (st_stats st)) in
      let st := count incDrawn st in
      count incLinks
        (issue questionExternalId (InsertLink (Link questionId explanationId order id)) st)
  end.

Definition linkQuestion (st : state stats) (qf : string * list string) : state stats :=
  let '(questionExternalId, files) := qf in
  if (length files =? 0)%nat then st
  else
    match select_question questionExternalId (st_db st) with
    | [] =>
        warn ("Warning: Question not found: " +:+ questionExternalId)
             (count (pushNotFound questionExternalId) st)
    | questionId :: _ =>
        let st := issue questionExternalId (DeleteLinks questionId) st in
        fold_left (insertLink questionExternalId questionId)
                  (combine (seq 0 (length files)) files) st
    end.
End Apply.

Definition main (meta : manifest) (explanationsDir : list dirent) (uuidv4 : Uuid.rng)
    (d : db) : state stats :=
  let explanationFiles := readExplanationsDir explanationsDir in
  let st := State d (Stats 0 0 [] 0) [] in
  let st := fold_left (upsertFile explanationFiles) (uniqueFiles meta) st in
  fold_left (linkQuestion explanationFiles uuidv4) meta st.
End InsertFull.

(** ** The plan of the incremental sync

    The statements and warnings each entry contributes, as functions of
    the inputs alone, and the vocabulary in which the ordering of the
    entry groups is stated. *)

Module Plan.
Import Store Meta Incremental.

Definition removeEvents (entry : MetaEntry) : list event :=
  map (fun qid => Sql (file entry)
                      (UnlinkIfMatches qid (generateExplanationId (file entry))))
      (questions entry)
  ++ [Sql (file entry) (DeleteExplanation (generateExplanationId (file entry)))].

Definition upsertEvents (fs : string -> option string) (entry : MetaEntry) : list event :=
  match fs (file entry) with
  | None => [Warn ("  Warning: File not found: " +:+ file entry)]
  | Some content =>
      Sql (file entry) (UpsertExplanation (generateExplanationId (file entry)) content)
      :: map (fun qid => Sql (file entry)
                             (SetQuestionLink qid (generateExplanationId (file entry))))
             (questions entry)
  end.

Definition unlinkEvents (oldMeta : list MetaEntry) (entry : MetaEntry) : list event :=
  map (fun qid => Sql (file entry)
                      (UnlinkIfMatches qid (generateExplanationId (file entry))))
      (removedQuestions (oldQuestions oldMeta entry) entry).

(** Everything a run emits, in order. *)
Definition plan (fs : string -> option string) (oldMeta newMeta : list MetaEntry)
    (changedFiles : gset string) : list event :=
  flat_map removeEvents (removed oldMeta newMeta)
  ++ flat_map (upsertEvents fs) (added oldMeta newMeta)
  ++ flat_map (upsertEvents fs) (questionsModified oldMeta newMeta)
  ++ flat_map (upsertEvents fs) (contentOnly oldMeta newMeta changedFiles)
  ++ flat_map (unlinkEvents oldMeta) (questionsModified oldMeta newMeta).

(** The paths of a class of entries. *)
Definition paths (l : list MetaEntry) : gset string := list_to_set (map file l).

Definition pairwise_disjoint (classes : list (gset string)) : Prop :=
  forall i j X Y, i <> j -> classes !! i = Some X -> classes !! j = Some Y -> X ## Y.





End Plan.

(** ** Concrete inputs used in the examples below *)

Module Scenarios.
Import Store Meta Fs.

Definition questions3 : list question :=
  [Question "1" "Q1" (Some "X"); Question "2" "Q2" None; Question "3" "Q3" None].

Definition db0 : db := Db questions3 ∅ [].

(** a content directory holding [a.md], [b.md] and [c.md] *)
Definition fsABC (p : string) : option string :=
  if String.eqb p "a.md" then Some "A"
  else if String.eqb p "b.md" then Some "B"
  else if String.eqb p "c.md" then Some "C"
  else None.

(** an empty content directory *)
Definition fsNone (p : string) : option string := None.

(** a content directory with markdown, images, an empty file and a
    file of another kind *)
Definition tree : list dirent :=
  [File "x.md" "X"; File "e.md" EmptyString; File "p.svg" "<svg/>"; File "n.txt" "t";
   Dir "sub" [File "y.md" "Y"; File "q r.svg" "s"; Dir "d2" [File "z.md" "Z"]]].

(** two processes draw different random identifiers *)
Definition digit (n : nat) : string := String (ascii_of_nat (48 + n)) EmptyString.
Definition rngA (n : nat) : string := "11111111-1111-4111-8111-11111111111" +:+ digit n.
Definition rngB (n : nat) : string := "22222222-2222-4222-8222-22222222222" +:+ digit n.

Definition orderedMeta : InsertFull.manifest :=
  [("Q1", ["x.md"; "missing.md"; "sub/y.md"]); ("Q3", ["p.svg"; "x.md"])].

Definition oldC : list MetaEntry := [Entry "c.md" ["Q1"]].
Definition newC : list MetaEntry := [Entry "c.md" ["Q1"; "Q2"]].

Definition oldAB : list MetaEntry := [Entry "a.md" ["Q1"; "Q2"]; Entry "b.md" ["Q3"]].
Definition newAB : list MetaEntry := [Entry "a.md" ["Q1"]; Entry "b.md" ["Q3"]].
End Scenarios.

(** ** The statements of the single-link full rebuild *)

Module SyncPlan.
Import Store Meta Fs SyncFull.

Definition entryOps (explanationFiles : gmap string string) (entry : MetaEntry) : list op :=
  match truthy (explanationFiles !! file entry) with
  | None => []
  | Some content =>
      UpsertExplanation (generateExplanationId (file entry)) content
      :: map (fun q => SetQuestionLink q (generateExplanationId (file entry)))
             (questions entry)
  end.
End SyncPlan.

(** ** The plan of the ordered full rebuild

    The rows of the join table without their random [id] column, and the
    effect of one question of the manifest on them. *)

Module OrderedPlan.
Import Store Fs InsertFull.

(** (questionId, explanationId, order) *)
Definition row : Type := string * string * nat.

Definition erase (l : link) : row := (l_questionId l, l_explanationId l, l_order l).

Definition row_of (explanationFiles : gmap string string) (questionId : string)
    (item : nat * string) : list row :=
  match truthy (explanationFiles !! item.2) with
  | Some _ => [(questionId, generateExplanationId item.2, item.1)]
  | None => []
  end.

Definition rowsOf (explanationFiles : gmap string string) (questionId : string)
    (files : list string) : list row :=
  flat_map (row_of explanationFiles questionId) (combine (seq 0 (length files)) files).

(** The question row a manifest key resolves to, if its list of files is
    not empty and the question exists. *)
Definition target (d : db) (qf : string * list string) : option string :=
  if (length qf.2 =? 0)%nat then None
  else match select_question qf.1 d with
       | [] => None
       | questionId :: _ => Some questionId
       end.

Definition replaceRows (explanationFiles : gmap string string) (d : db)
    (t : list row) (qf : string * list string) : list row :=
  match target d qf with
  | None => t
  | Some questionId =>
      List.filter (fun r => negb (String.eqb r.1.1 questionId)) t
      ++ rowsOf explanationFiles questionId qf.2
  end.

(** The question rows a manifest replaces the links of. *)
Definition targets (d : db) (meta : manifest) : list string :=
  flat_map (fun qf => match target d qf with Some t => [t] | None => [] end) meta.

Definition mentions (ts : list string) (r : row) : bool := existsb (String.eqb r.1.1) ts.

(** The pairs (explanation id, order) a question ends up with. *)
Definition declared (explanationFiles : gmap string string) (files : list string)
    : list (string * nat) :=
  flat_map (fun item : nat * string =>
              match truthy (explanationFiles !! item.2) with
              | Some _ => [(generateExplanationId item.2, item.1)]
              | None => []
              end)
           (combine (seq 0 (length files)) files).

Definition upsertFileEvents (explanationFiles : gmap string string) (file : string)
    : list event :=
  match truthy (explanationFiles !! file) with
  | None => [Warn ("Warning: File not found: " +:+ file)]
  | Some content => [Sql file (UpsertExplanation (generateExplanationId file) content)]
  end.

(** The links stored for a question row, in table order. *)
Definition links_of (questionId : string) (d : db) : list link :=
  List.filter (fun l => String.eqb (l_questionId l) questionId) (link_tbl d).

(** What the map returned by [readExplanationsDir] may hold. *)
Definition loaded (p c : string) : Prop :=
  (Js.endsWith p ".md" = true \/ Js.endsWith p ".svg" = true)
  /\ (Js.endsWith p ".svg" = true -> c = svgContent p).

Definition all_loaded (files : gmap string string) : Prop :=
  forall p c, files !! p = Some c -> loaded p c.

Definition is_upsert (ev : event) : bool :=
  match ev with
  | Sql _ (UpsertExplanation _ _) => true
  | _ => false
  end.
End OrderedPlan.

From stdpp Require Import sorting.

(** ** Statements seen from one question and from one explanation id

    What a statement does to the link of the question with external id
    [q], and to the row of the explanation table with id [k]. *)

Module Acts.
Import Store.

Definition with_link (r : question) (v : option string) : question :=
  Question (q_id r) (q_externalId r) v.

Definition link_act (o : op) (q : string) (v : option string) : option string :=
  match o with
  | UnlinkIfMatches q' e => if decide (q' = q /\ v = Some e) then None else v
  | SetQuestionLink q' e => if decide (q' = q) then Some e else v
  | _ => v
  end.

Definition expl_act (o : op) (k : string) (v : option string) : option string :=
  match o with
  | DeleteExplanation e => if decide (e = k) then None else v
  | UpsertExplanation e c => if decide (e = k) then Some c else v
  | _ => v
  end.

Definition link_run (ops : list op) (q : string) (v : option string) : option string :=
  fold_left (fun v o => link_act o q v) ops v.

Definition expl_run (ops : list op) (k : string) (v : option string) : option string :=
  fold_left (fun v o => expl_act o k v) ops v.

(** Statements that can only clear a value. *)
Definition is_clearing (o : op) : bool :=
  match o with
  | UnlinkIfMatches _ _ | DeleteExplanation _ => true
  | _ => false
  end.

(** A function on values that keeps its argument or clears it, and one
    that keeps every argument or is constant. *)
Definition clearing (h : option string -> option string) : Prop :=
  forall v, h v = v \/ h v = None.

Definition setting (h : option string -> option string) : Prop :=
  (forall v, h v = v) \/ (exists c, forall v, h v = c).

(** The statements of a trace of the given kinds, for counting. *)
Definition unlinks (t : list event) : list (string * string) :=
  flat_map (fun ev => match ev with
                      | Sql _ (UnlinkIfMatches q e) => [(q, e)]
                      | _ => []
                      end) t.

Definition deletes (t : list event) : list string :=
  flat_map (fun ev => match ev with
                      | Sql _ (DeleteExplanation e) => [e]
                      | _ => []
                      end) t.

Definition upserts (t : list event) : list (string * string) :=
  flat_map (fun ev => match ev with
                      | Sql _ (UpsertExplanation e c) => [(e, c)]
                      | _ => []
                      end) t.

(** The external ids the link statements of a trace address, in order. *)
Definition linked (t : list event) : list string :=
  flat_map (fun ev => match ev with
                      | Sql _ (SetQuestionLink q _) => [q]
                      | _ => []
                      end) t.

(** The paths whose explanation a trace upserts, in order. *)
Definition upsert_paths (t : list event) : list string :=
  flat_map (fun ev => match ev with
                      | Sql path (UpsertExplanation _ _) => [path]
                      | _ => []
                      end) t.

(** The rows a trace inserts in the join table, in order. *)
Definition inserted (t : list event) : list link :=
  flat_map (fun ev => match ev with
                      | Sql _ (InsertLink row) => [row]
                      | _ => []
                      end) t.

(** Does the store have a question with this external id? *)
Definition has_question (d : db) (q : string) : bool :=
  existsb (fun r => String.eqb (q_externalId r) q) (question_tbl d).
End Acts.

(** ** String functions of the snapshot loader

    [trim], [split('\n')], [filter(Boolean)] and
    [replace(/^explanations\//, '')] on the bytes of a string. *)

Module Text.
(** White space and line terminators of ECMAScript in UTF-8: TAB, LF,
    VT, FF, CR, SP, U+00A0, U+1680, U+2000..U+200A, U+2028, U+2029,
    U+202F, U+205F, U+3000 and U+FEFF. *)
Definition is_space (bs : list ascii) : bool :=
  match map nat_of_ascii bs with
  | [b] => ((9 <=? b) && (b <=? 13)) || (b =? 32)
  | [b1; b2] => (b1 =? 194) && (b2 =? 160)
  | [b1; b2; b3] =>
      ((b1 =? 225) && (b2 =? 154) && (b3 =? 128))
      || ((b1 =? 226) && (b2 =? 128)
          && (((128 <=? b3) && (b3 <=? 138)) || (b3 =? 168) || (b3 =? 169) || (b3 =? 175)))
      || ((b1 =? 226) && (b2 =? 129) && (b3 =? 159))
      || ((b1 =? 227) && (b2 =? 128) && (b3 =? 128))
      || ((b1 =? 239) && (b2 =? 187) && (b3 =? 191))
  | _ => false
  end.

Fixpoint trimStart (fuel : nat) (l : list ascii) : list ascii :=
  match fuel with
  | O => l
  | S fuel' =>
      if is_space (firstn 1 l) then trimStart fuel' (skipn 1 l)
      else if is_space (firstn 2 l) then trimStart fuel' (skipn 2 l)
      else if is_space (firstn 3 l) then trimStart fuel' (skipn 3 l)
      else l
  end.

Definition lastn (k : nat) (l : list ascii) : list ascii := skipn (length l - k) l.
Definition droplast (k : nat) (l : list ascii) : list ascii := firstn (length l - k) l.

Fixpoint trimEnd (fuel : nat) (l : list ascii) : list ascii :=
  match fuel with
  | O => l
  | S fuel' =>
      if is_space (lastn 1 l) then trimEnd fuel' (droplast 1 l)
      else if is_space (lastn 2 l) then trimEnd fuel' (droplast 2 l)
      else if is_space (lastn 3 l) then trimEnd fuel' (droplast 3 l)
      else l
  end.

Definition trim (l : list ascii) : list ascii :=
  trimEnd (length l) (trimStart (length l) l).

(** [s.split(sep)] for a one-character separator: the pieces between
    the separators, the empty string giving one empty piece. *)
Fixpoint split (sep : ascii) (l : list ascii) : list (list ascii) :=
  match l with
  | [] => [[]]
  | c :: r =>
      if Ascii.eqb c sep then [] :: split sep r
      else match split sep r with
           | piece :: pieces => (c :: piece) :: pieces
           | [] => [[c]]
           end
  end.

(** [filter(Boolean)] on strings: the empty string is falsy. *)
Definition nonempty (l : list ascii) : bool :=
  match l with [] => false | _ => true end.

(** [s.replace(/^prefix/, '')] for a literal prefix. *)
Fixpoint strip_prefix (prefix l : list ascii) : option (list ascii) :=
  match prefix, l with
  | [], _ => Some l
  | p :: prefix', c :: l' => if Ascii.eqb p c then strip_prefix prefix' l' else None
  | _ :: _, [] => None
  end.

Definition replace_prefix (prefix l : list ascii) : list ascii :=
  match strip_prefix prefix l with
  | Some rest => rest
  | None => l
  end.

Definition newline : ascii := ascii_of_nat 10.

End Text.

(** ** How [git] prints a path

    [git diff --name-only] prints one path per line, relative to the
    top of the work tree.  With the default [core.quotePath] a path
    holding a control character, a double quote, a backslash, DEL or a
    byte above 0x7f is printed between double quotes, those bytes being
    escaped as in C: a letter for BEL, BS, TAB, LF, VT, FF and CR, the
    character itself for the quote and the backslash, and three octal
    digits otherwise ([quote_c_style] in [quote.c]).  Any other path is
    printed as it stands. *)

Module Git.
Definition must_quote (c : ascii) : bool :=
  let n := nat_of_ascii c in
  (n <? 32) || (n =? 34) || (n =? 92) || (126 <? n).

Definition octal (d : nat) : ascii := ascii_of_nat (48 + d).

Definition escape (c : ascii) : list ascii :=
  let n := nat_of_ascii c in
  ascii_of_nat 92
  :: (if n =? 7 then ["a"%char]
      else if n =? 8 then ["b"%char]
      else if n =? 9 then ["t"%char]
      else if n =? 10 then ["n"%char]
      else if n =? 11 then ["v"%char]
      else if n =? 12 then ["f"%char]
      else if n =? 13 then ["r"%char]
      else if n =? 34 then [c]
      else if n =? 92 then [c]
      else [octal (n / 64); octal ((n / 8) mod 8); octal (n mod 8)]).

Definition needs_quoting (path : list ascii) : bool := existsb must_quote path.

Definition quote_c_style (path : list ascii) : list ascii :=
  if needs_quoting path
  then Js.dquote :: flat_map (fun c => if must_quote c then escape c else [c]) path
                 ++ [Js.dquote]
  else path.

(** The lines printed for a list of paths. *)
Definition name_only (paths : list (list ascii)) : list ascii :=
  flat_map (fun line => line ++ [Text.newline]) (map quote_c_style paths).
End Git.

(** ** The snapshot loader of the incremental sync *)

Module Snapshot.
Import Store Meta.

(** [getOldMeta]: the manifest of the previous commit, parsed and
    validated; [None] stands for any failure inside the [try] block
    ([git show] failing, invalid JSON, schema violation), after which
    the old manifest is taken to be empty. *)
Definition getOldMeta (previous : option (list MetaEntry)) : list MetaEntry :=
  match previous with
  | Some meta => meta
  | None => []
  end.

(** [getChangedExplanationFiles]: the output of
    [git diff --name-only HEAD~1 HEAD -- explanations/], [None] when
    the command fails. *)
Definition getChangedExplanationFiles (output : option string) : gset string :=
  match output with
  | None => ∅
  | Some out =>
      list_to_set
        (map (fun f => string_of_list_ascii
                         (Text.replace_prefix (list_ascii_of_string "explanations/") f))
             (List.filter Text.nonempty
                (Text.split Text.newline (Text.trim (list_ascii_of_string out)))))
  end.

(** [main] with the snapshot it loads. *)
Definition sync (fs : string -> option string) (previous : option (list MetaEntry))
    (newMeta : list MetaEntry) (diffOutput : option string) (d : db)
    : state Incremental.stats :=
  Incremental.main fs (getOldMeta previous) newMeta
                   (getChangedExplanationFiles diffOutput) d.

(** What [git diff --name-only HEAD~1 HEAD -- explanations/] prints
    when the given paths of the content directory changed. *)
Definition diff_output (paths : list string) : string :=
  string_of_list_ascii
    (Git.name_only
       (map (fun p => list_ascii_of_string "explanations/" ++ list_ascii_of_string p)
            paths)).

End Snapshot.

(** ** What the final report of a run counts *)

Module Report.
Import Store Acts.

Definition ext_ids (d : db) : list string := map q_externalId (question_tbl d).

(** The counters of the incremental sync against its trace so far. *)
Definition incremental (d : db) (st : state Incremental.stats) : Prop :=
  Incremental.deleted (st_stats st) = length (deletes (st_trace st))
  /\ Incremental.upserted (st_stats st) = length (upserts (st_trace st))
  /\ Incremental.questionsUnlinked (st_stats st) = length (unlinks (st_trace st))
  /\ Incremental.questionsLinked (st_stats st)
     = length (List.filter (has_question d) (linked (st_trace st)))
  /\ Incremental.questionsNotFound (st_stats st)
     = List.filter (fun q => negb (has_question d q)) (linked (st_trace st))
  /\ ext_ids (st_db st) = ext_ids d.

(** The counters of the single-link full rebuild. *)
Definition sync (d : db) (st : state SyncFull.stats) : Prop :=
  SyncFull.explanationsUpserted (st_stats st) = length (upserts (st_trace st))
  /\ SyncFull.questionsUpdated (st_stats st)
     = length (List.filter (has_question d) (linked (st_trace st)))
  /\ SyncFull.questionsNotFound (st_stats st)
     = List.filter (fun q => negb (has_question d q)) (linked (st_trace st))
  /\ ext_ids (st_db st) = ext_ids d.

(** The counters of the ordered full rebuild and its random draws. *)
Definition ordered (uuidv4 : Uuid.rng) (d : db) (st : state InsertFull.stats) : Prop :=
  InsertFull.explanationsUpserted (st_stats st) = length (upserts (st_trace st))
  /\ InsertFull.linksInserted (st_stats st) = length (inserted (st_trace st))
  /\ InsertFull.uuidsDrawn (st_stats st) = length (inserted (st_trace st))
  /\ map l_id (inserted (st_trace st))
     = map uuidv4 (seq 0 (length (inserted (st_trace st))))
  /\ question_tbl (st_db st) = question_tbl d.

(** The manifest keys the ordered full rebuild reports as not found. *)
Definition unresolved (d : db) (meta : InsertFull.manifest) : list string :=
  map fst (List.filter (fun qf : string * list string =>
                          negb (length qf.2 =? 0)%nat && negb (has_question d qf.1))
                       meta).
End Report.

(** ** Everything the single-link full rebuild emits for one entry *)

Module SyncTrace.
Import Store Meta Fs SyncFull Acts.

Definition linkEvents (d : db) (entryFile explanationId q : string) : list event :=
  Sql entryFile (SetQuestionLink q explanationId)
  :: (if has_question d q then []
      else [Warn ("  Warning: Question not found: " +:+ q)]).

Definition entryEvents (explanationFiles : gmap string string) (d : db)
    (entry : MetaEntry) : list event :=
  match truthy (explanationFiles !! file entry) with
  | None => [Warn ("Warning: File not found: " +:+ file entry)]
  | Some content =>
      Sql (file entry) (UpsertExplanation (generateExplanationId (file entry)) content)
      :: flat_map (linkEvents d (file entry) (generateExplanationId (file entry)))
                  (questions entry)
  end.
End SyncTrace.

(** ** Reading back one escaped character

    The inverse of [Js.json_char] on the front of a string, as
    [JSON.parse] reads the characters of a string literal; it stops at
    the closing quote. *)

Module Json.
Definition hex_val (c : ascii) : nat :=
  let n := nat_of_ascii c in
  if (n <? 58)%nat then n - 48 else n - 87.

Definition unescape (s : string) : option (ascii * string) :=
  match s with
  | EmptyString => None
  | String c r =>
      if (nat_of_ascii c =? 34)%nat then None
      else if (nat_of_ascii c =? 92)%nat then
        match r with
        | EmptyString => None
        | String e r' =>
            let n := nat_of_ascii e in
            if (n =? 34)%nat then Some (e, r')
            else if (n =? 92)%nat then Some (e, r')
            else if (n =? 98)%nat then Some (ascii_of_nat 8, r')
            else if (n =? 102)%nat then Some (ascii_of_nat 12, r')
            else if (n =? 110)%nat then Some (ascii_of_nat 10, r')
            else if (n =? 114)%nat then Some (ascii_of_nat 13, r')
            else if (n =? 116)%nat then Some (ascii_of_nat 9, r')
            else if (n =? 117)%nat then
              match r' with
              | String _ (String _ (String h1 (String h2 r''))) =>
                  Some (ascii_of_nat (16 * hex_val h1 + hex_val h2), r'')
              | _ => None
              end
            else None
        end
      else Some (c, r)
  end.
End Json.

(** ** The order [Js.sort] sorts by *)

Module Order.
Definition le (x y : string) : Prop := String.leb x y = true.
End Order.

(** ** The files of a directory tree

    The files below a directory in the order [readExplanationsDir]
    visits them, each with its name, its path relative to the content
    directory and its content. *)

Module Walk.
Import Fs.

Fixpoint walk (rel : string) (entry : dirent) : list (string * (string * string)) :=
  match entry with
  | File name content => [(name, (relPath rel name, content))]
  | Dir name entries => flat_map (walk (relPath rel name)) entries
  end.

Definition files (entries : list dirent) : list (string * (string * string)) :=
  flat_map (walk EmptyString) entries.

(** What each reader keeps of a file. *)
Definition markdown (f : string * (string * string)) : list (string * string) :=
  if Js.endsWith f.1 ".md" then [f.2] else [].

Definition markdown_or_svg (f : string * (string * string)) : list (string * string) :=
  if Js.endsWith f.1 ".md" then [f.2]
  else if Js.endsWith f.1 ".svg" then [(f.2.1, InsertFull.svgContent f.2.1)]
  else [].
End Walk.

(** * Properties *)

(** ** Folding a loop body that appends to the trace *)

Section Loops.
Import Store.
Context {S X : Type} (f : state S -> X -> state S).

Lemma fold_trace (ev : X -> list event) :
  (forall st x, st_trace (f st x) = st_trace st ++ ev x) ->
  forall l st, st_trace (fold_left f l st) = st_trace st ++ flat_map ev l.
Proof.
  intros Hstep l. induction l as [|x l IH]; intros st; simpl.
  - by rewrite app_nil_r.
  - rewrite IH, Hstep. by rewrite <- app_assoc.
Qed.

Lemma fold_db (g : X -> list op) :
  (forall st x, st_db (f st x) = run (g x) (st_db st)) ->
  forall l st, st_db (fold_left f l st) = run (flat_map g l) (st_db st).
Proof.
  intros Hstep l. induction l as [|x l IH]; intros st; simpl; [done|].
  rewrite IH, Hstep. unfold run. by rewrite fold_left_app.
Qed.
End Loops.

Lemma sql_ops_app (t1 t2 : list Store.event) :
  Store.sql_ops (t1 ++ t2) = Store.sql_ops t1 ++ Store.sql_ops t2.
Proof. unfold Store.sql_ops. apply flat_map_app. Qed.

Lemma sql_ops_flat_map {X} (ev : X -> list Store.event) (l : list X) :
  Store.sql_ops (flat_map ev l) = flat_map (fun x => Store.sql_ops (ev x)) l.
Proof.
  induction l as [|x l IH]; simpl; [done|]. by rewrite sql_ops_app, IH.
Qed.

Lemma sql_ops_map_Sql {X} (f : string) (h : X -> Store.op) (l : list X) :
  Store.sql_ops (map (fun x => Store.Sql f (h x)) l) = map h l.
Proof. induction l; simpl; congruence. Qed.

Lemma flat_map_singleton {A B} (h : A -> B) (l : list A) :
  flat_map (fun x => [h x]) l = map h l.
Proof. induction l; simpl; congruence. Qed.

Lemma run_app (o1 o2 : list Store.op) (d : Store.db) :
  Store.run (o1 ++ o2) d = Store.run o2 (Store.run o1 d).
Proof. unfold Store.run. apply fold_left_app. Qed.

(** ** The incremental sync issues exactly its plan *)

Section IncrementalPlan.
Import Store Meta Incremental Plan.
Variable fs : string -> option string.

Lemma unlinkQuestion_trace f e st q :
  st_trace (unlinkQuestion f e st q) = st_trace st ++ [Sql f (UnlinkIfMatches q e)].
Proof. done. Qed.

Lemma unlinkQuestion_db f e st q :
  st_db (unlinkQuestion f e st q) = run [UnlinkIfMatches q e] (st_db st).
Proof. done. Qed.

Lemma linkQuestion_trace f e st q :
  st_trace (linkQuestion f e st q) = st_trace st ++ [Sql f (SetQuestionLink q e)].
Proof. unfold linkQuestion. by destruct (0 <? _)%nat. Qed.

Lemma linkQuestion_db f e st q :
  st_db (linkQuestion f e st q) = run [SetQuestionLink q e] (st_db st).
Proof. unfold linkQuestion. by destruct (0 <? _)%nat. Qed.

Lemma removeEntry_trace st entry :
  st_trace (removeEntry st entry) = st_trace st ++ removeEvents entry.
Proof.
  unfold removeEntry, removeEvents; simpl.
  rewrite (fold_trace _ _ (unlinkQuestion_trace _ _)), flat_map_singleton.
  by rewrite <- app_assoc.
Qed.

Lemma removeEntry_db st entry :
  st_db (removeEntry st entry) = run (sql_ops (removeEvents entry)) (st_db st).
Proof.
  unfold removeEntry, removeEvents; simpl.
  rewrite (fold_db _ _ (unlinkQuestion_db _ _)).
  rewrite sql_ops_app, run_app, sql_ops_map_Sql, flat_map_singleton. done.
Qed.

Lemma upsertEntry_trace st entry :
  st_trace (upsertEntry fs st entry) = st_trace st ++ upsertEvents fs entry.
Proof.
  unfold upsertEntry, upsertEvents. destruct (fs (file entry)); [|done].
  rewrite (fold_trace _ _ (linkQuestion_trace _ _)), flat_map_singleton. simpl.
  by rewrite <- app_assoc.
Qed.

Lemma upsertEntry_db st entry :
  st_db (upsertEntry fs st entry) = run (sql_ops (upsertEvents fs entry)) (st_db st).
Proof.
  unfold upsertEntry, upsertEvents. destruct (fs (file entry)); [|done].
  rewrite (fold_db _ _ (linkQuestion_db _ _)), flat_map_singleton. simpl.
  by rewrite sql_ops_map_Sql.
Qed.

Lemma unlinkDropped_trace oldMeta st entry :
  st_trace (unlinkDropped oldMeta st entry) = st_trace st ++ unlinkEvents oldMeta entry.
Proof.
  unfold unlinkDropped, unlinkEvents.
  by rewrite (fold_trace _ _ (unlinkQuestion_trace _ _)), flat_map_singleton.
Qed.

Lemma unlinkDropped_db oldMeta st entry :
  st_db (unlinkDropped oldMeta st entry)
  = run (sql_ops (unlinkEvents oldMeta entry)) (st_db st).
Proof.
  unfold unlinkDropped, unlinkEvents.
  by rewrite (fold_db _ _ (unlinkQuestion_db _ _)), flat_map_singleton, sql_ops_map_Sql.
Qed.

(** The whole run, early exit included. *)
Lemma main_trace oldMeta newMeta changedFiles d :
  st_trace (main fs oldMeta newMeta changedFiles d) = plan fs oldMeta newMeta changedFiles.
Proof.
  unfold main, plan.
  destruct (_ && _ && _)%bool eqn:E.
  - apply andb_prop in E as [E E3]. apply andb_prop in E as [E1 E2].
    apply Nat.eqb_eq in E1, E2, E3.
    apply length_zero_iff_nil in E1, E2, E3.
    unfold toUpsert in E2.
    apply app_eq_nil in E2 as [-> E2]. apply app_eq_nil in E2 as [_ ->].
    by rewrite E1, E3.
  - rewrite (fold_trace _ _ (unlinkDropped_trace oldMeta)).
    rewrite (fold_trace _ _ upsertEntry_trace).
    rewrite (fold_trace _ _ removeEntry_trace). simpl.
    unfold toUpsert. rewrite !flat_map_app, <- !app_assoc. done.
Qed.

Lemma main_db oldMeta newMeta changedFiles d :
  st_db (main fs oldMeta newMeta changedFiles d)
  = run (sql_ops (plan fs oldMeta newMeta changedFiles)) d.
Proof.
  unfold main, plan.
  destruct (_ && _ && _)%bool eqn:E.
  - apply andb_prop in E as [E E3]. apply andb_prop in E as [E1 E2].
    apply Nat.eqb_eq in E1, E2, E3.
    apply length_zero_iff_nil in E1, E2, E3.
    unfold toUpsert in E2.
    apply app_eq_nil in E2 as [-> E2]. apply app_eq_nil in E2 as [_ ->].
    by rewrite E1, E3.
  - rewrite (fold_db _ _ (unlinkDropped_db oldMeta)).
    rewrite (fold_db _ _ upsertEntry_db).
    rewrite (fold_db _ _ removeEntry_db). simpl.
    unfold toUpsert. rewrite !sql_ops_app, !run_app, !sql_ops_flat_map, !flat_map_app, !run_app.
    done.
Qed.
End IncrementalPlan.

(** ** Membership in the plan *)

Lemma toMap_has_acc (l : list Meta.MetaEntry) (m : gmap string Meta.MetaEntry) k :
  is_Some (fold_left (fun m e => <[Meta.file e := e]> m) l m !! k)
  <-> is_Some (m !! k) \/ In k (map Meta.file l).
Proof.
  revert m. induction l as [|e l IH]; intros m; simpl; [tauto|].
  rewrite IH, lookup_insert_is_Some. destruct (decide (Meta.file e = k)); intuition.
Qed.

Lemma has_toMap (l : list Meta.MetaEntry) k :
  Meta.has (Meta.toMap l) k = true <-> In k (map Meta.file l).
Proof.
  unfold Meta.has, Meta.toMap. rewrite bool_decide_eq_true, toMap_has_acc, lookup_empty.
  split; [intros [[? ?]|?]; done | auto].
Qed.

Section PlanMembership.
Import Store Meta Incremental Plan.
Variable fs : string -> option string.
Variables (oldMeta newMeta : list MetaEntry) (changedFiles : gset string).

Lemma toUpsert_new entry :
  In entry (toUpsert oldMeta newMeta changedFiles) -> In entry newMeta.
Proof.
  unfold toUpsert, added, questionsModified, contentOnly, kept.
  rewrite !in_app_iff, !filter_In. tauto.
Qed.

Lemma removed_not_new entry :
  In entry (removed oldMeta newMeta) -> ~ In (file entry) (map file newMeta).
Proof.
  unfold removed. rewrite filter_In. intros [_ H] Hin.
  apply has_toMap in Hin. unfold newMap in H. by rewrite Hin in H.
Qed.

Lemma in_removedQuestions q old_questions entry :
  In q (removedQuestions old_questions entry)
  <-> In q old_questions /\ ~ In q (questions entry).
Proof.
  unfold removedQuestions. rewrite filter_In, negb_true_iff, bool_decide_eq_false.
  by rewrite elem_of_list_to_set, list_elem_of_In.
Qed.

(** Where a scoped unlink in the plan comes from. *)
Lemma plan_unlink f q e :
  In (Sql f (UnlinkIfMatches q e)) (plan fs oldMeta newMeta changedFiles) ->
  e = generateExplanationId f
  /\ ((exists entry, In entry (removed oldMeta newMeta) /\ file entry = f
                     /\ In q (questions entry))
      \/ (exists entry, In entry (questionsModified oldMeta newMeta) /\ file entry = f
                        /\ In q (oldQuestions oldMeta entry)
                        /\ ~ In q (questions entry))).
Proof.
  unfold plan. rewrite !in_app_iff, !in_flat_map.
  intros [H|[H|[H|[H|H]]]]; destruct H as (entry & Hin & Hev).
  - unfold removeEvents in Hev. apply in_app_iff in Hev as [Hev|[Hev|[]]]; [|done].
    apply in_map_iff in Hev as (q' & [= <- <- <-] & Hq). eauto 10.
  - unfold upsertEvents in Hev. destruct (fs (file entry)).
    + destruct Hev as [Hev|Hev]; [done|].
      by apply in_map_iff in Hev as (q' & ? & Hq).
    + by destruct Hev as [Hev|[]].
  - unfold upsertEvents in Hev. destruct (fs (file entry)).
    + destruct Hev as [Hev|Hev]; [done|].
      by apply in_map_iff in Hev as (q' & ? & Hq).
    + by destruct Hev as [Hev|[]].
  - unfold upsertEvents in Hev. destruct (fs (file entry)).
    + destruct Hev as [Hev|Hev]; [done|].
      by apply in_map_iff in Hev as (q' & ? & Hq).
    + by destruct Hev as [Hev|[]].
  - unfold unlinkEvents in Hev.
    apply in_map_iff in Hev as (q' & [= <- <- <-] & Hq).
    apply in_removedQuestions in Hq as [? ?]. split; [done|]. right. eauto 10.
Qed.

(** What a readable entry of the upsert loop contributes. *)
Lemma plan_upsert entry content :
  In entry (toUpsert oldMeta newMeta changedFiles) ->
  fs (file entry) = Some content ->
  In (Sql (file entry) (UpsertExplanation (generateExplanationId (file entry)) content))
     (plan fs oldMeta newMeta changedFiles)
  /\ forall q, In q (questions entry) ->
       In (Sql (file entry) (SetQuestionLink q (generateExplanationId (file entry))))
          (plan fs oldMeta newMeta changedFiles).
Proof.
  intros Hin Hfs.
  assert (Hsub : forall ev, In ev (upsertEvents fs entry) ->
                   In ev (plan fs oldMeta newMeta changedFiles)).
  { intros ev Hev. unfold plan, toUpsert in *. rewrite !in_app_iff, !in_flat_map.
    apply in_app_iff in Hin as [Hin|Hin]; [|apply in_app_iff in Hin as [Hin|Hin]];
      eauto 10. }
  split; [|intros q Hq]; apply Hsub; unfold upsertEvents; rewrite Hfs.
  - by left.
  - right. apply in_map_iff. eauto.
Qed.

Lemma plan_unlink_dropped entry q :
  In entry (questionsModified oldMeta newMeta) ->
  In q (oldQuestions oldMeta entry) -> ~ In q (questions entry) ->
  In (Sql (file entry) (UnlinkIfMatches q (generateExplanationId (file entry))))
     (plan fs oldMeta newMeta changedFiles).
Proof.
  intros Hin Hq Hnq. unfold plan. rewrite !in_app_iff, !in_flat_map.
  do 4 right. exists entry. split; [done|]. unfold unlinkEvents.
  apply in_map_iff. exists q. split; [done|]. by apply in_removedQuestions.
Qed.

Lemma plan_delete entry :
  In entry (removed oldMeta newMeta) ->
  In (Sql (file entry) (DeleteExplanation (generateExplanationId (file entry))))
     (plan fs oldMeta newMeta changedFiles).
Proof.
  intros Hin. unfold plan. rewrite !in_app_iff, !in_flat_map.
  left. exists entry. split; [done|]. unfold removeEvents.
  apply in_app_iff. right. by left.
Qed.

(** An unreadable entry of the upsert loop leaves a warning, and the
    only statements tagged with its path are scoped unlinks. *)
Lemma plan_missing entry :
  In entry (toUpsert oldMeta newMeta changedFiles) ->
  fs (file entry) = None ->
  In (Warn ("  Warning: File not found: " +:+ file entry))
     (plan fs oldMeta newMeta changedFiles)
  /\ forall o, In (Sql (file entry) o) (plan fs oldMeta newMeta changedFiles) ->
       exists q, o = UnlinkIfMatches q (generateExplanationId (file entry)).
Proof.
  intros Hin Hfs. split.
  - unfold plan, toUpsert in *. rewrite !in_app_iff, !in_flat_map.
    assert (In (Warn ("  Warning: File not found: " +:+ file entry))
               (upsertEvents fs entry)) by (unfold upsertEvents; rewrite Hfs; by left).
    apply in_app_iff in Hin as [Hin|Hin]; [|apply in_app_iff in Hin as [Hin|Hin]];
      eauto 10.
  - intros o. unfold plan. rewrite !in_app_iff, !in_flat_map.
    assert (Hup : forall e', In (Sql (file entry) o) (upsertEvents fs e') -> False).
    { intros e' Hev. unfold upsertEvents in Hev.
      destruct (fs (file e')) eqn:E.
      - destruct Hev as [[= He _]|Hev].
        + rewrite He in E. congruence.
        + apply in_map_iff in Hev as (q' & [= He _] & _). rewrite He in E. congruence.
      - by destruct Hev as [|[]]. }
    intros [H|[H|[H|[H|H]]]]; destruct H as (e' & Hin' & Hev);
      try (by destruct (Hup e' Hev)).
    + exfalso. apply (removed_not_new e' Hin').
      unfold removeEvents in Hev. apply in_app_iff in Hev as [Hev|[Hev|[]]].
      * apply in_map_iff in Hev as (q' & [= -> _] & _).
        apply in_map. by apply toUpsert_new.
      * injection Hev as -> _. apply in_map. by apply toUpsert_new.
    + unfold unlinkEvents in Hev.
      apply in_map_iff in Hev as (q' & [= He <-] & _). rewrite He. eauto.
Qed.
End PlanMembership.

(** ** C5: the order in which the groups are applied *)



(** ** C3: unlinking is scoped to the entry's own identifier *)

Lemma unlink_rows_lookup (q e : string) (rows : list Store.question) i r :
  rows !! i = Some r ->
  map (Store.unlink_row q e) rows !! i = Some (Store.unlink_row q e r).
Proof.
  revert i. induction rows as [|r0 rows IH]; intros [|i] H; simplify_eq/=; auto.
Qed.

Lemma in_sql_ops (o : Store.op) (t : list Store.event) :
  In o (Store.sql_ops t) <-> exists subject, In (Store.Sql subject o) t.
Proof.
  unfold Store.sql_ops. rewrite in_flat_map. split.
  - intros ([s o'|m] & Hin & Ho); [|done]. destruct Ho as [<-|[]]. eauto.
  - intros (s & Hin). exists (Store.Sql s o). split; [done|]. by left.
Qed.

Lemma exec_keeps_row (o : Store.op) (d : Store.db) i r :
  Store.keeps_row r o -> Store.question_tbl d !! i = Some r ->
  Store.question_tbl (Store.exec o d) !! i = Some r.
Proof.
  intros Hk Hi. destruct o as [q e| | |q e| |]; simpl in *; try done.
  - rewrite (unlink_rows_lookup _ _ _ _ _ Hi). unfold Store.unlink_row.
    case_decide as Hc; [|done]. destruct Hc as [Hq He]. by destruct Hk.
  - revert i Hi. induction (Store.question_tbl d) as [|r0 rows IH]; intros [|i] Hi;
      simplify_eq/=; [|by apply IH].
    unfold Store.link_row. case_decide; [congruence|done].
Qed.

Lemma run_keeps_row (ops : list Store.op) (d : Store.db) i r :
  (forall o, In o ops -> Store.keeps_row r o) ->
  Store.question_tbl d !! i = Some r ->
  Store.question_tbl (Store.run ops d) !! i = Some r.
Proof.
  revert d. induction ops as [|o ops IH]; intros d Hall Hi; simpl; [done|].
  apply IH; [intros o' Ho'; apply Hall; by right|].
  apply exec_keeps_row; [apply Hall; by left|done].
Qed.

(** C3: every statement of the incremental sync that clears a link is a
    scoped unlink for the derived id of the removed or modified entry
    being processed; whatever the store holds when it runs, a question
    row whose link is another explanation (or whose external id is
    another question's) is left as it is, a matching row is cleared, and
    no other table changes.  Over a whole run: a question row that the
    run does not link, and whose link is none of the ids the run unlinks
    for its question, ends the run as it started. *)
Theorem unlink_is_scoped
    (fs : string -> option string) (oldMeta newMeta : list Meta.MetaEntry)
    (changedFiles : gset string) (d : Store.db) :
  let st := Incremental.main fs oldMeta newMeta changedFiles d in
  (forall path q e,
     In (Store.Sql path (Store.UnlinkIfMatches q e)) (Store.st_trace st) ->
     e = Incremental.generateExplanationId path
     /\ (In path (map Meta.file (Incremental.removed oldMeta newMeta))
         \/ In path (map Meta.file (Incremental.questionsModified oldMeta newMeta)))
     /\ forall d' : Store.db,
          let d'' := Store.exec (Store.UnlinkIfMatches q e) d' in
          Store.explanation_tbl d'' = Store.explanation_tbl d'
          /\ Store.link_tbl d'' = Store.link_tbl d'
          /\ forall i r, Store.question_tbl d' !! i = Some r ->
               (Store.q_explanationId r <> Some e -> Store.question_tbl d'' !! i = Some r)
               /\ (Store.q_externalId r <> q -> Store.question_tbl d'' !! i = Some r)
               /\ (Store.q_externalId r = q -> Store.q_explanationId r = Some e ->
                   Store.question_tbl d'' !! i
                   = Some (Store.Question (Store.q_id r) q None)))
  /\ (forall i r,
        Store.question_tbl d !! i = Some r ->
        (forall path e,
           ~ In (Store.Sql path (Store.SetQuestionLink (Store.q_externalId r) e))
                (Store.st_trace st)) ->
        (forall path e,
           In (Store.Sql path (Store.UnlinkIfMatches (Store.q_externalId r) e))
              (Store.st_trace st) ->
           Store.q_explanationId r <> Some e) ->
        Store.question_tbl (Store.st_db st) !! i = Some r).
Proof.
  intros st. subst st. split.
  - intros path q e. rewrite main_trace. intros Hin.
    apply plan_unlink in Hin as [-> Hsrc]. split; [done|]. split.
    + destruct Hsrc as [(entry & Hin & <- & _)|(entry & Hin & <- & _)];
        [left|right]; by apply in_map.
    + intros d'. simpl. repeat split; try done.
      * intros Hne. rewrite (unlink_rows_lookup _ _ _ _ _ H).
        unfold Store.unlink_row. case_decide as Hc; [by destruct Hc|done].
      * intros Hne. rewrite (unlink_rows_lookup _ _ _ _ _ H).
        unfold Store.unlink_row. case_decide as Hc; [by destruct Hc|done].
      * intros Hq He. rewrite (unlink_rows_lookup _ _ _ _ _ H).
        unfold Store.unlink_row. case_decide as Hc; [by rewrite Hq|].
        by destruct Hc.
  - intros i r Hi Hlink Hunlink. rewrite main_db. rewrite main_trace in Hlink, Hunlink.
    apply run_keeps_row; [|done].
    intros o (path & Hin)%in_sql_ops.
    destruct o as [q e| | |q e| |]; simpl; try done.
    + destruct (decide (q = Store.q_externalId r)) as [->|Hne]; [|by left].
      right. by apply (Hunlink path).
    + intros ->. by apply (Hlink path e).
Qed.

Lemma unlink_is_scoped_witness :
  In (Store.Sql "a.md"
        (Store.UnlinkIfMatches "Q2" (Incremental.generateExplanationId "a.md")))
     (Store.st_trace
        (Incremental.main Scenarios.fsABC Scenarios.oldAB Scenarios.newAB
                          {["b.md"]} Scenarios.db0))
  /\ Store.question_tbl
       (Store.exec
          (Store.UnlinkIfMatches "Q2" (Incremental.generateExplanationId "a.md"))
          Scenarios.db0) !! 0
     = Some (Store.Question "1" "Q1" (Some "X")).
Proof.
  assert (H : In (Store.Sql "a.md"
                    (Store.UnlinkIfMatches "Q2" (Incremental.generateExplanationId "a.md")))
                 (Store.st_trace
                    (Incremental.main Scenarios.fsABC Scenarios.oldAB Scenarios.newAB
                                      {["b.md"]} Scenarios.db0))).
  { vm_compute. do 4 right. left. reflexivity. }
  split; [exact H|].
  destruct (proj1 (unlink_is_scoped Scenarios.fsABC Scenarios.oldAB Scenarios.newAB
                     {["b.md"]} Scenarios.db0) _ _ _ H) as (_ & _ & Hsem).
  destruct (Hsem Scenarios.db0) as (_ & _ & Hrows).
  apply (Hrows 0 (Store.Question "1" "Q1" (Some "X")) eq_refl).
  vm_compute. discriminate.
Defined.

(** A removed entry whose question has been repointed: [a.md] is dropped
    from the manifest while Q1 already points at another explanation X;
    the run deletes the explanation of [a.md] and leaves Q1 on X. *)
Example stale_removal_keeps_newer_link :
  let st := Incremental.main Scenarios.fsABC [Meta.Entry "a.md" ["Q1"; "Q2"]] [] ∅
                             Scenarios.db0 in
  Store.sql_ops (Store.st_trace st)
  = [Store.UnlinkIfMatches "Q1" (Incremental.generateExplanationId "a.md");
     Store.UnlinkIfMatches "Q2" (Incremental.generateExplanationId "a.md");
     Store.DeleteExplanation (Incremental.generateExplanationId "a.md")]
  /\ Store.link_of "Q1" (Store.st_db st) = [Some "X"].
Proof. vm_compute. done. Qed.

(** ** C6: scenario C *)

(** C6, as stated, fails: question Q1 is linked again.  If its link had
    been repointed to another explanation X, the run overwrites it. *)
Lemma scenario_C_relinks_Q1 :
  let st := Incremental.main Scenarios.fsABC Scenarios.oldC Scenarios.newC ∅ Scenarios.db0 in
  In (Store.Sql "c.md"
        (Store.SetQuestionLink "Q1" (Incremental.generateExplanationId "c.md")))
     (Store.st_trace st)
  /\ Store.link_of "Q1" Scenarios.db0 = [Some "X"]
  /\ Store.link_of "Q1" (Store.st_db st) <> Store.link_of "Q1" Scenarios.db0.
Proof.
  split; [|split].
  - vm_compute. right. left. reflexivity.
  - reflexivity.
  - vm_compute. discriminate.
Qed.

(** C6 (amended): in scenario C the entry is classified linksModified and
    nothing else is; when [c.md] is readable the run upserts the
    explanation and links both Q1 and Q2 to the derived id of [c.md],
    in that order, and issues no unlink, so that afterwards every row of
    Q1 and Q2 points at that id. *)
Theorem scenario_C
    (fs : string -> option string) (changedFiles : gset string) (d : Store.db)
    (content : string) :
  fs "c.md" = Some content ->
  let id := Incremental.generateExplanationId "c.md" in
  let st := Incremental.main fs Scenarios.oldC Scenarios.newC changedFiles d in
  Incremental.questionsModified Scenarios.oldC Scenarios.newC = Scenarios.newC
  /\ Incremental.removed Scenarios.oldC Scenarios.newC = []
  /\ Incremental.added Scenarios.oldC Scenarios.newC = []
  /\ Incremental.contentOnly Scenarios.oldC Scenarios.newC changedFiles = []
  /\ Store.st_trace st
     = [Store.Sql "c.md" (Store.UpsertExplanation id content);
        Store.Sql "c.md" (Store.SetQuestionLink "Q1" id);
        Store.Sql "c.md" (Store.SetQuestionLink "Q2" id)]
  /\ forall r, In r (Store.question_tbl (Store.st_db st)) ->
       Store.q_externalId r = "Q1" \/ Store.q_externalId r = "Q2" ->
       Store.q_explanationId r = Some id.
Proof.
  intros Hfs id st.
  assert (Hqm : Incremental.questionsModified Scenarios.oldC Scenarios.newC = Scenarios.newC)
    by (vm_compute; reflexivity).
  assert (Hrm : Incremental.removed Scenarios.oldC Scenarios.newC = [])
    by (vm_compute; reflexivity).
  assert (Had : Incremental.added Scenarios.oldC Scenarios.newC = [])
    by (vm_compute; reflexivity).
  assert (Hco : Incremental.contentOnly Scenarios.oldC Scenarios.newC changedFiles = []).
  { unfold Incremental.contentOnly.
    replace (Incremental.kept Scenarios.oldC Scenarios.newC) with Scenarios.newC
      by (vm_compute; reflexivity).
    unfold Incremental.alreadyHandled. rewrite Hqm, Had. simpl.
    rewrite bool_decide_eq_true_2; [done|]. set_solver. }
  assert (Htr : Store.st_trace st
     = [Store.Sql "c.md" (Store.UpsertExplanation id content);
        Store.Sql "c.md" (Store.SetQuestionLink "Q1" id);
        Store.Sql "c.md" (Store.SetQuestionLink "Q2" id)]).
  { subst st. rewrite main_trace. unfold Plan.plan. rewrite Hqm, Hrm, Had, Hco. simpl.
    unfold Plan.upsertEvents. simpl. rewrite Hfs. simpl.
    rewrite app_nil_r. unfold Plan.unlinkEvents. simpl.
    replace (Incremental.removedQuestions _ _) with (@nil string)
      by (vm_compute; reflexivity).
    done. }
  assert (Hdb : Store.st_db st = Store.run (Store.sql_ops (Store.st_trace st)) d)
    by (subst st; by rewrite main_db, main_trace).
  repeat split; try done.
  intros r Hr Hq. rewrite Hdb, Htr in Hr. simpl in Hr.
  rewrite map_map in Hr. apply in_map_iff in Hr as (r0 & <- & _).
  unfold Store.link_row in *.
  repeat case_decide; simpl in *; try done; destruct Hq; congruence.
Qed.

Lemma scenario_C_witness :
  let id := Incremental.generateExplanationId "c.md" in
  Scenarios.fsABC "c.md" = Some "C"
  /\ Store.st_trace
       (Incremental.main Scenarios.fsABC Scenarios.oldC Scenarios.newC ∅ Scenarios.db0)
     = [Store.Sql "c.md" (Store.UpsertExplanation id "C");
        Store.Sql "c.md" (Store.SetQuestionLink "Q1" id);
        Store.Sql "c.md" (Store.SetQuestionLink "Q2" id)].
Proof.
  split; [reflexivity|].
  apply (scenario_C Scenarios.fsABC ∅ Scenarios.db0 "C" eq_refl).
Defined.

(** ** C7: what a linksModified entry contributes *)

(** C7, as stated, fails: the explanation of a linksModified entry is
    upserted although its path is not among the changed paths. *)
Lemma links_modified_upserts_unchanged_content :
  let st := Incremental.main Scenarios.fsABC Scenarios.oldC Scenarios.newC ∅ Scenarios.db0 in
  In "c.md" (map Meta.file (Incremental.questionsModified Scenarios.oldC Scenarios.newC))
  /\ ("c.md" ∉ (∅ : gset string))
  /\ In (Store.Sql "c.md"
           (Store.UpsertExplanation (Incremental.generateExplanationId "c.md") "C"))
        (Store.st_trace st).
Proof.
  split; [|split].
  - vm_compute. left. reflexivity.
  - set_solver.
  - vm_compute. left. reflexivity.
Qed.

(** C7 (amended): for every linksModified entry, whether or not its path
    is among the changed paths: if its file is readable the run upserts
    the explanation row with the file's content and links every question
    of the new set to the derived id; and it issues a scoped unlink for
    every question present in the old entry but absent from the new one. *)
Theorem links_modified_plan
    (fs : string -> option string) (oldMeta newMeta : list Meta.MetaEntry)
    (changedFiles : gset string) (d : Store.db) (entry : Meta.MetaEntry) :
  In entry (Incremental.questionsModified oldMeta newMeta) ->
  let id := Incremental.generateExplanationId (Meta.file entry) in
  let t := Store.st_trace (Incremental.main fs oldMeta newMeta changedFiles d) in
  (forall content, fs (Meta.file entry) = Some content ->
     In (Store.Sql (Meta.file entry) (Store.UpsertExplanation id content)) t
     /\ forall q, In q (Meta.questions entry) ->
          In (Store.Sql (Meta.file entry) (Store.SetQuestionLink q id)) t)
  /\ (forall q, In q (Incremental.oldQuestions oldMeta entry) ->
        ~ In q (Meta.questions entry) ->
        In (Store.Sql (Meta.file entry) (Store.UnlinkIfMatches q id)) t).
Proof.
  intros Hin id t. subst t. rewrite main_trace. split.
  - intros content Hfs. apply plan_upsert; [|done].
    unfold Incremental.toUpsert. rewrite !in_app_iff. auto.
  - intros q Hq Hnq. by apply plan_unlink_dropped.
Qed.

Lemma links_modified_plan_witness :
  In (Store.Sql "a.md"
        (Store.UnlinkIfMatches "Q2" (Incremental.generateExplanationId "a.md")))
     (Store.st_trace
        (Incremental.main Scenarios.fsABC Scenarios.oldAB Scenarios.newAB
                          {["b.md"]} Scenarios.db0)).
Proof.
  assert (Hin : In (Meta.Entry "a.md" ["Q1"])
                   (Incremental.questionsModified Scenarios.oldAB Scenarios.newAB))
    by (vm_compute; left; reflexivity).
  apply (links_modified_plan Scenarios.fsABC Scenarios.oldAB Scenarios.newAB
           {["b.md"]} Scenarios.db0 _ Hin).
  - vm_compute. right. left. reflexivity.
  - vm_compute. intros [H|[]]. discriminate.
Defined.

(** ** C8: a content file that cannot be read *)

(** C8, as stated, fails: for an added entry whose file is missing the
    run issues no statement at all; the link of its question Q3, which
    does not depend on the content, is skipped too. *)
Lemma missing_file_skips_links :
  let st := Incremental.main Scenarios.fsNone [] [Meta.Entry "b.md" ["Q3"]] ∅ Scenarios.db0 in
  In (Meta.Entry "b.md" ["Q3"]) (Incremental.added [] [Meta.Entry "b.md" ["Q3"]])
  /\ Store.st_trace st = [Store.Warn "  Warning: File not found: b.md"]
  /\ ~ In (Store.Sql "b.md"
             (Store.SetQuestionLink "Q3" (Incremental.generateExplanationId "b.md")))
          (Store.st_trace st).
Proof.
  split; [|split].
  - vm_compute. left. reflexivity.
  - vm_compute. reflexivity.
  - vm_compute. intros [H|[]]. discriminate.
Qed.

Lemma upsert_loop_app (fs : string -> option string) (l1 l2 : list Meta.MetaEntry)
    (st : Store.state Incremental.stats) :
  fold_left (Incremental.upsertEntry fs) (l1 ++ l2) st
  = fold_left (Incremental.upsertEntry fs) l2 (fold_left (Incremental.upsertEntry fs) l1 st).
Proof. apply fold_left_app. Qed.

(** C8 (amended): for every entry to upsert whose content file cannot be
    read, the run skips that entry's upsert and all of its link
    statements, emits a warning and goes on: the loop resumes with the
    next entry from the state it had reached, every readable entry is
    still upserted and linked, every removed entry is still deleted, and
    the only statements issued for the unreadable entry are the scoped
    unlinks of questions dropped from it. *)
Theorem missing_file_is_skipped
    (fs : string -> option string) (oldMeta newMeta : list Meta.MetaEntry)
    (changedFiles : gset string) (d : Store.db) (entry : Meta.MetaEntry) :
  In entry (Incremental.toUpsert oldMeta newMeta changedFiles) ->
  fs (Meta.file entry) = None ->
  let t := Store.st_trace (Incremental.main fs oldMeta newMeta changedFiles d) in
  let msg := "  Warning: File not found: " +:+ Meta.file entry in
  In (Store.Warn msg) t
  /\ (forall o, In (Store.Sql (Meta.file entry) o) t ->
        exists q, o = Store.UnlinkIfMatches q
                        (Incremental.generateExplanationId (Meta.file entry)))
  /\ (forall l1 l2 st,
        fold_left (Incremental.upsertEntry fs) (l1 ++ entry :: l2) st
        = fold_left (Incremental.upsertEntry fs) l2
            (Store.warn msg (fold_left (Incremental.upsertEntry fs) l1 st)))
  /\ (forall other content,
        In other (Incremental.toUpsert oldMeta newMeta changedFiles) ->
        fs (Meta.file other) = Some content ->
        let id := Incremental.generateExplanationId (Meta.file other) in
        In (Store.Sql (Meta.file other) (Store.UpsertExplanation id content)) t
        /\ forall q, In q (Meta.questions other) ->
             In (Store.Sql (Meta.file other) (Store.SetQuestionLink q id)) t)
  /\ (forall other, In other (Incremental.removed oldMeta newMeta) ->
        In (Store.Sql (Meta.file other)
              (Store.DeleteExplanation
                 (Incremental.generateExplanationId (Meta.file other)))) t).
Proof.
  intros Hin Hfs t msg. subst t msg. rewrite main_trace.
  destruct (plan_missing fs oldMeta newMeta changedFiles entry Hin Hfs) as [Hw Honly].
  split; [done|]. split; [done|]. split; [|split].
  - intros l1 l2 st. rewrite upsert_loop_app. simpl.
    unfold Incremental.upsertEntry at 2. by rewrite Hfs.
  - intros other content Hother Hc. by apply plan_upsert.
  - intros other Hother. by apply plan_delete.
Qed.

Lemma missing_file_is_skipped_witness :
  In (Store.Warn "  Warning: File not found: b.md")
     (Store.st_trace
        (Incremental.main Scenarios.fsNone [] [Meta.Entry "b.md" ["Q3"]] ∅ Scenarios.db0)).
Proof.
  assert (Hin : In (Meta.Entry "b.md" ["Q3"])
                   (Incremental.toUpsert [] [Meta.Entry "b.md" ["Q3"]] ∅))
    by (vm_compute; left; reflexivity).
  exact (proj1 (missing_file_is_skipped Scenarios.fsNone [] [Meta.Entry "b.md" ["Q3"]] ∅
                  Scenarios.db0 _ Hin eq_refl)).
Defined.

(** ** C1: the derived identifiers *)

Lemma list_ascii_app (a b : string) :
  list_ascii_of_string (a +:+ b) = list_ascii_of_string a ++ list_ascii_of_string b.
Proof. induction a as [|c a IH]; simpl; [done|]. by rewrite <- IH. Qed.

(** The variant bits of a version-5 UUID: the first digit of the fourth
    group is one of 8, 9, a, b. *)
Lemma variant_digit (x : Z) :
  Bytes.hex_digit (Z.shiftr (Z.lor (Z.land x 63) 128) 4) <> "0"%char.
Proof.
  assert (H : exists n, (n < 64)%nat /\ Z.land x 63 = Z.of_nat n).
  { exists (Z.to_nat (Z.land x 63)).
    change 63%Z with (Z.ones 6). rewrite Z.land_ones by lia.
    pose proof (Z.mod_pos_bound x (2 ^ 6) ltac:(lia)). lia. }
  destruct H as (n & Hn & ->).
  do 64 (destruct n as [|n]; [vm_compute; discriminate|]). lia.
Qed.

Lemma xxhash_id_is_not_a_uuid5 (p : string) :
  SyncFull.generateExplanationId p <> Incremental.generateExplanationId p.
Proof.
  unfold SyncFull.generateExplanationId, Incremental.generateExplanationId.
  unfold Uuid.v5, Uuid.v5_bytes.
  generalize (Xxh64.toString16 (Xxh64.h64 (Bytes.of_string p) 0)).
  generalize (Sha1.sha1 (Uuid.URL ++ Bytes.of_string p)).
  intros bytes hash Heq.
  apply (f_equal list_ascii_of_string) in Heq.
  rewrite !list_ascii_app in Heq.
  apply (f_equal (@rev ascii)) in Heq.
  unfold Uuid.stringify, Uuid.hex_at, Bytes.hex2 in Heq.
  rewrite !list_ascii_app in Heq.
  cbn [list_ascii_of_string] in Heq.
  rewrite !rev_app_distr in Heq.
  cbn [rev app] in Heq.
  apply (f_equal (fun l => nth 16 l "-"%char)) in Heq. cbn [nth] in Heq.
  change (nth 8 (map (Uuid.v5_byte bytes) (seq 0 16)) 0%Z)
    with (Z.lor (Z.land (nth 8 bytes 0%Z) 63) 128) in Heq.
  symmetry in Heq. by apply variant_digit in Heq.
Qed.

(** C1, as stated, fails: the earlier full rebuild derives its ids with
    xxhash, the other two scripts with UUID version 5, so one path gets
    two different explanation ids across the scripts. *)
Lemma scripts_disagree_on_id :
  SyncFull.generateExplanationId "a.md" = "cc911539-fb85-bdfb-0000-000000000000"
  /\ Incremental.generateExplanationId "a.md" = "2a057ad1-7ed1-5961-8d7a-c12ff3a9f576"
  /\ SyncFull.generateExplanationId "a.md" <> Incremental.generateExplanationId "a.md".
Proof. split; [|split]; vm_compute; [reflexivity..|discriminate]. Qed.

Lemma plan_ids (fs : string -> option string) (oldMeta newMeta : list Meta.MetaEntry)
    (changedFiles : gset string) path o :
  In (Store.Sql path o) (Plan.plan fs oldMeta newMeta changedFiles) ->
  Store.op_explanation o = Some (Incremental.generateExplanationId path).
Proof.
  assert (Hup : forall entry, In (Store.Sql path o) (Plan.upsertEvents fs entry) ->
                  Store.op_explanation o = Some (Incremental.generateExplanationId path)).
  { intros entry. unfold Plan.upsertEvents. destruct (fs (Meta.file entry)).
    - intros [[= <- <-]|Hev]; [done|].
      by apply in_map_iff in Hev as (q & [= <- <-] & _).
    - by intros [|[]]. }
  unfold Plan.plan. rewrite !in_app_iff, !in_flat_map.
  intros [H|[H|[H|[H|H]]]]; destruct H as (entry & _ & Hev); eauto.
  - unfold Plan.removeEvents in Hev. apply in_app_iff in Hev as [Hev|[Hev|[]]].
    + by apply in_map_iff in Hev as (q & [= <- <-] & _).
    + by injection Hev as <- <-.
  - unfold Plan.unlinkEvents in Hev.
    by apply in_map_iff in Hev as (q & [= <- <-] & _).
Qed.

(** C1 (amended): within each script the id is a function of the path
    alone: every statement of an incremental run addresses the
    explanation id derived from the path of the entry being processed,
    whatever the content directory and the store hold.  The incremental
    sync and the ordered full rebuild derive the same id for every path;
    the single-link full rebuild derives a different one for every path. *)
Theorem id_derivation_is_stable (p : string) :
  Incremental.generateExplanationId p = InsertFull.generateExplanationId p
  /\ Incremental.generateExplanationId p = Uuid.v5 p Uuid.URL
  /\ SyncFull.generateExplanationId p <> Incremental.generateExplanationId p
  /\ forall (fs : string -> option string) (oldMeta newMeta : list Meta.MetaEntry)
       (changedFiles : gset string) (d : Store.db) (o : Store.op),
       In (Store.Sql p o)
          (Store.st_trace (Incremental.main fs oldMeta newMeta changedFiles d)) ->
       Store.op_explanation o = Some (Incremental.generateExplanationId p).
Proof.
  split; [done|]. split; [done|]. split; [apply xxhash_id_is_not_a_uuid5|].
  intros fs oldMeta newMeta changedFiles d o. rewrite main_trace. apply plan_ids.
Qed.

(** Known answers: the example of the [uuid] documentation and the
    reference digests of SHA-1 and XXH64. *)
Example uuid_v5_known_answer :
  Uuid.v5 "https://www.w3.org/" Uuid.URL = "c106a26a-21bb-5538-8bf2-57095d1976c1".
Proof. vm_compute. reflexivity. Qed.

Example sha1_known_answer :
  Sha1.sha1 (Bytes.of_string "abc")
  = [0xa9; 0x99; 0x3e; 0x36; 0x47; 0x06; 0x81; 0x6a; 0xba; 0x3e;
     0x25; 0x71; 0x78; 0x50; 0xc2; 0x6c; 0x9c; 0xd0; 0xd8; 0x9d]%Z.
Proof. vm_compute. reflexivity. Qed.

Example xxh64_known_answers :
  Xxh64.toString16 (Xxh64.h64 (Bytes.of_string "abc") 0) = "44bc2cf5ad770999"
  /\ Xxh64.toString16
       (Xxh64.h64 (Bytes.of_string "Nobody inspects the spammish repetition") 0)
     = "fbcea83c8a378bf1".
Proof. split; vm_compute; reflexivity. Qed.


Lemma id_derivation_is_stable_witness :
  Store.op_explanation
    (Store.UnlinkIfMatches "Q2" (Incremental.generateExplanationId "a.md"))
  = Some (Incremental.generateExplanationId "a.md").
Proof.
  apply (proj2 (proj2 (proj2 (id_derivation_is_stable "a.md")))
           Scenarios.fsABC Scenarios.oldAB Scenarios.newAB {["b.md"]} Scenarios.db0).
  vm_compute. do 4 right. left. reflexivity.
Defined.

(** ** C2: the five classes partition the paths *)

Section Partition.
Import Store Meta Incremental Plan.
Variables (oldMeta newMeta : list MetaEntry) (changedFiles : gset string).
Hypothesis new_unique : NoDup (map file newMeta).

Lemma elem_of_paths (l : list MetaEntry) p :
  p ∈ paths l <-> exists e, In e l /\ file e = p.
Proof.
  unfold paths. rewrite elem_of_list_to_set, list_elem_of_In, in_map_iff.
  split; intros (e & ? & ?); eauto.
Qed.

Lemma new_entry_unique e e' :
  In e newMeta -> In e' newMeta -> file e = file e' -> e = e'.
Proof.
  clear changedFiles. revert new_unique.
  induction newMeta as [|x l IH]; simpl; [done|].
  intros Hnd. apply NoDup_cons in Hnd as [Hx Hnd]. rewrite list_elem_of_In in Hx.
  intros [->|He] [->|He'] Hf; auto.
  - destruct Hx. rewrite Hf. by apply in_map.
  - destruct Hx. rewrite <- Hf. by apply in_map.
Qed.

Lemma in_removed e :
  In e (removed oldMeta newMeta)
  <-> In e oldMeta /\ ~ In (file e) (map file newMeta).
Proof.
  unfold removed, newMap. rewrite filter_In, negb_true_iff, <- not_true_iff_false.
  by rewrite has_toMap.
Qed.

Lemma in_added e :
  In e (added oldMeta newMeta)
  <-> In e newMeta /\ ~ In (file e) (map file oldMeta).
Proof.
  unfold added, oldMap. rewrite filter_In, negb_true_iff, <- not_true_iff_false.
  by rewrite has_toMap.
Qed.

Lemma in_kept e :
  In e (kept oldMeta newMeta) <-> In e newMeta /\ In (file e) (map file oldMeta).
Proof. unfold kept, oldMap. by rewrite filter_In, has_toMap. Qed.

(** [oldMap.get(e.file)!] is defined for every kept entry. *)
Lemma kept_has_old e :
  In e (kept oldMeta newMeta) -> is_Some (oldMap oldMeta !! file e).
Proof.
  unfold kept. rewrite filter_In. intros [_ H].
  unfold has in H. by apply bool_decide_eq_true in H.
Qed.

Lemma in_questionsModified e :
  In e (questionsModified oldMeta newMeta)
  <-> (In e newMeta /\ In (file e) (map file oldMeta))
      /\ questionsDiffer oldMeta e = true.
Proof. unfold questionsModified. by rewrite filter_In, in_kept. Qed.

Lemma elem_of_alreadyHandled p :
  p ∈ alreadyHandled oldMeta newMeta
  <-> p ∈ paths (added oldMeta newMeta) \/ p ∈ paths (questionsModified oldMeta newMeta).
Proof.
  unfold alreadyHandled, paths.
  by rewrite list_to_set_app, elem_of_union.
Qed.

Lemma in_contentOnly e :
  In e (contentOnly oldMeta newMeta changedFiles)
  <-> (In e newMeta /\ In (file e) (map file oldMeta))
      /\ (file e ∉ alreadyHandled oldMeta newMeta) /\ file e ∈ changedFiles.
Proof.
  unfold contentOnly.
  rewrite filter_In, in_kept, andb_true_iff, negb_true_iff.
  by rewrite bool_decide_eq_false, bool_decide_eq_true.
Qed.

Lemma in_unchanged e :
  In e (unchanged oldMeta newMeta changedFiles)
  <-> (In e newMeta /\ In (file e) (map file oldMeta))
      /\ questionsDiffer oldMeta e = false /\ (file e ∉ changedFiles).
Proof.
  unfold unchanged.
  rewrite filter_In, in_kept, andb_true_iff, !negb_true_iff.
  by rewrite bool_decide_eq_false.
Qed.

(** With unique paths in the new manifest, a kept path is handled as a
    modification exactly when its one entry differs. *)
Lemma kept_handled e :
  In e newMeta -> In (file e) (map file oldMeta) ->
  file e ∈ alreadyHandled oldMeta newMeta <-> questionsDiffer oldMeta e = true.
Proof.
  intros He Hold. rewrite elem_of_alreadyHandled, !elem_of_paths. split.
  - intros [(e' & Hin & Hf)|(e' & Hin & Hf)].
    + apply in_added in Hin as [_ Hn]. destruct Hn. by rewrite Hf.
    + apply in_questionsModified in Hin as [[Hn _] Hd].
      by rewrite <- (new_entry_unique e' e Hn He Hf).
  - intros Hd. right. exists e. split; [|done]. by apply in_questionsModified.
Qed.

Lemma in_paths_files (l : list MetaEntry) p : In p (map file l) <-> p ∈ paths l.
Proof. unfold paths. by rewrite elem_of_list_to_set, list_elem_of_In. Qed.

(** Each path of the two manifests falls in one class. *)
Lemma classes_cover p :
  p ∈ paths oldMeta ∪ paths newMeta ->
  p ∈ paths (removed oldMeta newMeta) ∪ paths (added oldMeta newMeta)
      ∪ paths (questionsModified oldMeta newMeta)
      ∪ paths (contentOnly oldMeta newMeta changedFiles)
      ∪ paths (unchanged oldMeta newMeta changedFiles).
Proof.
  rewrite !elem_of_union, <- !in_paths_files. intros Hp.
  destruct (in_dec String.string_dec p (map file newMeta)) as [Hn|Hn].
  - apply in_map_iff in Hn as (e & <- & He).
    destruct (in_dec String.string_dec (file e) (map file oldMeta)) as [Ho|Ho].
    + destruct (questionsDiffer oldMeta e) eqn:Hd.
      * left; left; right. apply in_map. by apply in_questionsModified.
      * destruct (decide (file e ∈ changedFiles)) as [Hc|Hc].
        -- left; right. apply in_map. apply in_contentOnly.
           repeat split; try done. rewrite kept_handled; [congruence|done..].
        -- right. apply in_map. by apply in_unchanged.
    + left; left; left; right. apply in_map. by apply in_added.
  - destruct Hp as [Hp|Hp]; [|done].
    apply in_map_iff in Hp as (e & <- & He).
    left; left; left; left. apply in_map. by apply in_removed.
Qed.

Lemma classes_sound p :
  p ∈ paths (removed oldMeta newMeta) ∪ paths (added oldMeta newMeta)
      ∪ paths (questionsModified oldMeta newMeta)
      ∪ paths (contentOnly oldMeta newMeta changedFiles)
      ∪ paths (unchanged oldMeta newMeta changedFiles) ->
  p ∈ paths oldMeta ∪ paths newMeta.
Proof.
  rewrite !elem_of_union, !elem_of_paths.
  intros [[[[(e & He & <-)|(e & He & <-)]|(e & He & <-)]|(e & He & <-)]|(e & He & <-)].
  - apply in_removed in He as [? _]. eauto.
  - apply in_added in He as [? _]. eauto.
  - apply in_questionsModified in He as [[? _] _]. eauto.
  - apply in_contentOnly in He as [[? _] _]. eauto.
  - apply in_unchanged in He as [[? _] _]. eauto.
Qed.

(** What membership in each class says about a path. *)
Lemma removed_path p :
  p ∈ paths (removed oldMeta newMeta) -> ~ In p (map file newMeta).
Proof. rewrite elem_of_paths. intros (e & He & <-). by apply in_removed in He as [_ ?]. Qed.

Lemma added_path p :
  p ∈ paths (added oldMeta newMeta) ->
  In p (map file newMeta) /\ ~ In p (map file oldMeta).
Proof.
  rewrite elem_of_paths. intros (e & He & <-). apply in_added in He as [? ?].
  split; [by apply in_map|done].
Qed.

Lemma modified_path p :
  p ∈ paths (questionsModified oldMeta newMeta) ->
  exists e, In e newMeta /\ file e = p /\ In p (map file oldMeta)
            /\ questionsDiffer oldMeta e = true.
Proof.
  rewrite elem_of_paths. intros (e & He & <-).
  apply in_questionsModified in He as [[? ?] ?]. eauto 10.
Qed.

Lemma contentOnly_path p :
  p ∈ paths (contentOnly oldMeta newMeta changedFiles) ->
  exists e, In e newMeta /\ file e = p /\ In p (map file oldMeta)
            /\ questionsDiffer oldMeta e = false /\ p ∈ changedFiles.
Proof.
  rewrite elem_of_paths. intros (e & He & <-).
  apply in_contentOnly in He as [[? ?] [Hh ?]]. exists e. repeat split; try done.
  rewrite kept_handled in Hh by done. by destruct (questionsDiffer oldMeta e).
Qed.

Lemma unchanged_path p :
  p ∈ paths (unchanged oldMeta newMeta changedFiles) ->
  exists e, In e newMeta /\ file e = p /\ In p (map file oldMeta)
            /\ questionsDiffer oldMeta e = false /\ (p ∉ changedFiles).
Proof.
  rewrite elem_of_paths. intros (e & He & <-).
  apply in_unchanged in He as [[? ?] [? ?]]. eauto 10.
Qed.

Lemma classes_disjoint :
  pairwise_disjoint
    [paths (removed oldMeta newMeta); paths (added oldMeta newMeta);
     paths (questionsModified oldMeta newMeta);
     paths (contentOnly oldMeta newMeta changedFiles);
     paths (unchanged oldMeta newMeta changedFiles)].
Proof.
  assert (Hsame : forall e e' p, In e newMeta -> file e = p -> In e' newMeta ->
                    file e' = p -> e = e').
  { intros e e' p He Hf He' Hf'. apply new_entry_unique; congruence. }
  intros i j X Y Hij Hi Hj. apply elem_of_disjoint. intros p HX HY.
  destruct i as [|[|[|[|[|i]]]]]; simplify_eq/=;
    destruct j as [|[|[|[|[|j]]]]]; simplify_eq/=;
    repeat match goal with
      | H : _ ∈ paths (removed _ _) |- _ => apply removed_path in H
      | H : _ ∈ paths (added _ _) |- _ => apply added_path in H as [? ?]
      | H : _ ∈ paths (questionsModified _ _) |- _ =>
          apply modified_path in H as (? & ? & ? & ? & ?)
      | H : _ ∈ paths (contentOnly _ _ _) |- _ =>
          apply contentOnly_path in H as (? & ? & ? & ? & ? & ?)
      | H : _ ∈ paths (unchanged _ _ _) |- _ =>
          apply unchanged_path in H as (? & ? & ? & ? & ? & ?)
      end;
    try done;
    try (match goal with
         | H : ~ In ?p (map file newMeta), H1 : In ?e newMeta, H2 : file ?e = ?p |- _ =>
             destruct H; rewrite <- H2; by apply in_map
         end);
    match goal with
    | H1 : In ?e newMeta, H2 : file ?e = ?p, H3 : In ?e' newMeta, H4 : file ?e' = ?p |- _ =>
        pose proof (Hsame e e' p H1 H2 H3 H4); subst; congruence
    end.
Qed.
End Partition.

(** C2: for manifests whose paths are unique, the paths of the five
    classes removed, added, linksModified, contentOnly and unchanged
    together are the paths of the old and the new manifest, the classes
    are pairwise disjoint, and an added entry whose content changed is
    in no other class. *)
Theorem diff_is_a_partition
    (oldMeta newMeta : list Meta.MetaEntry) (changedFiles : gset string) :
  NoDup (map Meta.file newMeta) ->
  Plan.paths (Incremental.removed oldMeta newMeta)
  ∪ Plan.paths (Incremental.added oldMeta newMeta)
  ∪ Plan.paths (Incremental.questionsModified oldMeta newMeta)
  ∪ Plan.paths (Incremental.contentOnly oldMeta newMeta changedFiles)
  ∪ Plan.paths (Incremental.unchanged oldMeta newMeta changedFiles)
  = Plan.paths oldMeta ∪ Plan.paths newMeta
  /\ Plan.pairwise_disjoint
       [Plan.paths (Incremental.removed oldMeta newMeta);
        Plan.paths (Incremental.added oldMeta newMeta);
        Plan.paths (Incremental.questionsModified oldMeta newMeta);
        Plan.paths (Incremental.contentOnly oldMeta newMeta changedFiles);
        Plan.paths (Incremental.unchanged oldMeta newMeta changedFiles)]
  /\ forall entry, In entry (Incremental.added oldMeta newMeta) ->
       Meta.file entry ∈ changedFiles ->
       Meta.file entry ∉ Plan.paths (Incremental.removed oldMeta newMeta)
                         ∪ Plan.paths (Incremental.questionsModified oldMeta newMeta)
                         ∪ Plan.paths (Incremental.contentOnly oldMeta newMeta changedFiles)
                         ∪ Plan.paths (Incremental.unchanged oldMeta newMeta changedFiles).
Proof.
  intros Hnd. split; [|split].
  - apply set_eq. intros p. split.
    + by apply classes_sound.
    + by apply classes_cover.
  - by apply classes_disjoint.
  - intros entry Hin _.
    pose proof (classes_disjoint oldMeta newMeta changedFiles Hnd) as Hd.
    assert (Ha : Meta.file entry ∈ Plan.paths (Incremental.added oldMeta newMeta)).
    { apply elem_of_paths. eauto. }
    rewrite !elem_of_union.
    intros [[[H|H]|H]|H].
    + by apply (Hd 0 1 _ _ ltac:(done) eq_refl eq_refl (Meta.file entry)).
    + by apply (Hd 1 2 _ _ ltac:(done) eq_refl eq_refl (Meta.file entry)).
    + by apply (Hd 1 3 _ _ ltac:(done) eq_refl eq_refl (Meta.file entry)).
    + by apply (Hd 1 4 _ _ ltac:(done) eq_refl eq_refl (Meta.file entry)).
Qed.

Lemma diff_is_a_partition_witness :
  NoDup (map Meta.file Scenarios.newAB)
  /\ Plan.paths (Incremental.removed Scenarios.oldAB Scenarios.newAB)
     ∪ Plan.paths (Incremental.added Scenarios.oldAB Scenarios.newAB)
     ∪ Plan.paths (Incremental.questionsModified Scenarios.oldAB Scenarios.newAB)
     ∪ Plan.paths (Incremental.contentOnly Scenarios.oldAB Scenarios.newAB {["b.md"]})
     ∪ Plan.paths (Incremental.unchanged Scenarios.oldAB Scenarios.newAB {["b.md"]})
     = Plan.paths Scenarios.oldAB ∪ Plan.paths Scenarios.newAB.
Proof.
  assert (Hnd : NoDup (map Meta.file Scenarios.newAB)).
  { apply (bool_decide_unpack _). vm_compute. exact I. }
  split; [exact Hnd|].
  exact (proj1 (diff_is_a_partition Scenarios.oldAB Scenarios.newAB {["b.md"]} Hnd)).
Defined.

(** Without unique paths the classes can overlap: the path of a
    duplicated entry is both linksModified and unchanged. *)
Example duplicate_paths_overlap :
  let old := [Meta.Entry "c.md" ["Q1"]] in
  let new := [Meta.Entry "c.md" ["Q1"]; Meta.Entry "c.md" ["Q2"]] in
  "c.md" ∈ Plan.paths (Incremental.questionsModified old new)
  /\ "c.md" ∈ Plan.paths (Incremental.unchanged old new ∅).
Proof. split; apply (bool_decide_unpack _); vm_compute; exact I. Qed.


(** ** The ordered full rebuild: the content directory *)

Lemma endsWith_relPath (rel name suffix : string) :
  Js.endsWith name suffix = true -> Js.endsWith (Fs.relPath rel name) suffix = true.
Proof.
  unfold Js.endsWith. rewrite !bool_decide_eq_true. intros H.
  destruct rel as [|c rel]; [done|].
  unfold Fs.relPath. rewrite !list_ascii_app. by do 2 apply suffix_app_r.
Qed.

Lemma md_is_not_svg (p : string) :
  Js.endsWith p ".md" = true -> Js.endsWith p ".svg" = true -> False.
Proof.
  unfold Js.endsWith. rewrite !bool_decide_eq_true.
  intros [k1 H1] [k2 H2]. rewrite H1 in H2.
  apply (f_equal (@rev ascii)) in H2. rewrite !rev_app_distr in H2. simpl in H2.
  discriminate.
Qed.

Section ReadDir.
Import Fs InsertFull OrderedPlan.

Lemma readEntry_loaded :
  forall entry rel files, all_loaded files -> all_loaded (readEntry rel files entry).
Proof.
  fix IH 1. intros [name content|name entries] rel files Hfiles; simpl.
  - destruct (Js.endsWith name ".md") eqn:Emd; [|destruct (Js.endsWith name ".svg") eqn:Esvg].
    + intros p c [[<- <-]|[_ Hp]]%lookup_insert_Some; [|by apply Hfiles].
      pose proof (endsWith_relPath rel name _ Emd) as Hmd.
      split; [by left|]. intros Hsvg. destruct (md_is_not_svg _ Hmd Hsvg).
    + intros p c [[<- <-]|[_ Hp]]%lookup_insert_Some; [|by apply Hfiles].
      split; [|done]. right. by apply endsWith_relPath.
    + done.
  - assert (Hsub : forall files', all_loaded files' ->
              all_loaded (fold_left (readEntry (relPath rel name)) entries files')).
    { induction entries as [|e es IHes]; intros files' H'; simpl; [done|].
      apply IHes. by apply IH. }
    intros p c [Hp|[_ Hp]]%lookup_union_Some_raw; [|by apply Hfiles].
    revert p c Hp. apply Hsub. intros p c. by rewrite lookup_empty.
Qed.

Lemma readExplanationsDir_loaded (entries : list dirent) :
  all_loaded (readExplanationsDir entries).
Proof.
  unfold readExplanationsDir.
  assert (H : forall files, all_loaded files ->
                all_loaded (fold_left (readEntry EmptyString) entries files)).
  { induction entries as [|e es IHes]; intros files H'; simpl; [done|].
    apply IHes. by apply readEntry_loaded. }
  apply H. intros p c. by rewrite lookup_empty.
Qed.
End ReadDir.

(** ** The ordered full rebuild: the run *)

Lemma fold_left_preserves {A B} (f : A -> B -> A) (P : A -> Prop) :
  (forall a b, P a -> P (f a b)) -> forall l a, P a -> P (fold_left f l a).
Proof.
  intros Hstep l. induction l as [|b l IH]; intros a Ha; simpl; [done|].
  apply IH. by apply Hstep.
Qed.

Section OrderedRun.
Import Store Fs InsertFull OrderedPlan.
Variables (files : gmap string string) (uuidv4 : Uuid.rng).

Lemma upsertFile_trace st file :
  st_trace (upsertFile files st file) = st_trace st ++ upsertFileEvents files file.
Proof. unfold upsertFile, upsertFileEvents. by destruct (truthy _). Qed.

Lemma upsertFile_db st file :
  st_db (upsertFile files st file)
  = run (sql_ops (upsertFileEvents files file)) (st_db st).
Proof. unfold upsertFile, upsertFileEvents. by destruct (truthy _). Qed.

(** One link of a question: the other tables stay, one row may be
    appended, and no explanation is upserted. *)
Lemma insertLink_tables q qid st item :
  let st' := insertLink files uuidv4 q qid st item in
  question_tbl (st_db st') = question_tbl (st_db st)
  /\ explanation_tbl (st_db st') = explanation_tbl (st_db st)
  /\ map erase (link_tbl (st_db st'))
     = map erase (link_tbl (st_db st)) ++ row_of files qid item.
Proof.
  destruct item as [order file]. unfold insertLink, row_of. simpl.
  destruct (truthy _); simpl; [|by rewrite app_nil_r].
  by rewrite map_app.
Qed.

Lemma insertLink_no_upsert q qid st item ev :
  In ev (st_trace (insertLink files uuidv4 q qid st item)) ->
  is_upsert ev = true -> In ev (st_trace st).
Proof.
  destruct item as [order file]. unfold insertLink.
  destruct (truthy _); simpl; rewrite in_app_iff; intros [?|[<-|[]]]; done.
Qed.

Lemma insertLinks_tables q qid items st :
  let st' := fold_left (insertLink files uuidv4 q qid) items st in
  question_tbl (st_db st') = question_tbl (st_db st)
  /\ explanation_tbl (st_db st') = explanation_tbl (st_db st)
  /\ map erase (link_tbl (st_db st'))
     = map erase (link_tbl (st_db st)) ++ flat_map (row_of files qid) items.
Proof.
  revert st. induction items as [|item items IH]; intros st; simpl.
  - by rewrite app_nil_r.
  - destruct (IH (insertLink files uuidv4 q qid st item)) as (Hq & He & Hl).
    destruct (insertLink_tables q qid st item) as (Hq' & He' & Hl').
    simpl in *. rewrite Hq, He, Hl, Hq', He', Hl'. by rewrite <- app_assoc.
Qed.

Lemma erase_filter (qid : string) (l : list link) :
  map erase (List.filter (fun l => negb (String.eqb (l_questionId l) qid)) l)
  = List.filter (fun r : row => negb (String.eqb r.1.1 qid)) (map erase l).
Proof.
  induction l as [|x l IH]; simpl; [done|].
  destruct (negb _); simpl; by rewrite IH.
Qed.

Lemma linkQuestion_tables st qf :
  let st' := linkQuestion files uuidv4 st qf in
  question_tbl (st_db st') = question_tbl (st_db st)
  /\ explanation_tbl (st_db st') = explanation_tbl (st_db st)
  /\ map erase (link_tbl (st_db st'))
     = replaceRows files (st_db st) (map erase (link_tbl (st_db st))) qf.
Proof.
  destruct qf as [q fl]. unfold linkQuestion, replaceRows, target. simpl.
  destruct (length fl =? 0)%nat; [done|].
  destruct (select_question q (st_db st)) as [|qid rest]; [done|].
  destruct (insertLinks_tables q qid (combine (seq 0 (length fl)) fl)
              (issue q (DeleteLinks qid) st)) as (Hq & He & Hl).
  simpl in *. rewrite Hq, He, Hl. by rewrite erase_filter.
Qed.

Lemma linkQuestion_no_upsert st qf ev :
  In ev (st_trace (linkQuestion files uuidv4 st qf)) ->
  is_upsert ev = true -> In ev (st_trace st).
Proof.
  destruct qf as [q fl]. unfold linkQuestion.
  destruct (length fl =? 0)%nat; [done|].
  destruct (select_question q (st_db st)) as [|qid rest].
  - simpl. rewrite in_app_iff. by intros [?|[<-|[]]].
  - intros Hin Hup.
    assert (H : In ev (st_trace (issue q (DeleteLinks qid) st))).
    { revert Hin. generalize (issue q (DeleteLinks qid) st).
      induction (combine (seq 0 (length fl)) fl) as [|item items IH]; intros s; simpl; [done|].
      intros Hin. apply IH in Hin. by apply insertLink_no_upsert in Hin. }
    simpl in H. apply in_app_iff in H as [?|[<-|[]]]; done.
Qed.

Lemma target_ext (d d' : db) qf :
  question_tbl d = question_tbl d' -> target d qf = target d' qf.
Proof. intros H. unfold target, select_question. by rewrite H. Qed.

Lemma replaceRows_ext (d d' : db) t qf :
  question_tbl d = question_tbl d' -> replaceRows files d t qf = replaceRows files d' t qf.
Proof. intros H. unfold replaceRows. by rewrite (target_ext d d' qf H). Qed.

Lemma replaceAll_ext (d d' : db) (meta : manifest) t :
  question_tbl d = question_tbl d' ->
  fold_left (replaceRows files d) meta t = fold_left (replaceRows files d') meta t.
Proof.
  intros H. revert t. induction meta as [|qf meta IH]; intros t; simpl; [done|].
  by rewrite (replaceRows_ext d d' t qf H), IH.
Qed.

Lemma linkQuestions_tables (meta : manifest) st :
  let st' := fold_left (linkQuestion files uuidv4) meta st in
  question_tbl (st_db st') = question_tbl (st_db st)
  /\ explanation_tbl (st_db st') = explanation_tbl (st_db st)
  /\ map erase (link_tbl (st_db st'))
     = fold_left (replaceRows files (st_db st)) meta (map erase (link_tbl (st_db st))).
Proof.
  revert st. induction meta as [|qf meta IH]; intros st; simpl; [done|].
  destruct (IH (linkQuestion files uuidv4 st qf)) as (Hq & He & Hl).
  destruct (linkQuestion_tables st qf) as (Hq' & He' & Hl').
  simpl in *. rewrite Hq, He, Hl, Hq', He', Hl'. repeat split.
  by apply replaceAll_ext.
Qed.

Lemma linkQuestions_no_upsert (meta : manifest) st ev :
  In ev (st_trace (fold_left (linkQuestion files uuidv4) meta st)) ->
  is_upsert ev = true -> In ev (st_trace st).
Proof.
  revert st. induction meta as [|qf meta IH]; intros st; simpl; [done|].
  intros Hin Hup. apply IH in Hin; [|done]. by apply linkQuestion_no_upsert in Hin.
Qed.
End OrderedRun.

Lemma truthy_Some (o : option string) c : Fs.truthy o = Some c -> o = Some c /\ c <> EmptyString.
Proof. destruct o as [[|a s]|]; simpl; intros [= <-]; done. Qed.

Section OrderedMain.
Import Store Fs InsertFull OrderedPlan.

Lemma upserts_keep_tables (files : gmap string string) (l : list string) (d : db) :
  let d' := run (sql_ops (flat_map (upsertFileEvents files) l)) d in
  question_tbl d' = question_tbl d /\ link_tbl d' = link_tbl d.
Proof.
  revert d. induction l as [|f l IH]; intros d; simpl; [done|].
  rewrite sql_ops_app, run_app.
  destruct (IH (run (sql_ops (upsertFileEvents files f)) d)) as [Hq Hl].
  simpl in *. rewrite Hq, Hl. unfold upsertFileEvents. by destruct (truthy _).
Qed.

Lemma main_tables (meta : manifest) (tree : list dirent) (uuidv4 : Uuid.rng) (d : db) :
  let files := readExplanationsDir tree in
  let d' := st_db (main meta tree uuidv4 d) in
  question_tbl d' = question_tbl d
  /\ explanation_tbl d'
     = explanation_tbl
         (run (sql_ops (flat_map (upsertFileEvents files) (uniqueFiles meta))) d)
  /\ map erase (link_tbl d') = fold_left (replaceRows files d) meta (map erase (link_tbl d)).
Proof.
  intros files d'. subst d'. unfold main. fold files.
  set (st1 := fold_left (upsertFile files) (uniqueFiles meta) _).
  destruct (linkQuestions_tables files uuidv4 meta st1) as (Hq & He & Hl).
  simpl in Hq, He, Hl. rewrite Hq, He, Hl.
  assert (Hdb : st_db st1
                = run (sql_ops (flat_map (upsertFileEvents files) (uniqueFiles meta))) d).
  { subst st1. rewrite (fold_db _ _ (upsertFile_db files)). simpl.
    by rewrite sql_ops_flat_map. }
  destruct (upserts_keep_tables files (uniqueFiles meta) d) as [Hq1 Hl1].
  simpl in Hq1, Hl1. rewrite Hdb. rewrite Hq1, Hl1. repeat split.
  apply replaceAll_ext. by rewrite Hq1.
Qed.

Lemma main_upserts (meta : manifest) (tree : list dirent) (uuidv4 : Uuid.rng) (d : db) ev :
  In ev (st_trace (main meta tree uuidv4 d)) -> is_upsert ev = true ->
  exists file, In file (uniqueFiles meta)
               /\ In ev (upsertFileEvents (readExplanationsDir tree) file).
Proof.
  unfold main. intros Hin Hup. apply linkQuestions_no_upsert in Hin; [|done].
  rewrite (fold_trace _ _ (upsertFile_trace (readExplanationsDir tree))) in Hin.
  simpl in Hin. by apply in_flat_map in Hin.
Qed.
End OrderedMain.


(** ** Overwriting statements can be replayed *)

Section Replay.
Import Store.

Lemma link_row_same q e e' r : link_row q e' (link_row q e r) = link_row q e' r.
Proof. unfold link_row. repeat (case_decide; simpl in *); done. Qed.

Lemma link_row_comm q q' e e' r :
  q <> q' -> link_row q e (link_row q' e' r) = link_row q' e' (link_row q e r).
Proof. intros Hne. unfold link_row. repeat (case_decide; simpl in *); congruence. Qed.

Lemma assignments_absorb_or_commute a b d :
  is_assignment a = true -> is_assignment b = true ->
  exec b (exec a d) = exec b d \/ exec a (exec b d) = exec b (exec a d).
Proof.
  destruct a as [| |e c|q e| |], b as [| |e' c'|q' e'| |]; try done; intros _ _; simpl.
  - destruct (decide (e = e')) as [->|Hne].
    + left. by rewrite insert_insert_eq.
    + right. f_equal. by apply insert_insert_ne.
  - by right.
  - by right.
  - destruct (decide (q = q')) as [->|Hne].
    + left. f_equal. rewrite map_map. apply map_ext. intros r. apply link_row_same.
    + right. f_equal. rewrite !map_map. apply map_ext. intros r. by apply link_row_comm.
Qed.

Lemma assignment_idempotent a d :
  is_assignment a = true -> exec a (exec a d) = exec a d.
Proof.
  destruct a as [| |e c|q e| |]; try done; intros _; simpl.
  - by rewrite insert_insert_eq.
  - f_equal. rewrite map_map. apply map_ext. intros r. apply link_row_same.
Qed.

Lemma run_absorb (l : list op) (a : op) (t : db) :
  Forall (fun o => is_assignment o = true) l -> is_assignment a = true ->
  exec a (run l (exec a t)) = exec a (run l t).
Proof.
  intros Hl Ha. revert t. induction Hl as [|b l Hb Hl IH]; intros t; simpl.
  { by apply assignment_idempotent. }
  destruct (assignments_absorb_or_commute a b t Ha Hb) as [E|E].
  - by rewrite E.
  - rewrite <- E. apply IH.
Qed.

Lemma run_idempotent (l : list op) (d : db) :
  Forall (fun o => is_assignment o = true) l -> run l (run l d) = run l d.
Proof.
  induction l as [|a l IH] using rev_ind; intros Hl; [done|].
  apply Forall_app in Hl as [Hl Ha]. apply Forall_cons_1 in Ha as [Ha _].
  rewrite !run_app. simpl. rewrite run_absorb by done. by rewrite IH.
Qed.

Lemma exec_explanation_ext o (x y : db) :
  explanation_tbl x = explanation_tbl y ->
  explanation_tbl (exec o x) = explanation_tbl (exec o y).
Proof. intros H. destruct o; simpl; by rewrite ?H. Qed.

Lemma run_explanation_ext l (x y : db) :
  explanation_tbl x = explanation_tbl y ->
  explanation_tbl (run l x) = explanation_tbl (run l y).
Proof.
  revert x y. induction l as [|o l IH]; intros x y H; simpl; [done|].
  apply IH. by apply exec_explanation_ext.
Qed.
End Replay.

(** ** The single-link full rebuild issues statements fixed by its inputs *)

Section SyncFullRun.
Import Store Meta Fs SyncFull SyncPlan.
Variable files : gmap string string.

Lemma sync_linkQuestion_db f e st q :
  st_db (linkQuestion f e st q) = run [SetQuestionLink q e] (st_db st).
Proof. unfold linkQuestion. by destruct (0 <? _)%nat. Qed.

Lemma processEntry_db st entry :
  st_db (processEntry files st entry) = run (entryOps files entry) (st_db st).
Proof.
  unfold processEntry, entryOps. destruct (truthy _); [|done].
  by rewrite (fold_db _ _ (sync_linkQuestion_db _ _)), flat_map_singleton.
Qed.

Lemma entryOps_assign entry :
  Forall (fun o => is_assignment o = true) (entryOps files entry).
Proof.
  unfold entryOps. destruct (truthy _); [|done].
  constructor; [done|]. apply Forall_forall. intros o Ho.
  by apply list_elem_of_In, in_map_iff in Ho as (q & <- & _).
Qed.

Lemma sync_main_db (meta : list MetaEntry) (st : state stats) :
  st_db (fold_left (processEntry files) meta st)
  = run (flat_map (entryOps files) meta) (st_db st).
Proof. apply (fold_db _ _ processEntry_db). Qed.

Lemma sync_ops_assign (meta : list MetaEntry) :
  Forall (fun o => is_assignment o = true) (flat_map (entryOps files) meta).
Proof.
  induction meta as [|e meta IH]; simpl; [done|].
  apply Forall_app. split; [apply entryOps_assign|done].
Qed.
End SyncFullRun.

(** ** Replacing the links of the manifest's questions *)

Lemma filter_none {A} (p : A -> bool) (l : list A) :
  (forall x, In x l -> p x = false) -> List.filter p l = [].
Proof.
  induction l as [|x l IH]; simpl; intros H; [done|].
  rewrite (H x) by auto. apply IH. auto.
Qed.

Lemma filter_all {A} (p : A -> bool) (l : list A) :
  (forall x, In x l -> p x = true) -> List.filter p l = l.
Proof.
  induction l as [|x l IH]; simpl; intros H; [done|].
  rewrite (H x) by auto. f_equal. apply IH. auto.
Qed.

Lemma filter_filter {A} (p q : A -> bool) (l : list A) :
  List.filter p (List.filter q l) = List.filter (fun x => q x && p x) l.
Proof.
  induction l as [|x l IH]; simpl; [done|].
  destruct (q x); simpl; [destruct (p x)|]; by rewrite IH.
Qed.

Section Replace.
Import Store Fs InsertFull OrderedPlan.
Variables (files : gmap string string) (d : db).

Lemma rowsOf_target qid fl r : In r (rowsOf files qid fl) -> r.1.1 = qid.
Proof.
  unfold rowsOf. intros (item & _ & Hr)%in_flat_map. unfold row_of in Hr.
  destruct (truthy _); [|done]. by destruct Hr as [<-|[]].
Qed.

(** The links of the questions the manifest replaces are rebuilt from
    nothing; all other rows stay where they are. *)
Lemma replaceAll_closed (meta : manifest) (t : list row) :
  fold_left (replaceRows files d) meta t
  = List.filter (fun r => negb (mentions (targets d meta) r)) t
    ++ fold_left (replaceRows files d) meta [].
Proof.
  revert t. induction meta as [|qf meta IH]; intros t; simpl.
  - rewrite app_nil_r. symmetry. by apply filter_all.
  - unfold replaceRows at 2 4, targets. simpl. fold (targets d meta).
    destruct (target d qf) as [qid|]; simpl.
    + rewrite IH. rewrite (IH (rowsOf files qid qf.2)).
      rewrite List.filter_app, filter_filter, <- app_assoc. f_equal.
      apply filter_ext. intros r. unfold mentions. simpl.
      by rewrite negb_orb.
    + apply IH.
Qed.

Lemma replaceAll_nil_mentions (meta : manifest) r :
  In r (fold_left (replaceRows files d) meta []) -> mentions (targets d meta) r = true.
Proof.
  induction meta as [|qf meta IH]; simpl; [done|].
  unfold replaceRows at 2, targets. simpl. fold (targets d meta).
  destruct (target d qf) as [qid|]; simpl; [|done].
  rewrite replaceAll_closed, in_app_iff, filter_In. unfold mentions in *. simpl.
  intros [[Hr _]|Hr].
  - apply rowsOf_target in Hr. apply orb_true_iff. left. by apply String.eqb_eq.
  - rewrite (IH Hr). apply orb_true_r.
Qed.

Lemma replaceAll_idempotent (meta : manifest) (t : list row) :
  fold_left (replaceRows files d) meta (fold_left (replaceRows files d) meta t)
  = fold_left (replaceRows files d) meta t.
Proof.
  rewrite (replaceAll_closed meta (fold_left _ meta t)).
  rewrite (replaceAll_closed meta t) at 1.
  rewrite List.filter_app, filter_filter.
  rewrite (filter_none _ (fold_left (replaceRows files d) meta [])).
  - rewrite app_nil_r, (replaceAll_closed meta t). f_equal.
    apply filter_ext. intros r. by destruct (negb _).
  - intros r Hr. by rewrite (replaceAll_nil_mentions meta r Hr).
Qed.

Lemma mentions_false ts (r : row) : ~ In r.1.1 ts -> mentions ts r = false.
Proof.
  intros Hn. unfold mentions. apply not_true_is_false. intros H.
  apply existsb_exists in H as (x & Hx & He%String.eqb_eq). by rewrite He in Hn.
Qed.

(** A question the rest of the manifest does not resolve to keeps its rows. *)
Lemma replaceAll_other (meta : manifest) qid (t : list row) :
  ~ In qid (targets d meta) ->
  List.filter (fun r => String.eqb r.1.1 qid) (fold_left (replaceRows files d) meta t)
  = List.filter (fun r => String.eqb r.1.1 qid) t.
Proof.
  intros Hn. rewrite replaceAll_closed, List.filter_app, filter_filter.
  rewrite (filter_none _ (fold_left (replaceRows files d) meta [])).
  - rewrite app_nil_r. apply filter_ext_in. intros r _.
    destruct (String.eqb_spec r.1.1 qid) as [E|E]; [|apply andb_false_r].
    rewrite mentions_false; [done|]. by rewrite E.
  - intros r Hr. apply replaceAll_nil_mentions in Hr.
    apply not_true_is_false. intros He%String.eqb_eq.
    unfold mentions in Hr. apply existsb_exists in Hr as (x & Hx & Hx'%String.eqb_eq).
    congruence.
Qed.

Lemma replaceAll_at (m1 m2 : manifest) qf qid (t : list row) :
  target d qf = Some qid -> ~ In qid (targets d m2) ->
  List.filter (fun r => String.eqb r.1.1 qid)
              (fold_left (replaceRows files d) (m1 ++ qf :: m2) t)
  = rowsOf files qid qf.2.
Proof.
  intros Ht Hn. rewrite fold_left_app. simpl. rewrite replaceAll_other by done.
  unfold replaceRows at 1. rewrite Ht, List.filter_app, filter_filter.
  rewrite filter_none, filter_all; [done| |].
  - intros r Hr. apply rowsOf_target in Hr. rewrite Hr. apply String.eqb_refl.
  - intros r _. by destruct (String.eqb r.1.1 qid).
Qed.
End Replace.

(** ** C4: running a full rebuild twice *)

(** C4, as stated, fails for the ordered variant: every run deletes the
    links of a question and inserts them again under fresh random row
    ids, so the store after the second run differs from the store after
    the first. *)
Lemma ordered_resync_renews_link_ids :
  let d1 := Store.st_db
              (InsertFull.main Scenarios.orderedMeta Scenarios.tree Scenarios.rngA
                               Scenarios.db0) in
  let d2 := Store.st_db
              (InsertFull.main Scenarios.orderedMeta Scenarios.tree Scenarios.rngB d1) in
  d2 <> d1.
Proof.
  intros d1 d2 Heq. apply (f_equal Store.link_tbl) in Heq.
  apply (f_equal (map Store.l_id)) in Heq. vm_compute in Heq. discriminate.
Qed.

(** C4 (amended): the single-link full rebuild is idempotent: a second
    run leaves the store exactly as the first run left it.  The ordered
    full rebuild is idempotent up to the random [id] column of the join
    table: after a second run, with whatever random ids, the question
    and explanation tables are the same and the join table has the same
    rows (question, explanation, order) in the same number, no link being
    duplicated. *)
Theorem full_resync_is_idempotent :
  (forall (meta : list Meta.MetaEntry) (tree : list Fs.dirent) (d : Store.db),
     let d1 := Store.st_db (SyncFull.main meta tree d) in
     Store.st_db (SyncFull.main meta tree d1) = d1)
  /\ (forall (meta : InsertFull.manifest) (tree : list Fs.dirent)
        (rng1 rng2 : Uuid.rng) (d : Store.db),
        let d1 := Store.st_db (InsertFull.main meta tree rng1 d) in
        let d2 := Store.st_db (InsertFull.main meta tree rng2 d1) in
        Store.question_tbl d2 = Store.question_tbl d1
        /\ Store.explanation_tbl d2 = Store.explanation_tbl d1
        /\ map OrderedPlan.erase (Store.link_tbl d2)
           = map OrderedPlan.erase (Store.link_tbl d1)
        /\ length (Store.link_tbl d2) = length (Store.link_tbl d1)).
Proof.
  split.
  - intros meta tree d d1. subst d1. unfold SyncFull.main.
    rewrite !sync_main_db. simpl. apply run_idempotent, sync_ops_assign.
  - intros meta tree rng1 rng2 d d1 d2.
    destruct (main_tables meta tree rng1 d) as (Hq1 & He1 & Hl1).
    destruct (main_tables meta tree rng2 d1) as (Hq2 & He2 & Hl2).
    fold d1 in Hq1, He1, Hl1. fold d2 in Hq2, He2, Hl2.
    assert (Hl : map OrderedPlan.erase (Store.link_tbl d2)
                 = map OrderedPlan.erase (Store.link_tbl d1)).
    { rewrite Hl2, Hl1.
      rewrite (replaceAll_ext _ d1 d meta _ Hq1). apply replaceAll_idempotent. }
    split; [done|]. split; [|split; [done|]].
    + rewrite He2, He1.
      set (U := Store.sql_ops _).
      rewrite (run_explanation_ext U d1 (Store.run U d) He1).
      rewrite run_idempotent; [done|].
      subst U. generalize (InsertFull.uniqueFiles meta). intros l.
      induction l as [|f l IH]; simpl; [constructor|].
      rewrite sql_ops_app. apply Forall_app. split; [|done].
      unfold OrderedPlan.upsertFileEvents. destruct (Fs.truthy _); simpl; repeat constructor.
    + by rewrite <- (length_map OrderedPlan.erase), Hl, length_map.
Qed.

(** ** C9: the order values of the stored links *)

Lemma NoDup_map_inj {A B} (f : A -> B) (l : list A) x y :
  NoDup (map f l) -> In x l -> In y l -> f x = f y -> x = y.
Proof.
  induction l as [|a l IH]; simpl; [done|].
  intros [Ha Hnd]%NoDup_cons. rewrite list_elem_of_In in Ha.
  intros [->|Hx] [->|Hy] Hf; auto.
  - destruct Ha. rewrite Hf. by apply in_map.
  - destruct Ha. rewrite <- Hf. by apply in_map.
Qed.

Section StoredOrder.
Import Store Fs InsertFull OrderedPlan.
Variables (files : gmap string string) (d : db).

Lemma select_question_row q qid rest :
  select_question q d = qid :: rest ->
  exists r, In r (question_tbl d) /\ q_id r = qid /\ q_externalId r = q.
Proof.
  unfold select_question. intros H.
  assert (Hin : In qid (map q_id (List.filter (fun r => String.eqb (q_externalId r) q)
                                              (question_tbl d))))
    by (rewrite H; by left).
  apply in_map_iff in Hin as (r & Hid & Hr). apply filter_In in Hr as [Hr He].
  apply String.eqb_eq in He. eauto.
Qed.

(** With unique row ids, two manifest keys resolve to two question rows. *)
Lemma targets_other (meta : manifest) q qid rest :
  NoDup (map q_id (question_tbl d)) ->
  select_question q d = qid :: rest ->
  ~ In q (map fst meta) -> ~ In qid (targets d meta).
Proof.
  intros Hids Hsel Hq. unfold targets. rewrite in_flat_map.
  intros ([q' fl'] & Hin & Ht). unfold target in Ht. simpl in Ht.
  destruct (length fl' =? 0)%nat; [done|].
  destruct (select_question q' d) as [|qid' rest'] eqn:Hsel'; [done|].
  destruct Ht as [->|[]].
  apply select_question_row in Hsel as (r & Hr & Hid & He).
  apply select_question_row in Hsel' as (r' & Hr' & Hid' & He').
  assert (r = r') by (apply (NoDup_map_inj q_id (question_tbl d)); congruence).
  subst r'. destruct Hq. apply in_map_iff. exists (q', fl'). split; [|done].
  simpl. congruence.
Qed.

Lemma erase_links_of qid (l : list link) :
  map erase (List.filter (fun l => String.eqb (l_questionId l) qid) l)
  = List.filter (fun r : row => String.eqb r.1.1 qid) (map erase l).
Proof.
  induction l as [|x l IH]; simpl; [done|].
  destruct (String.eqb _ _); simpl; by rewrite IH.
Qed.

Lemma rowsOf_declared qid fl :
  map (fun r : row => (r.1.2, r.2)) (rowsOf files qid fl) = declared files fl.
Proof.
  unfold rowsOf, declared. generalize (combine (seq 0 (length fl)) fl). intros items.
  induction items as [|item items IH]; simpl; [done|].
  rewrite map_app, IH. f_equal. unfold row_of. by destruct (truthy _).
Qed.

(** The order values of a question are increasing indices of its list. *)
Lemma declared_orders_from a (fl : list string) :
  let orders :=
    map snd (flat_map (fun item : nat * string =>
                         match truthy (files !! item.2) with
                         | Some _ => [(generateExplanationId item.2, item.1)]
                         | None => []
                         end)
                      (combine (seq a (length fl)) fl)) in
  StronglySorted lt orders /\ Forall (fun o => a <= o) orders.
Proof.
  revert a. induction fl as [|f fl IH]; intros a; simpl.
  - split; constructor.
  - destruct (IH (S a)) as [Hs Hb]. simpl in Hs, Hb.
    destruct (truthy (files !! f)); simpl.
    + split.
      * constructor; [done|]. eapply Forall_impl; [exact Hb|]. simpl. lia.
      * constructor; [lia|]. eapply Forall_impl; [exact Hb|]. simpl. lia.
    + split; [done|]. eapply Forall_impl; [exact Hb|]. simpl. lia.
Qed.

Lemma declared_all_loaded_from a (fl : list string) :
  (forall f, In f fl -> truthy (files !! f) <> None) ->
  flat_map (fun item : nat * string =>
              match truthy (files !! item.2) with
              | Some _ => [(generateExplanationId item.2, item.1)]
              | None => []
              end)
           (combine (seq a (length fl)) fl)
  = combine (map generateExplanationId fl) (seq a (length fl)).
Proof.
  revert a. induction fl as [|f fl IH]; intros a Hall; simpl; [done|].
  destruct (truthy (files !! f)) eqn:E.
  - simpl. f_equal. apply IH. intros f' Hf'. apply Hall. by right.
  - destruct (Hall f); [by left|done].
Qed.
End StoredOrder.

(** C9, as stated, fails: a declared file that is not loaded is skipped
    but still counts in the order, so the stored order values have a gap
    and the stored sequence is not the declared one. *)
Lemma stored_order_has_gap :
  let d' := Store.st_db
              (InsertFull.main Scenarios.orderedMeta Scenarios.tree Scenarios.rngA
                               Scenarios.db0) in
  Store.select_question "Q1" Scenarios.db0 = ["1"]
  /\ map Store.l_order (OrderedPlan.links_of "1" d') = [0; 2]
  /\ map Store.l_explanationId (OrderedPlan.links_of "1" d')
     <> map InsertFull.generateExplanationId ["x.md"; "missing.md"; "sub/y.md"].
Proof.
  split; [reflexivity|]. split.
  - vm_compute. reflexivity.
  - vm_compute. discriminate.
Qed.

(** C9 (amended): in the ordered variant, for every question of the
    manifest that has a non-empty list of files and exists in the store
    (question row ids and manifest keys being unique), the links stored
    after the sync are, in table order, one per declared file that was
    loaded with non-empty content, each with the index of its file in the
    declared list as order value.  The order values are strictly
    increasing, hence without duplicates; when every declared file is
    loaded they are 0, 1, ..., n-1 and the stored explanations are
    exactly the declared sequence. *)
Theorem stored_order_is_declared_index
    (meta : InsertFull.manifest) (tree : list Fs.dirent) (uuidv4 : Uuid.rng)
    (d : Store.db) (q : string) (fl : list string) (qid : string) (rest : list string) :
  NoDup (map fst meta) ->
  NoDup (map Store.q_id (Store.question_tbl d)) ->
  In (q, fl) meta -> fl <> [] ->
  Store.select_question q d = qid :: rest ->
  let files := InsertFull.readExplanationsDir tree in
  let stored := OrderedPlan.links_of qid (Store.st_db (InsertFull.main meta tree uuidv4 d)) in
  map (fun l => (Store.l_explanationId l, Store.l_order l)) stored
  = OrderedPlan.declared files fl
  /\ StronglySorted lt (map Store.l_order stored)
  /\ ((forall f, In f fl -> Fs.truthy (files !! f) <> None) ->
      map Store.l_explanationId stored = map InsertFull.generateExplanationId fl
      /\ map Store.l_order stored = seq 0 (length fl)).
Proof.
  intros Hkeys Hids Hin Hne Hsel files stored.
  assert (Hstored : map (fun l => (Store.l_explanationId l, Store.l_order l)) stored
                    = OrderedPlan.declared files fl).
  { destruct (in_split _ _ Hin) as (m1 & m2 & ->).
    destruct (main_tables (m1 ++ (q, fl) :: m2) tree uuidv4 d) as (_ & _ & Hl).
    fold files in Hl.
    assert (Ht : OrderedPlan.target d (q, fl) = Some qid).
    { unfold OrderedPlan.target. simpl. rewrite Hsel.
      destruct fl; [done|]. done. }
    assert (Hn : ~ In qid (OrderedPlan.targets d m2)).
    { apply (targets_other d m2 q qid rest Hids Hsel).
      rewrite map_app in Hkeys. simpl in Hkeys.
      apply NoDup_app in Hkeys as (_ & _ & Hk).
      apply NoDup_cons in Hk as [Hk _]. by rewrite list_elem_of_In in Hk. }
    pose proof (replaceAll_at files d m1 m2 (q, fl) qid
                  (map OrderedPlan.erase (Store.link_tbl d)) Ht Hn) as Hat.
    rewrite <- Hl, <- erase_links_of in Hat. simpl in Hat.
    rewrite <- (rowsOf_declared files qid fl), <- Hat. subst stored.
    unfold OrderedPlan.links_of. by rewrite map_map. }
  assert (Horders : map Store.l_order stored = map snd (OrderedPlan.declared files fl)).
  { rewrite <- Hstored, map_map. done. }
  assert (Hexpl : map Store.l_explanationId stored
                  = map fst (OrderedPlan.declared files fl)).
  { rewrite <- Hstored, map_map. done. }
  split; [done|]. split.
  - rewrite Horders. apply (declared_orders_from files 0 fl).
  - intros Hall. rewrite Hexpl, Horders. unfold OrderedPlan.declared.
    rewrite (declared_all_loaded_from files 0 fl Hall).
    assert (Hlen : length (map InsertFull.generateExplanationId fl)
                   = length (seq 0 (length fl)))
      by (by rewrite length_map, length_seq).
    split.
    + rewrite <- (fst_zip (map InsertFull.generateExplanationId fl) (seq 0 (length fl)))
        at 2 by lia. done.
    + rewrite <- (snd_zip (map InsertFull.generateExplanationId fl) (seq 0 (length fl)))
        at 2 by lia. done.
Qed.

Lemma stored_order_is_declared_index_witness :
  map (fun l => (Store.l_explanationId l, Store.l_order l))
      (OrderedPlan.links_of "3"
         (Store.st_db
            (InsertFull.main Scenarios.orderedMeta Scenarios.tree Scenarios.rngA
                             Scenarios.db0)))
  = [(InsertFull.generateExplanationId "p.svg", 0);
     (InsertFull.generateExplanationId "x.md", 1)].
Proof.
  assert (Hkeys : NoDup (map fst Scenarios.orderedMeta))
    by (apply (bool_decide_unpack _); vm_compute; exact I).
  assert (Hids : NoDup (map Store.q_id (Store.question_tbl Scenarios.db0)))
    by (apply (bool_decide_unpack _); vm_compute; exact I).
  assert (Hin : In ("Q3", ["p.svg"; "x.md"]) Scenarios.orderedMeta)
    by (right; left; reflexivity).
  assert (Hne : ["p.svg"; "x.md"] <> @nil string) by discriminate.
  assert (Hsel : Store.select_question "Q3" Scenarios.db0 = "3" :: [])
    by reflexivity.
  rewrite (proj1 (stored_order_is_declared_index Scenarios.orderedMeta Scenarios.tree
                    Scenarios.rngA Scenarios.db0 "Q3" ["p.svg"; "x.md"] "3" []
                    Hkeys Hids Hin Hne Hsel)).
  vm_compute. reflexivity.
Defined.

(** * Further properties of the scripts *)

(** ** A run seen from one question and from one explanation id *)

Section PerKey.
Import Store Acts.

Lemma with_link_id (r : question) : with_link r (q_explanationId r) = r.
Proof. by destruct r. Qed.

Lemma exec_question_tbl (o : op) (d : db) :
  question_tbl (exec o d)
  = map (fun r => with_link r (link_act o (q_externalId r) (q_explanationId r)))
        (question_tbl d).
Proof.
  destruct o as [q e| | |q e| |]; simpl;
    try (symmetry; erewrite map_ext; [apply map_id|intros r; apply with_link_id]).
  - apply map_ext. intros r. unfold unlink_row, with_link.
    destruct r as [i x v]; simpl. unfold link_act.
    repeat case_decide; try done; exfalso;
      match goal with
      | H : ~ _, H' : _ /\ _ |- _ => destruct H' as [? ?]; apply H; split; congruence
      end.
  - apply map_ext. intros r. unfold link_row, with_link.
    destruct r as [i x v]; simpl. unfold link_act.
    repeat case_decide; try done; congruence.
Qed.

Lemma run_question_tbl (ops : list op) (d : db) :
  question_tbl (run ops d)
  = map (fun r => with_link r (link_run ops (q_externalId r) (q_explanationId r)))
        (question_tbl d).
Proof.
  revert d. induction ops as [|o ops IH]; intros d; simpl.
  - symmetry. erewrite map_ext; [apply map_id|intros r; apply with_link_id].
  - rewrite IH, exec_question_tbl, map_map. apply map_ext. by intros [i x v].
Qed.

Lemma exec_explanation_lookup (o : op) (d : db) k :
  explanation_tbl (exec o d) !! k = expl_act o k (explanation_tbl d !! k).
Proof.
  destruct o as [|e|e c| | |]; simpl; try done.
  - case_decide as H; [subst; apply lookup_delete_eq|by apply lookup_delete_ne].
  - case_decide as H; [subst; apply lookup_insert_eq|by apply lookup_insert_ne].
Qed.

Lemma run_explanation_lookup (ops : list op) (d : db) k :
  explanation_tbl (run ops d) !! k = expl_run ops k (explanation_tbl d !! k).
Proof.
  revert d. induction ops as [|o ops IH]; intros d; simpl; [done|].
  by rewrite IH, exec_explanation_lookup.
Qed.

Lemma run_link_tbl (ops : list op) (d : db) :
  Forall (fun o => is_clearing o = true \/ is_assignment o = true) ops ->
  link_tbl (run ops d) = link_tbl d.
Proof.
  intros H. revert d. induction H as [|o ops Ho _ IH]; intros d; simpl; [done|].
  rewrite IH. destruct o; simpl in *; try done; by destruct Ho.
Qed.

Lemma link_run_app o1 o2 q v : link_run (o1 ++ o2) q v = link_run o2 q (link_run o1 q v).
Proof. apply fold_left_app. Qed.

Lemma expl_run_app o1 o2 k v : expl_run (o1 ++ o2) k v = expl_run o2 k (expl_run o1 k v).
Proof. apply fold_left_app. Qed.

(** *** Clearing and setting functions *)

Lemma clearing_id : clearing (fun v => v).
Proof. intros v. by left. Qed.

Lemma clearing_comp h1 h2 : clearing h1 -> clearing h2 -> clearing (fun v => h2 (h1 v)).
Proof.
  intros H1 H2 v. destruct (H1 v) as [->| ->]; [apply H2|].
  right. by destruct (H2 None).
Qed.

Lemma setting_id : setting (fun v => v).
Proof. by left. Qed.

Lemma setting_comp h1 h2 : setting h1 -> setting h2 -> setting (fun v => h2 (h1 v)).
Proof.
  intros [H1|[c1 H1]] [H2|[c2 H2]].
  - left. intros v. by rewrite H1, H2.
  - right. exists c2. intros v. by rewrite H2.
  - right. exists c1. intros v. by rewrite H2, H1.
  - right. exists c2. intros v. by rewrite H2.
Qed.

(** Clear, then set, then clear: doing it twice is doing it once. *)
Lemma clear_set_clear h1 h2 h3 v :
  clearing h1 -> setting h2 -> clearing h3 ->
  h3 (h2 (h1 (h3 (h2 (h1 v))))) = h3 (h2 (h1 v)).
Proof.
  intros H1 [H2|[c H2]] H3.
  - rewrite !H2.
    pose proof (clearing_comp h1 h3 H1 H3) as H. simpl in H.
    destruct (H v) as [E|E]; rewrite !E; [done|]. by destruct (H None).
  - by rewrite !H2.
Qed.

Lemma link_act_clearing o q : is_clearing o = true -> clearing (link_act o q).
Proof.
  destruct o; try done; intros _ v; unfold link_act; [|by left].
  case_decide; [by right|by left].
Qed.

Lemma link_act_setting o q : is_assignment o = true -> setting (link_act o q).
Proof.
  destruct o; try done; intros _; unfold link_act; [by left|].
  case_decide; [right; eauto|by left].
Qed.

Lemma expl_act_clearing o k : is_clearing o = true -> clearing (expl_act o k).
Proof.
  destruct o; try done; intros _ v; unfold expl_act; [by left|].
  case_decide; [by right|by left].
Qed.

Lemma expl_act_setting o k : is_assignment o = true -> setting (expl_act o k).
Proof.
  destruct o; try done; intros _; unfold expl_act; [|by left].
  case_decide; [right; eauto|by left].
Qed.

Lemma link_run_clearing ops q :
  Forall (fun o => is_clearing o = true) ops -> clearing (link_run ops q).
Proof.
  induction ops as [|o ops IH] using rev_ind; intros H; [apply clearing_id|].
  apply Forall_app in H as [H Ho]. apply Forall_cons_1 in Ho as [Ho _].
  intros v. rewrite link_run_app. simpl.
  apply (clearing_comp (link_run ops q) (link_act o q)); auto using link_act_clearing.
Qed.

Lemma link_run_setting ops q :
  Forall (fun o => is_assignment o = true) ops -> setting (link_run ops q).
Proof.
  induction ops as [|o ops IH] using rev_ind; intros H; [apply setting_id|].
  apply Forall_app in H as [H Ho]. apply Forall_cons_1 in Ho as [Ho _].
  pose proof (setting_comp (link_run ops q) (link_act o q) (IH H)
                (link_act_setting o q Ho)) as [E|[c E]].
  - left. intros v. rewrite link_run_app. apply E.
  - right. exists c. intros v. rewrite link_run_app. apply E.
Qed.

Lemma expl_run_clearing ops k :
  Forall (fun o => is_clearing o = true) ops -> clearing (expl_run ops k).
Proof.
  induction ops as [|o ops IH] using rev_ind; intros H; [apply clearing_id|].
  apply Forall_app in H as [H Ho]. apply Forall_cons_1 in Ho as [Ho _].
  intros v. rewrite expl_run_app. simpl.
  apply (clearing_comp (expl_run ops k) (expl_act o k)); auto using expl_act_clearing.
Qed.

Lemma expl_run_setting ops k :
  Forall (fun o => is_assignment o = true) ops -> setting (expl_run ops k).
Proof.
  induction ops as [|o ops IH] using rev_ind; intros H; [apply setting_id|].
  apply Forall_app in H as [H Ho]. apply Forall_cons_1 in Ho as [Ho _].
  pose proof (setting_comp (expl_run ops k) (expl_act o k) (IH H)
                (expl_act_setting o k Ho)) as [E|[c E]].
  - left. intros v. rewrite expl_run_app. apply E.
  - right. exists c. intros v. rewrite expl_run_app. apply E.
Qed.

Lemma db_eq (a b : db) :
  question_tbl a = question_tbl b -> explanation_tbl a = explanation_tbl b ->
  link_tbl a = link_tbl b -> a = b.
Proof. destruct a, b; simpl; congruence. Qed.

(** A batch that clears, then sets, then clears can be replayed. *)
Lemma run_clear_set_clear (R U D : list op) (d : db) :
  Forall (fun o => is_clearing o = true) R ->
  Forall (fun o => is_assignment o = true) U ->
  Forall (fun o => is_clearing o = true) D ->
  run (R ++ U ++ D) (run (R ++ U ++ D) d) = run (R ++ U ++ D) d.
Proof.
  intros HR HU HD.
  assert (Hall : Forall (fun o => is_clearing o = true \/ is_assignment o = true)
                        (R ++ U ++ D)).
  { rewrite !Forall_app. repeat split; (eapply Forall_impl; [eassumption|]); auto. }
  apply db_eq.
  - rewrite (run_question_tbl _ (run _ d)), (run_question_tbl _ d), map_map.
    apply map_ext. intros [i x v]. unfold with_link. simpl. f_equal.
    rewrite !link_run_app.
    apply (clear_set_clear (link_run R x) (link_run U x) (link_run D x));
      auto using link_run_clearing, link_run_setting.
  - apply map_eq. intros k. rewrite !run_explanation_lookup, !expl_run_app.
    apply (clear_set_clear (expl_run R k) (expl_run U k) (expl_run D k));
      auto using expl_run_clearing, expl_run_setting.
  - by rewrite !run_link_tbl.
Qed.
End PerKey.

(** ** The statements of an incremental run, by kind *)

Section IncrementalOps.
Import Store Meta Incremental Plan Acts.
Variable fs : string -> option string.

Lemma removeEvents_clearing (l : list MetaEntry) :
  Forall (fun o => is_clearing o = true) (sql_ops (flat_map removeEvents l)).
Proof.
  apply Forall_forall. intros o Ho. apply list_elem_of_In, in_sql_ops in Ho as (p & Hin).
  apply in_flat_map in Hin as (e & _ & Hev). unfold removeEvents in Hev.
  apply in_app_iff in Hev as [Hev|[Hev|[]]].
  - by apply in_map_iff in Hev as (q & [= _ <-] & _).
  - by injection Hev as _ <-.
Qed.

Lemma upsertEvents_assign (l : list MetaEntry) :
  Forall (fun o => is_assignment o = true) (sql_ops (flat_map (upsertEvents fs) l)).
Proof.
  apply Forall_forall. intros o Ho. apply list_elem_of_In, in_sql_ops in Ho as (p & Hin).
  apply in_flat_map in Hin as (e & _ & Hev). unfold upsertEvents in Hev.
  destruct (fs (file e)); [|by destruct Hev as [|[]]].
  destruct Hev as [[= _ <-]|Hev]; [done|].
  by apply in_map_iff in Hev as (q & [= _ <-] & _).
Qed.

Lemma unlinkEvents_clearing oldMeta (l : list MetaEntry) :
  Forall (fun o => is_clearing o = true) (sql_ops (flat_map (unlinkEvents oldMeta) l)).
Proof.
  apply Forall_forall. intros o Ho. apply list_elem_of_In, in_sql_ops in Ho as (p & Hin).
  apply in_flat_map in Hin as (e & _ & Hev). unfold unlinkEvents in Hev.
  by apply in_map_iff in Hev as (q & [= _ <-] & _).
Qed.

(** The statements of a run: those of the removed entries, those of
    the upsert loop, and the unlinks of dropped questions. *)
Lemma plan_ops oldMeta newMeta changedFiles :
  sql_ops (plan fs oldMeta newMeta changedFiles)
  = sql_ops (flat_map removeEvents (removed oldMeta newMeta))
    ++ sql_ops (flat_map (upsertEvents fs) (toUpsert oldMeta newMeta changedFiles))
    ++ sql_ops (flat_map (unlinkEvents oldMeta) (questionsModified oldMeta newMeta)).
Proof.
  unfold plan, toUpsert. by rewrite !flat_map_app, !sql_ops_app, <- !app_assoc.
Qed.

Lemma plan_kinds oldMeta newMeta changedFiles :
  Forall (fun o => is_clearing o = true \/ is_assignment o = true)
         (sql_ops (plan fs oldMeta newMeta changedFiles)).
Proof.
  rewrite plan_ops, !Forall_app. repeat split.
  - eapply Forall_impl; [apply removeEvents_clearing|]. auto.
  - eapply Forall_impl; [apply upsertEvents_assign|]. auto.
  - eapply Forall_impl; [apply unlinkEvents_clearing|]. auto.
Qed.
End IncrementalOps.

(** X1: running the incremental sync a second time with the same
    manifests, changed files and content directory, on the store the
    first run produced, leaves that store as it is. *)
Theorem incremental_sync_is_idempotent
    (fs : string -> option string) (oldMeta newMeta : list Meta.MetaEntry)
    (changedFiles : gset string) (d : Store.db) :
  let d1 := Store.st_db (Incremental.main fs oldMeta newMeta changedFiles d) in
  Store.st_db (Incremental.main fs oldMeta newMeta changedFiles d1) = d1.
Proof.
  simpl. rewrite !main_db, plan_ops.
  apply run_clear_set_clear;
    auto using removeEvents_clearing, upsertEvents_assign, unlinkEvents_clearing.
Qed.

(** X2: no script adds, removes or renames a question: the incremental
    sync and the single-link full rebuild leave the id and external id
    of every question row, and the whole join table, as they were; the
    ordered full rebuild leaves the question table as it was. *)
Theorem question_rows_are_kept :
  (forall (fs : string -> option string) (oldMeta newMeta : list Meta.MetaEntry)
     (changedFiles : gset string) (d : Store.db),
     let d' := Store.st_db (Incremental.main fs oldMeta newMeta changedFiles d) in
     map (fun r => (Store.q_id r, Store.q_externalId r)) (Store.question_tbl d')
     = map (fun r => (Store.q_id r, Store.q_externalId r)) (Store.question_tbl d)
     /\ Store.link_tbl d' = Store.link_tbl d)
  /\ (forall (meta : list Meta.MetaEntry) (tree : list Fs.dirent) (d : Store.db),
        let d' := Store.st_db (SyncFull.main meta tree d) in
        map (fun r => (Store.q_id r, Store.q_externalId r)) (Store.question_tbl d')
        = map (fun r => (Store.q_id r, Store.q_externalId r)) (Store.question_tbl d)
        /\ Store.link_tbl d' = Store.link_tbl d)
  /\ (forall (meta : InsertFull.manifest) (tree : list Fs.dirent) (uuidv4 : Uuid.rng)
        (d : Store.db),
        Store.question_tbl (Store.st_db (InsertFull.main meta tree uuidv4 d))
        = Store.question_tbl d).
Proof.
  split; [|split].
  - intros fs oldMeta newMeta changedFiles d. simpl. rewrite main_db. split.
    + rewrite run_question_tbl, map_map. done.
    + apply run_link_tbl, plan_kinds.
  - intros meta tree d. simpl. unfold SyncFull.main. rewrite sync_main_db. simpl. split.
    + rewrite run_question_tbl, map_map. done.
    + apply run_link_tbl. eapply Forall_impl; [apply sync_ops_assign|]. auto.
  - intros meta tree uuidv4 d. by destruct (main_tables meta tree uuidv4 d) as [H _].
Qed.

(** ** What the explanation table holds after an incremental run *)

Section StoredContent.
Import Store Acts.

Lemma expl_run_untouched (ops : list op) k v :
  (forall c, ~ In (UpsertExplanation k c) ops) -> ~ In (DeleteExplanation k) ops ->
  expl_run ops k v = v.
Proof.
  revert v. induction ops as [|o ops IH]; intros v Hu Hd; simpl; [done|].
  rewrite IH.
  - destruct o as [|e|e c| | |]; simpl; try done; unfold expl_act.
    + case_decide; [subst; destruct Hd; by left|done].
    + case_decide; [subst; destruct (Hu c); by left|done].
  - intros c Hc. apply (Hu c). by right.
  - intros Hc. apply Hd. by right.
Qed.

Lemma expl_run_upserted (ops : list op) k c v :
  Forall (fun o => is_assignment o = true) ops ->
  (forall c', In (UpsertExplanation k c') ops -> c' = c) ->
  In (UpsertExplanation k c) ops \/ v = Some c ->
  expl_run ops k v = Some c.
Proof.
  intros Hall. revert v. induction Hall as [|o ops Ho _ IH]; intros v Hc Hin; simpl.
  - by destruct Hin as [[]|].
  - apply IH; [intros c' Hc'; apply Hc; by right|].
    destruct o as [| |e c0| | |]; try done; unfold expl_act.
    + case_decide as He.
      * subst e. right. f_equal. apply Hc. by left.
      * destruct Hin as [[Heq|Hin]|Hv]; [congruence|by left|by right].
    + destruct Hin as [[Heq|Hin]|Hv]; [done|by left|by right].
Qed.

Lemma expl_run_deleted (ops : list op) k v :
  Forall (fun o => is_clearing o = true) ops ->
  In (DeleteExplanation k) ops \/ v = None ->
  expl_run ops k v = None.
Proof.
  intros Hall. revert v. induction Hall as [|o ops Ho _ IH]; intros v Hin; simpl.
  - by destruct Hin as [[]|].
  - apply IH. destruct o as [|e| | | |]; try done; unfold expl_act.
    + destruct Hin as [[Heq|Hin]|Hv]; [done|by left|by right].
    + case_decide as He; [by right|].
      destruct Hin as [[Heq|Hin]|Hv]; [congruence|by left|by right].
Qed.
End StoredContent.

(** X3: after an incremental run the explanation table holds the content
    read from the file of every entry the run upserts, under the id
    derived from its path, provided no other upserted path has the same
    derived id; and it holds no row for the id of a removed entry,
    provided no upserted readable path has that id. *)
Theorem stored_explanations_after_run
    (fs : string -> option string) (oldMeta newMeta : list Meta.MetaEntry)
    (changedFiles : gset string) (d : Store.db) :
  let d' := Store.st_db (Incremental.main fs oldMeta newMeta changedFiles d) in
  (forall entry content,
     In entry (Incremental.toUpsert oldMeta newMeta changedFiles) ->
     fs (Meta.file entry) = Some content ->
     (forall other, In other (Incremental.toUpsert oldMeta newMeta changedFiles) ->
        Incremental.generateExplanationId (Meta.file other)
        = Incremental.generateExplanationId (Meta.file entry) ->
        Meta.file other = Meta.file entry) ->
     Store.explanation_tbl d' !! Incremental.generateExplanationId (Meta.file entry)
     = Some content)
  /\ (forall entry,
        In entry (Incremental.removed oldMeta newMeta) ->
        (forall other content,
           In other (Incremental.toUpsert oldMeta newMeta changedFiles) ->
           fs (Meta.file other) = Some content ->
           Incremental.generateExplanationId (Meta.file other)
           <> Incremental.generateExplanationId (Meta.file entry)) ->
        Store.explanation_tbl d' !! Incremental.generateExplanationId (Meta.file entry)
        = None).
Proof.
  simpl. rewrite main_db, plan_ops. split.
  - intros entry content Hin Hfs Hinj.
    remember (Incremental.generateExplanationId (Meta.file entry)) as k eqn:Hk.
    rewrite run_explanation_lookup, !expl_run_app.
    rewrite (expl_run_untouched (Store.sql_ops (flat_map (Plan.unlinkEvents oldMeta) _))).
    + apply expl_run_upserted; [apply upsertEvents_assign| |].
      * intros c' (p & Hev)%in_sql_ops. apply in_flat_map in Hev as (e' & He' & Hev).
        unfold Plan.upsertEvents in Hev. destruct (fs (Meta.file e')) eqn:E.
        -- destruct Hev as [[= Hp Hid <-]|Hev].
           ++ rewrite (Hinj e' He' Hid) in E. congruence.
           ++ by apply in_map_iff in Hev as (q & ? & _).
        -- by destruct Hev as [|[]].
      * left. apply in_sql_ops. exists (Meta.file entry). apply in_flat_map.
        exists entry. split; [done|]. unfold Plan.upsertEvents. rewrite Hfs, Hk. by left.
    + intros c (p & Hev)%in_sql_ops. apply in_flat_map in Hev as (e' & _ & Hev).
      unfold Plan.unlinkEvents in Hev. by apply in_map_iff in Hev as (q & ? & _).
    + intros (p & Hev)%in_sql_ops. apply in_flat_map in Hev as (e' & _ & Hev).
      unfold Plan.unlinkEvents in Hev. by apply in_map_iff in Hev as (q & ? & _).
  - intros entry Hin Hfree.
    remember (Incremental.generateExplanationId (Meta.file entry)) as k eqn:Hk.
    rewrite run_explanation_lookup, !expl_run_app.
    rewrite (expl_run_untouched (Store.sql_ops (flat_map (Plan.unlinkEvents oldMeta) _))).
    + rewrite (expl_run_deleted (Store.sql_ops (flat_map Plan.removeEvents _))).
      * apply expl_run_untouched.
        -- intros c (p & Hev)%in_sql_ops. apply in_flat_map in Hev as (e' & He' & Hev).
           unfold Plan.upsertEvents in Hev. destruct (fs (Meta.file e')) eqn:E.
           ++ destruct Hev as [[= Hp Hid <-]|Hev].
              ** by apply (Hfree e' _ He' E).
              ** by apply in_map_iff in Hev as (q & ? & _).
           ++ by destruct Hev as [|[]].
        -- intros (p & Hev)%in_sql_ops.
           pose proof (upsertEvents_assign fs
                         (Incremental.toUpsert oldMeta newMeta changedFiles)) as Hall.
           rewrite Forall_forall in Hall.
           assert (Hin' : In (Store.DeleteExplanation k)
                             (Store.sql_ops (flat_map (Plan.upsertEvents fs)
                                (Incremental.toUpsert oldMeta newMeta changedFiles))))
             by (apply in_sql_ops; eauto).
           apply list_elem_of_In, Hall in Hin'. done.
      * apply removeEvents_clearing.
      * left. apply in_sql_ops. exists (Meta.file entry). apply in_flat_map.
        exists entry. split; [done|]. unfold Plan.removeEvents.
        apply in_app_iff. right. rewrite Hk. by left.
    + intros c (p & Hev)%in_sql_ops. apply in_flat_map in Hev as (e' & _ & Hev).
      unfold Plan.unlinkEvents in Hev. by apply in_map_iff in Hev as (q & ? & _).
    + intros (p & Hev)%in_sql_ops. apply in_flat_map in Hev as (e' & _ & Hev).
      unfold Plan.unlinkEvents in Hev. by apply in_map_iff in Hev as (q & ? & _).
Qed.

Lemma stored_explanations_after_run_witness :
  Store.explanation_tbl
    (Store.st_db (Incremental.main Scenarios.fsABC Scenarios.oldC Scenarios.newC ∅
                                   Scenarios.db0))
  !! Incremental.generateExplanationId "c.md" = Some "C".
Proof.
  apply (proj1 (stored_explanations_after_run Scenarios.fsABC Scenarios.oldC Scenarios.newC
                  ∅ Scenarios.db0) (Meta.Entry "c.md" ["Q1"; "Q2"]) "C").
  - vm_compute. by left.
  - reflexivity.
  - intros other Hin _. vm_compute in Hin. by destruct Hin as [<-|[]].
Defined.

(** ** The final report *)

Section Counting.
Import Store Acts Report.

Lemma has_question_ext (d d' : db) q :
  ext_ids d' = ext_ids d -> (0 <? length (returning q d'))%nat = has_question d q.
Proof.
  unfold ext_ids, returning, has_question. rewrite length_map.
  assert (H : forall l : list question,
            (0 <? length (List.filter (fun r => String.eqb (q_externalId r) q) l))%nat
            = existsb (fun x => String.eqb x q) (map q_externalId l)).
  { induction l as [|r l IH]; simpl; [done|]. destruct (String.eqb _ _); simpl; auto. }
  intros E. rewrite H, E. clear.
  induction (question_tbl d) as [|r l IH]; simpl; [done|]. by rewrite IH.
Qed.

Lemma exec_ext_ids (o : op) (d : db) : ext_ids (exec o d) = ext_ids d.
Proof. unfold ext_ids. rewrite exec_question_tbl, map_map. done. Qed.

Lemma deletes_app t1 t2 : deletes (t1 ++ t2) = deletes t1 ++ deletes t2.
Proof. apply flat_map_app. Qed.
Lemma upserts_app t1 t2 : upserts (t1 ++ t2) = upserts t1 ++ upserts t2.
Proof. apply flat_map_app. Qed.
Lemma unlinks_app t1 t2 : unlinks (t1 ++ t2) = unlinks t1 ++ unlinks t2.
Proof. apply flat_map_app. Qed.
Lemma linked_app t1 t2 : linked (t1 ++ t2) = linked t1 ++ linked t2.
Proof. apply flat_map_app. Qed.
Lemma inserted_app t1 t2 : inserted (t1 ++ t2) = inserted t1 ++ inserted t2.
Proof. apply flat_map_app. Qed.
Lemma upsert_paths_app t1 t2 : upsert_paths (t1 ++ t2) = upsert_paths t1 ++ upsert_paths t2.
Proof. apply flat_map_app. Qed.
End Counting.

Ltac count_step :=
  rewrite ?deletes_app, ?upserts_app, ?unlinks_app, ?linked_app, ?inserted_app,
          ?List.filter_app, ?length_app, ?app_nil_r, ?exec_ext_ids; simpl;
  rewrite ?app_nil_r, ?Nat.add_0_r; try done; try lia.

Section IncrementalReport.
Import Store Meta Incremental Acts Report.
Local Arguments exec : simpl never.
Variables (fs : string -> option string) (d : db).

Lemma unlinkQuestion_report f e st q :
  incremental d st -> incremental d (unlinkQuestion f e st q).
Proof.
  intros (H1 & H2 & H3 & H4 & H5 & H6). unfold incremental, unlinkQuestion; simpl.
  repeat split; count_step.
Qed.

Lemma removeEntry_report st entry : incremental d st -> incremental d (removeEntry st entry).
Proof.
  intros H. unfold removeEntry.
  set (st' := fold_left _ _ st).
  assert (H' : incremental d st').
  { subst st'. apply fold_left_preserves; [|done].
    intros a b. apply unlinkQuestion_report. }
  destruct H' as (H1 & H2 & H3 & H4 & H5 & H6). unfold incremental; simpl.
  repeat split; count_step.
Qed.

Lemma linkQuestion_report f e st q :
  incremental d st -> incremental d (linkQuestion f e st q).
Proof.
  intros (H1 & H2 & H3 & H4 & H5 & H6). unfold incremental, linkQuestion.
  rewrite (has_question_ext d (st_db st) q H6).
  destruct (has_question d q) eqn:E; simpl; repeat split; count_step;
    rewrite ?E; simpl; rewrite ?app_nil_r; try done; try lia.
  by rewrite H5.
Qed.

Lemma upsertEntry_report st entry :
  incremental d st -> incremental d (upsertEntry fs st entry).
Proof.
  intros H. unfold upsertEntry. destruct (fs (file entry)).
  - apply fold_left_preserves; [intros a b; apply linkQuestion_report|].
    destruct H as (H1 & H2 & H3 & H4 & H5 & H6). unfold incremental; simpl.
    repeat split; count_step.
  - destruct H as (H1 & H2 & H3 & H4 & H5 & H6). unfold incremental; simpl.
    repeat split; count_step.
Qed.

Lemma unlinkDropped_report oldMeta st entry :
  incremental d st -> incremental d (unlinkDropped oldMeta st entry).
Proof.
  intros H. unfold unlinkDropped. apply fold_left_preserves; [|done].
  intros a b. apply unlinkQuestion_report.
Qed.

Lemma main_report oldMeta newMeta changedFiles :
  incremental d (main fs oldMeta newMeta changedFiles d).
Proof.
  assert (H0 : incremental d (State d (Stats 0 0 0 0 []) [])) by (by repeat split).
  unfold main. destruct (_ && _ && _)%bool; [done|].
  apply fold_left_preserves; [intros a b; apply unlinkDropped_report|].
  apply fold_left_preserves; [intros a b; apply upsertEntry_report|].
  apply fold_left_preserves; [intros a b; apply removeEntry_report|done].
Qed.

Lemma deletes_plan oldMeta newMeta changedFiles :
  deletes (Plan.plan fs oldMeta newMeta changedFiles)
  = map (fun e => generateExplanationId (file e)) (removed oldMeta newMeta).
Proof.
  assert (Hr : forall l, deletes (flat_map Plan.removeEvents l)
                         = map (fun e => generateExplanationId (file e)) l).
  { induction l as [|e l IH]; simpl; [done|].
    rewrite deletes_app, IH. unfold Plan.removeEvents. rewrite deletes_app. simpl.
    replace (deletes (map _ (questions e))) with (@nil string); [done|].
    induction (questions e); simpl; auto. }
  assert (Hu : forall l, deletes (flat_map (Plan.upsertEvents fs) l) = []).
  { induction l as [|e l IH]; simpl; [done|].
    rewrite deletes_app, IH, app_nil_r. unfold Plan.upsertEvents.
    destruct (fs (file e)); simpl; [|done]. induction (questions e); simpl; auto. }
  assert (Hd : forall l, deletes (flat_map (Plan.unlinkEvents oldMeta) l) = []).
  { induction l as [|e l IH]; simpl; [done|].
    rewrite deletes_app, IH, app_nil_r. unfold Plan.unlinkEvents.
    induction (removedQuestions _ _); simpl; auto. }
  unfold Plan.plan. rewrite !deletes_app, Hr, !Hu, Hd. by rewrite !app_nil_r.
Qed.
End IncrementalReport.

(** X4: the summary of the incremental sync counts the statements it
    issued: one delete per removed entry, one upsert per upsert
    statement, and one "unlinked" per unlink statement whether or not a
    row matched; a link statement counts as "linked" when the store has
    a question with that external id and otherwise its id is listed, in
    order, among the questions not found. *)
Theorem incremental_report_counts_statements
    (fs : string -> option string) (oldMeta newMeta : list Meta.MetaEntry)
    (changedFiles : gset string) (d : Store.db) :
  let st := Incremental.main fs oldMeta newMeta changedFiles d in
  let t := Store.st_trace st in
  Incremental.deleted (Store.st_stats st) = length (Incremental.removed oldMeta newMeta)
  /\ Incremental.upserted (Store.st_stats st) = length (Acts.upserts t)
  /\ Incremental.questionsUnlinked (Store.st_stats st) = length (Acts.unlinks t)
  /\ Incremental.questionsLinked (Store.st_stats st)
     = length (List.filter (Acts.has_question d) (Acts.linked t))
  /\ Incremental.questionsNotFound (Store.st_stats st)
     = List.filter (fun q => negb (Acts.has_question d q)) (Acts.linked t).
Proof.
  intros st t. destruct (main_report fs d oldMeta newMeta changedFiles)
    as (H1 & H2 & H3 & H4 & H5 & _).
  fold st in H1, H2, H3, H4, H5. fold t in H1, H2, H3, H4, H5.
  repeat split; try done.
  rewrite H1. subst t st. by rewrite main_trace, deletes_plan, length_map.
Qed.

(** ** Which paths an incremental run touches *)

Section Touched.
Import Store Meta Incremental Plan Acts.
Variable fs : string -> option string.
Variables (oldMeta newMeta : list MetaEntry) (changedFiles : gset string).

(** Every statement is tagged with the path of a removed entry or of an
    entry to upsert. *)
Lemma plan_subject p o :
  In (Sql p o) (plan fs oldMeta newMeta changedFiles) ->
  p ∈ paths (removed oldMeta newMeta) ∪ paths (added oldMeta newMeta)
      ∪ paths (questionsModified oldMeta newMeta)
      ∪ paths (contentOnly oldMeta newMeta changedFiles).
Proof.
  assert (Hup : forall e, In (Sql p o) (upsertEvents fs e) -> file e = p).
  { intros e. unfold upsertEvents. destruct (fs (file e)).
    - intros [[= -> _]|Hev]; [done|]. by apply in_map_iff in Hev as (q & [= -> _] & _).
    - by intros [|[]]. }
  unfold plan. rewrite !in_app_iff, !in_flat_map, !elem_of_union, !elem_of_paths.
  intros [H|[H|[H|[H|H]]]]; destruct H as (e & Hin & Hev).
  - left; left; left. exists e. split; [done|].
    unfold removeEvents in Hev. apply in_app_iff in Hev as [Hev|[Hev|[]]].
    + by apply in_map_iff in Hev as (q & [= -> _] & _).
    + by injection Hev as ->.
  - left; left; right. eauto.
  - left; right. eauto.
  - right. eauto.
  - left; right. exists e. split; [done|]. unfold unlinkEvents in Hev.
    by apply in_map_iff in Hev as (q & [= -> _] & _).
Qed.

Lemma NoDup_map_filter {A B} (f : A -> B) (p : A -> bool) (l : list A) :
  NoDup (map f l) -> NoDup (map f (List.filter p l)).
Proof.
  induction l as [|x l IH]; simpl; [done|].
  intros [Hx Hl]%NoDup_cons. destruct (p x); simpl; [|by apply IH].
  apply NoDup_cons. split; [|by apply IH].
  rewrite list_elem_of_In in *. intros (y & Hy & Hin)%in_map_iff.
  apply filter_In in Hin as [Hin _]. apply Hx. rewrite <- Hy. by apply in_map.
Qed.

Lemma toUpsert_paths_unique :
  NoDup (map file newMeta) -> NoDup (map file (toUpsert oldMeta newMeta changedFiles)).
Proof.
  intros Hnd.
  pose proof (classes_disjoint oldMeta newMeta changedFiles Hnd) as Hd.
  unfold toUpsert. rewrite !map_app.
  apply NoDup_app. split; [|split; [|apply NoDup_app; split; [|split]]].
  - by apply NoDup_map_filter.
  - intros p Hp Hq. rewrite list_elem_of_In in Hp. rewrite list_elem_of_In, <- map_app in Hq.
    apply in_paths_files in Hp. rewrite map_app in Hq.
    apply in_app_iff in Hq as [Hq|Hq]; apply in_paths_files in Hq.
    + by apply (Hd 1 2 _ _ ltac:(done) eq_refl eq_refl p).
    + by apply (Hd 1 3 _ _ ltac:(done) eq_refl eq_refl p).
  - unfold questionsModified, kept. by do 2 apply NoDup_map_filter.
  - intros p Hp Hq. rewrite list_elem_of_In in Hp, Hq.
    apply in_paths_files in Hp, Hq.
    by apply (Hd 2 3 _ _ ltac:(done) eq_refl eq_refl p).
  - unfold contentOnly, kept. by do 2 apply NoDup_map_filter.
Qed.

Lemma upsert_paths_plan :
  upsert_paths (plan fs oldMeta newMeta changedFiles)
  = map file (List.filter (fun e => bool_decide (is_Some (fs (file e))))
                          (toUpsert oldMeta newMeta changedFiles)).
Proof.
  assert (Hr : forall l, upsert_paths (flat_map removeEvents l) = []).
  { induction l as [|e l IH]; simpl; [done|].
    rewrite upsert_paths_app, IH, app_nil_r. unfold removeEvents.
    rewrite upsert_paths_app. simpl. rewrite app_nil_r.
    induction (questions e); simpl; auto. }
  assert (Hu : forall l, upsert_paths (flat_map (upsertEvents fs) l)
                         = map file (List.filter
                                       (fun e => bool_decide (is_Some (fs (file e)))) l)).
  { induction l as [|e l IH]; simpl; [done|].
    rewrite upsert_paths_app, IH. unfold upsertEvents.
    destruct (fs (file e)) eqn:E; simpl.
    - f_equal. replace (upsert_paths (map _ (questions e))) with (@nil string); [done|].
      induction (questions e); simpl; auto.
    - done. }
  assert (Hd : forall l, upsert_paths (flat_map (unlinkEvents oldMeta) l) = []).
  { induction l as [|e l IH]; simpl; [done|].
    rewrite upsert_paths_app, IH, app_nil_r. unfold unlinkEvents.
    induction (removedQuestions _ _); simpl; auto. }
  unfold plan, toUpsert.
  rewrite !upsert_paths_app, Hr, !Hu, Hd, !List.filter_app, !map_app.
  by rewrite app_nil_r.
Qed.
End Touched.

(** X5: when the paths of the new manifest are unique, an entry that is
    unchanged (same questions, file not among the changed files) gets
    no statement at all in an incremental run. *)
Theorem unchanged_entries_are_not_touched
    (fs : string -> option string) (oldMeta newMeta : list Meta.MetaEntry)
    (changedFiles : gset string) (d : Store.db) (entry : Meta.MetaEntry) (o : Store.op) :
  NoDup (map Meta.file newMeta) ->
  In entry (Incremental.unchanged oldMeta newMeta changedFiles) ->
  ~ In (Store.Sql (Meta.file entry) o)
       (Store.st_trace (Incremental.main fs oldMeta newMeta changedFiles d)).
Proof.
  intros Hnd Hin. rewrite main_trace. intros Hev%plan_subject.
  pose proof (classes_disjoint oldMeta newMeta changedFiles Hnd) as Hd.
  assert (Hu : Meta.file entry ∈ Plan.paths (Incremental.unchanged oldMeta newMeta changedFiles)).
  { apply elem_of_paths. eauto. }
  rewrite !elem_of_union in Hev. destruct Hev as [[[H|H]|H]|H].
  - by apply (Hd 0 4 _ _ ltac:(done) eq_refl eq_refl (Meta.file entry)).
  - by apply (Hd 1 4 _ _ ltac:(done) eq_refl eq_refl (Meta.file entry)).
  - by apply (Hd 2 4 _ _ ltac:(done) eq_refl eq_refl (Meta.file entry)).
  - by apply (Hd 3 4 _ _ ltac:(done) eq_refl eq_refl (Meta.file entry)).
Qed.

Lemma unchanged_entries_are_not_touched_witness :
  ~ In (Store.Sql "b.md" (Store.DeleteExplanation (Incremental.generateExplanationId "b.md")))
       (Store.st_trace
          (Incremental.main Scenarios.fsABC Scenarios.oldAB Scenarios.newAB ∅ Scenarios.db0)).
Proof.
  assert (Hnd : NoDup (map Meta.file Scenarios.newAB))
    by (apply (bool_decide_unpack _); vm_compute; exact I).
  assert (Hin : In (Meta.Entry "b.md" ["Q3"])
                   (Incremental.unchanged Scenarios.oldAB Scenarios.newAB ∅))
    by (vm_compute; left; reflexivity).
  exact (unchanged_entries_are_not_touched Scenarios.fsABC Scenarios.oldAB Scenarios.newAB
           ∅ Scenarios.db0 _ _ Hnd Hin).
Defined.

(** X6: when the paths of the new manifest are unique, an incremental
    run upserts the explanation of a path at most once: the paths of its
    upsert statements are, in order and without repetition, the paths
    of the readable entries among added, linksModified and contentOnly. *)
Theorem incremental_upserts_each_path_once
    (fs : string -> option string) (oldMeta newMeta : list Meta.MetaEntry)
    (changedFiles : gset string) (d : Store.db) :
  NoDup (map Meta.file newMeta) ->
  let t := Store.st_trace (Incremental.main fs oldMeta newMeta changedFiles d) in
  Acts.upsert_paths t
  = map Meta.file
        (List.filter (fun e => bool_decide (is_Some (fs (Meta.file e))))
                     (Incremental.toUpsert oldMeta newMeta changedFiles))
  /\ NoDup (Acts.upsert_paths t).
Proof.
  intros Hnd t. subst t. rewrite main_trace, upsert_paths_plan. split; [done|].
  apply NoDup_map_filter. by apply toUpsert_paths_unique.
Qed.

Lemma incremental_upserts_each_path_once_witness :
  NoDup (Acts.upsert_paths
           (Store.st_trace
              (Incremental.main Scenarios.fsABC Scenarios.oldAB Scenarios.newAB
                                {["b.md"]} Scenarios.db0))).
Proof.
  assert (Hnd : NoDup (map Meta.file Scenarios.newAB))
    by (apply (bool_decide_unpack _); vm_compute; exact I).
  exact (proj2 (incremental_upserts_each_path_once Scenarios.fsABC Scenarios.oldAB
                  Scenarios.newAB {["b.md"]} Scenarios.db0 Hnd)).
Defined.

(** ** The first run *)

Lemma has_empty (k : string) : Meta.has (Meta.toMap []) k = false.
Proof. done. Qed.

Lemma upsertEvents_no_unlink (fs : string -> option string) (l : list Meta.MetaEntry) :
  Acts.unlinks (flat_map (Plan.upsertEvents fs) l) = [].
Proof.
  induction l as [|e l IH]; simpl; [done|].
  rewrite unlinks_app, IH, app_nil_r. unfold Plan.upsertEvents.
  destruct (fs (Meta.file e)); [|done].
  simpl. induction (Meta.questions e); simpl; auto.
Qed.

(** X7: when the previous manifest cannot be loaded ([git show] fails or
    its content does not parse), every entry of the current manifest is
    treated as added, whatever [git diff] reports: the run issues, entry
    by entry in manifest order, the upsert and the links of each
    readable entry and a warning for each unreadable one, and no unlink
    and no delete. *)
Theorem first_run_adds_everything
    (fs : string -> option string) (newMeta : list Meta.MetaEntry)
    (diffOutput : option string) (d : Store.db) :
  let st := Snapshot.sync fs None newMeta diffOutput d in
  Incremental.added (Snapshot.getOldMeta None) newMeta = newMeta
  /\ Store.st_trace st = flat_map (Plan.upsertEvents fs) newMeta
  /\ Acts.unlinks (Store.st_trace st) = []
  /\ Acts.deletes (Store.st_trace st) = [].
Proof.
  assert (Ha : Incremental.added [] newMeta = newMeta).
  { unfold Incremental.added. apply filter_all. intros e _. done. }
  assert (Hk : Incremental.kept [] newMeta = []).
  { unfold Incremental.kept. apply filter_none. intros e _. done. }
  assert (Ht : Store.st_trace (Snapshot.sync fs None newMeta diffOutput d)
               = flat_map (Plan.upsertEvents fs) newMeta).
  { unfold Snapshot.sync. rewrite main_trace. unfold Plan.plan. simpl.
    unfold Incremental.questionsModified, Incremental.contentOnly.
    rewrite Hk, Ha. simpl. by rewrite app_nil_r. }
  simpl. rewrite Ht. repeat split; try done.
  - apply upsertEvents_no_unlink.
  - rewrite <- Ht. unfold Snapshot.sync. rewrite main_trace, deletes_plan. done.
Qed.

(** ** The single-link full rebuild *)

Lemma fold_trace_inv {S X} (f : Store.state S -> X -> Store.state S)
    (P : Store.state S -> Prop) (ev : X -> list Store.event) :
  (forall st x, P st -> P (f st x)
                        /\ Store.st_trace (f st x) = Store.st_trace st ++ ev x) ->
  forall l st, P st ->
    P (fold_left f l st)
    /\ Store.st_trace (fold_left f l st) = Store.st_trace st ++ flat_map ev l.
Proof.
  intros Hstep l. induction l as [|x l IH]; intros st Hst; simpl.
  - by rewrite app_nil_r.
  - destruct (Hstep st x Hst) as [Hp Ht]. destruct (IH _ Hp) as [Hp' Ht'].
    split; [done|]. by rewrite Ht', Ht, <- app_assoc.
Qed.

Section SyncFullTrace.
Import Store Meta Fs SyncFull Acts Report SyncTrace.
Variables (files : gmap string string) (d : db).
Local Arguments exec : simpl never.

Lemma sync_linkQuestion_step f e st q :
  sync d st ->
  sync d (linkQuestion f e st q)
  /\ st_trace (linkQuestion f e st q) = st_trace st ++ linkEvents d f e q.
Proof.
  intros (H1 & H2 & H3 & H4). unfold sync, linkQuestion, linkEvents.
  rewrite (has_question_ext d (st_db st) q H4).
  destruct (has_question d q) eqn:E; simpl; repeat split; count_step;
    rewrite ?E; simpl; rewrite ?app_nil_r; try done; try lia.
  - by rewrite H3.
  - by rewrite <- app_assoc.
Qed.

Lemma processEntry_step st entry :
  sync d st ->
  sync d (processEntry files st entry)
  /\ st_trace (processEntry files st entry) = st_trace st ++ entryEvents files d entry.
Proof.
  intros H. unfold processEntry, entryEvents. destruct (truthy _) as [c|].
  - set (st1 := count incUpserted (issue _ _ st)).
    assert (H1 : sync d st1).
    { destruct H as (H1 & H2 & H3 & H4). subst st1. unfold sync; simpl.
      repeat split; count_step. }
    destruct (fold_trace_inv _ (sync d) _
                (sync_linkQuestion_step (file entry) (generateExplanationId (file entry)))
                (questions entry) st1 H1) as [Hp Ht].
    split; [done|]. rewrite Ht. subst st1. simpl. by rewrite <- app_assoc.
  - destruct H as (H1 & H2 & H3 & H4). unfold sync; simpl.
    repeat split; count_step.
Qed.

Lemma sync_main_trace (meta : list MetaEntry) :
  sync d (fold_left (processEntry files) meta (State d (Stats 0 0 []) []))
  /\ st_trace (fold_left (processEntry files) meta (State d (Stats 0 0 []) []))
     = flat_map (entryEvents files d) meta.
Proof.
  apply (fold_trace_inv _ (sync d) _ processEntry_step meta (State d (Stats 0 0 []) [])).
  by repeat split.
Qed.
End SyncFullTrace.

(** X8: in the single-link full rebuild an entry whose markdown file is
    missing from the content directory, or is empty, is skipped: the run
    warns that the file was not found and issues no statement for that
    path, neither the upsert nor the links of its questions. *)
Theorem full_rebuild_skips_missing_and_empty_files
    (meta : list Meta.MetaEntry) (tree : list Fs.dirent) (d : Store.db)
    (entry : Meta.MetaEntry) :
  In entry meta ->
  (SyncFull.readExplanationsDir tree !! Meta.file entry = None
   \/ SyncFull.readExplanationsDir tree !! Meta.file entry = Some EmptyString) ->
  let t := Store.st_trace (SyncFull.main meta tree d) in
  In (Store.Warn ("Warning: File not found: " +:+ Meta.file entry)) t
  /\ forall o, ~ In (Store.Sql (Meta.file entry) o) t.
Proof.
  intros Hin Hfile t. subst t. unfold SyncFull.main.
  destruct (sync_main_trace (SyncFull.readExplanationsDir tree) d meta) as [_ ->].
  assert (Ht : Fs.truthy (SyncFull.readExplanationsDir tree !! Meta.file entry) = None)
    by (destruct Hfile as [-> | ->]; done).
  split.
  - apply in_flat_map. exists entry. split; [done|].
    unfold SyncTrace.entryEvents. rewrite Ht. by left.
  - intros o (e' & _ & Hev)%in_flat_map. unfold SyncTrace.entryEvents in Hev.
    destruct (Fs.truthy (_ !! Meta.file e')) eqn:E.
    + destruct Hev as [[= He _]|Hev].
      * rewrite He in E. congruence.
      * apply in_flat_map in Hev as (q & _ & Hev). unfold SyncTrace.linkEvents in Hev.
        destruct Hev as [[= He _]|Hev]; [rewrite He in E; congruence|].
        destruct (Acts.has_question d q); [done|]. by destruct Hev as [|[]].
    + by destruct Hev as [|[]].
Qed.

Lemma full_rebuild_skips_missing_and_empty_files_witness :
  In (Store.Warn "Warning: File not found: e.md")
     (Store.st_trace
        (SyncFull.main [Meta.Entry "x.md" ["Q1"]; Meta.Entry "e.md" ["Q2"]]
                       Scenarios.tree Scenarios.db0)).
Proof.
  apply (full_rebuild_skips_missing_and_empty_files
           [Meta.Entry "x.md" ["Q1"]; Meta.Entry "e.md" ["Q2"]] Scenarios.tree Scenarios.db0
           (Meta.Entry "e.md" ["Q2"])).
  - right. left. reflexivity.
  - right. vm_compute. reflexivity.
Defined.

(** X9: the summary of the single-link full rebuild counts its
    statements: one upsert per upsert statement; a link statement counts
    as an updated question when the store has a question with that
    external id, and otherwise its id is listed, in order, among the
    questions not found. *)
Theorem full_rebuild_report_counts_statements
    (meta : list Meta.MetaEntry) (tree : list Fs.dirent) (d : Store.db) :
  let st := SyncFull.main meta tree d in
  let t := Store.st_trace st in
  SyncFull.explanationsUpserted (Store.st_stats st) = length (Acts.upserts t)
  /\ SyncFull.questionsUpdated (Store.st_stats st)
     = length (List.filter (Acts.has_question d) (Acts.linked t))
  /\ SyncFull.questionsNotFound (Store.st_stats st)
     = List.filter (fun q => negb (Acts.has_question d q)) (Acts.linked t).
Proof.
  intros st t.
  destruct (sync_main_trace (SyncFull.readExplanationsDir tree) d meta)
    as [(H1 & H2 & H3 & _) _].
  done.
Qed.

(** ** Which entry a question ends up linked to *)

Section LastLink.
Import Store Acts.

Lemma link_run_untouched (ops : list op) q v :
  (forall e, ~ In (SetQuestionLink q e) ops) ->
  (forall e, ~ In (UnlinkIfMatches q e) ops) ->
  link_run ops q v = v.
Proof.
  revert v. induction ops as [|o ops IH]; intros v Hs Hu; simpl; [done|].
  rewrite IH.
  - destruct o as [q' e| | |q' e| |]; simpl; try done; unfold link_act.
    + case_decide as H; [|done]. destruct H as [-> _]. destruct (Hu e). by left.
    + case_decide as H; [|done]. subst. destruct (Hs e). by left.
  - intros e He. apply (Hs e). by right.
  - intros e He. apply (Hu e). by right.
Qed.

Lemma link_run_set (ops : list op) q e v :
  Forall (fun o => is_assignment o = true) ops ->
  (forall e', In (SetQuestionLink q e') ops -> e' = e) ->
  In (SetQuestionLink q e) ops \/ v = Some e ->
  link_run ops q v = Some e.
Proof.
  intros Hall. revert v. induction Hall as [|o ops Ho _ IH]; intros v Hc Hin; simpl.
  - by destruct Hin as [[]|].
  - apply IH; [intros e' He'; apply Hc; by right|].
    destruct o as [| | |q' e0| |]; try done; unfold link_act.
    + destruct Hin as [[Heq|Hin]|Hv]; [done|by left|by right].
    + case_decide as He.
      * subst q'. right. f_equal. apply Hc. by left.
      * destruct Hin as [[Heq|Hin]|Hv]; [congruence|by left|by right].
Qed.
End LastLink.

(** X10: in the single-link full rebuild the last entry wins: if an
    entry with a loaded, non-empty file lists question [q], and no later
    entry with a loaded file lists [q], then after the run every
    question row with external id [q] points at the explanation id
    derived from that entry's path. *)
Theorem full_rebuild_last_entry_wins
    (before after : list Meta.MetaEntry) (entry : Meta.MetaEntry)
    (tree : list Fs.dirent) (d : Store.db) (q content : string) :
  Fs.truthy (SyncFull.readExplanationsDir tree !! Meta.file entry) = Some content ->
  In q (Meta.questions entry) ->
  (forall later, In later after -> In q (Meta.questions later) ->
     Fs.truthy (SyncFull.readExplanationsDir tree !! Meta.file later) = None) ->
  forall r,
    In r (Store.question_tbl
            (Store.st_db (SyncFull.main (before ++ entry :: after) tree d))) ->
    Store.q_externalId r = q ->
    Store.q_explanationId r = Some (SyncFull.generateExplanationId (Meta.file entry)).
Proof.
  intros Hc Hq Hlater r Hr Hext. unfold SyncFull.main in Hr.
  rewrite sync_main_db in Hr. simpl in Hr.
  rewrite run_question_tbl in Hr. apply in_map_iff in Hr as ([i x v] & <- & _).
  simpl in *. subst x.
  rewrite flat_map_app. simpl. rewrite !link_run_app.
  remember (SyncFull.generateExplanationId (Meta.file entry)) as id eqn:Hid.
  rewrite (link_run_untouched (flat_map _ after)).
  - apply link_run_set.
    + apply entryOps_assign.
    + intros e' He'. unfold SyncPlan.entryOps in He'. rewrite Hc in He'.
      destruct He' as [|He']; [done|].
      apply in_map_iff in He' as (q' & [= _ Heq] & _). rewrite <- Hid in Heq. done.
    + left. unfold SyncPlan.entryOps. rewrite Hc. right. rewrite <- Hid.
      apply in_map_iff. eauto.
  - intros e' (later & Hin & He')%in_flat_map. unfold SyncPlan.entryOps in He'.
    destruct (Fs.truthy (_ !! Meta.file later)) eqn:E; [|done].
    destruct He' as [|He']; [done|].
    apply in_map_iff in He' as (q' & [= -> _] & Hq').
    rewrite (Hlater later Hin Hq') in E. done.
  - intros e' (later & Hin & He')%in_flat_map. unfold SyncPlan.entryOps in He'.
    destruct (Fs.truthy (_ !! Meta.file later)); [|done].
    destruct He' as [|He']; [done|]. by apply in_map_iff in He' as (q' & ? & _).
Qed.

Lemma full_rebuild_last_entry_wins_witness :
  Store.q_explanationId
    (nth 0 (Store.question_tbl
              (Store.st_db
                 (SyncFull.main ([Meta.Entry "x.md" ["Q1"]]
                                 ++ Meta.Entry "sub/y.md" ["Q1"; "Q2"] :: [])
                                Scenarios.tree Scenarios.db0)))
         (Store.Question "" "" None))
  = Some (SyncFull.generateExplanationId "sub/y.md").
Proof.
  apply (full_rebuild_last_entry_wins [Meta.Entry "x.md" ["Q1"]] []
           (Meta.Entry "sub/y.md" ["Q1"; "Q2"]) Scenarios.tree Scenarios.db0 "Q1" "Y").
  - vm_compute. reflexivity.
  - left. reflexivity.
  - intros later [].
  - vm_compute. by left.
  - by vm_compute.
Defined.

(** ** The ordered full rebuild: files, draws and report *)

Section Uniq.
Lemma uniq_from_spec (seen : gset string) (l : list string) :
  NoDup (Js.uniq_from seen l)
  /\ forall x, In x (Js.uniq_from seen l) <-> In x l /\ x ∉ seen.
Proof.
  revert seen. induction l as [|a l IH]; intros seen; simpl.
  - split; [constructor|]. intros x. tauto.
  - destruct (decide (a ∈ seen)) as [Ha|Ha].
    + destruct (IH seen) as [Hnd Hin]. split; [done|]. intros x. rewrite Hin.
      split; [tauto|]. intros [[->|Hx] Hs]; [done|tauto].
    + destruct (IH ({[a]} ∪ seen)) as [Hnd Hin]. split.
      * apply NoDup_cons. split; [|done]. rewrite list_elem_of_In, Hin. set_solver.
      * intros x. simpl. rewrite Hin. split.
        -- intros [->|[Hx Hs]]; [auto|]. split; [auto|set_solver].
        -- intros [[->|Hx] Hs]; [auto|].
           destruct (decide (x = a)) as [->|Hne]; [auto|]. right. split; [done|set_solver].
Qed.

Lemma uniq_NoDup (l : list string) : NoDup (Js.uniq l).
Proof. apply uniq_from_spec. Qed.

Lemma in_uniq (l : list string) x : In x (Js.uniq l) <-> In x l.
Proof.
  unfold Js.uniq. destruct (uniq_from_spec ∅ l) as [_ H]. rewrite H. set_solver.
Qed.
End Uniq.

Section OrderedReport.
Import Store Fs InsertFull Acts Report OrderedPlan.
Variables (files : gmap string string) (uuidv4 : Uuid.rng) (d : db).

Lemma upsertFile_report st file :
  ordered uuidv4 d st -> ordered uuidv4 d (upsertFile files st file).
Proof.
  intros (H1 & H2 & H3 & H4 & H5). unfold ordered, upsertFile.
  destruct (truthy _); simpl; repeat split; count_step.
Qed.

Lemma insertLink_report q qid st item :
  ordered uuidv4 d st -> ordered uuidv4 d (insertLink files uuidv4 q qid st item).
Proof.
  intros (H1 & H2 & H3 & H4 & H5). destruct item as [order file].
  unfold ordered, insertLink.
  destruct (truthy _); simpl; repeat split; count_step.
  rewrite map_app, H4, H3, Nat.add_1_r, seq_S, map_app. done.
Qed.

Lemma ordered_linkQuestion_report st qf :
  ordered uuidv4 d st -> ordered uuidv4 d (linkQuestion files uuidv4 st qf).
Proof.
  intros H. destruct qf as [q fl]. unfold linkQuestion.
  destruct (length fl =? 0)%nat; [done|].
  destruct (select_question q (st_db st)) as [|qid rest].
  - destruct H as (H1 & H2 & H3 & H4 & H5). unfold ordered; simpl.
    repeat split; count_step.
  - apply fold_left_preserves; [intros a b; apply insertLink_report|].
    destruct H as (H1 & H2 & H3 & H4 & H5). unfold ordered; simpl.
    repeat split; count_step.
Qed.

(** The second loop issues no upsert. *)
Lemma insertLink_upsert_paths q qid st item :
  upsert_paths (st_trace (insertLink files uuidv4 q qid st item))
  = upsert_paths (st_trace st).
Proof.
  destruct item as [order file]. unfold insertLink.
  destruct (truthy _); simpl; rewrite upsert_paths_app; simpl; by rewrite app_nil_r.
Qed.

Lemma linkQuestion_upsert_paths st qf :
  upsert_paths (st_trace (linkQuestion files uuidv4 st qf)) = upsert_paths (st_trace st).
Proof.
  destruct qf as [q fl]. unfold linkQuestion.
  destruct (length fl =? 0)%nat; [done|].
  destruct (select_question q (st_db st)) as [|qid rest].
  - simpl. rewrite upsert_paths_app. simpl. by rewrite app_nil_r.
  - generalize (combine (seq 0 (length fl)) fl). intros items.
    transitivity (upsert_paths (st_trace (issue q (DeleteLinks qid) st))).
    + generalize (issue q (DeleteLinks qid) st). induction items as [|item items IH];
        intros s; simpl; [done|]. by rewrite IH, insertLink_upsert_paths.
    + simpl. rewrite upsert_paths_app. simpl. by rewrite app_nil_r.
Qed.

Lemma insertLinks_notFound q qid items st :
  questionsNotFound (st_stats (fold_left (insertLink files uuidv4 q qid) items st))
  = questionsNotFound (st_stats st).
Proof.
  revert st. induction items as [|[order file] items IH]; intros st; simpl; [done|].
  rewrite IH. unfold insertLink. by destruct (truthy _).
Qed.

Lemma linkQuestions_notFound (meta : manifest) st :
  question_tbl (st_db st) = question_tbl d ->
  questionsNotFound (st_stats (fold_left (linkQuestion files uuidv4) meta st))
  = questionsNotFound (st_stats st) ++ unresolved d meta.
Proof.
  revert st. induction meta as [|[q fl] meta IH]; intros st Hq; simpl.
  - by rewrite app_nil_r.
  - destruct (linkQuestion_tables files uuidv4 st (q, fl)) as (Hq' & _ & _).
    simpl in Hq'. rewrite IH by (by rewrite Hq').
    unfold unresolved. simpl.
    assert (Hsel : (0 <? length (select_question q (st_db st)))%nat = has_question d q).
    { apply (has_question_ext d (st_db st) q). unfold ext_ids. by rewrite Hq. }
    unfold linkQuestion.
    destruct (length fl =? 0)%nat; simpl; [done|].
    destruct (select_question q (st_db st)) as [|qid rest]; simpl in Hsel;
      rewrite <- Hsel; simpl.
    + by rewrite <- app_assoc.
    + by rewrite insertLinks_notFound.
Qed.
End OrderedReport.

Lemma upsertFiles_notFound (files : gmap string string) (l : list string)
    (st : Store.state InsertFull.stats) :
  InsertFull.questionsNotFound
    (Store.st_stats (fold_left (InsertFull.upsertFile files) l st))
  = InsertFull.questionsNotFound (Store.st_stats st).
Proof.
  revert st. induction l as [|f l IH]; intros st; simpl; [done|].
  rewrite IH. unfold InsertFull.upsertFile. by destruct (Fs.truthy _).
Qed.

Lemma NoDup_map_seq {A} (f : nat -> A) (n : nat) :
  (forall i j, i < n -> j < n -> f i = f j -> i = j) -> NoDup (map f (seq 0 n)).
Proof.
  intros Hinj. apply NoDup_fmap_2_strong; [|apply NoDup_seq].
  intros i j Hi%elem_of_seq Hj%elem_of_seq. apply Hinj; lia.
Qed.

(** X11: the summary of the ordered full rebuild counts its statements
    (one upsert per upsert statement, one link per inserted row); the
    questions it reports as not found are the manifest keys with a
    non-empty list for which the store has no question, in manifest
    order; the rows inserted in one run take the successive draws of
    [uuidv4()] as row ids, so they are pairwise distinct whenever the
    draws are. *)
Theorem ordered_rebuild_report_and_row_ids
    (meta : InsertFull.manifest) (tree : list Fs.dirent) (uuidv4 : Uuid.rng)
    (d : Store.db) :
  let st := InsertFull.main meta tree uuidv4 d in
  let rows := Acts.inserted (Store.st_trace st) in
  InsertFull.explanationsUpserted (Store.st_stats st)
  = length (Acts.upserts (Store.st_trace st))
  /\ InsertFull.linksInserted (Store.st_stats st) = length rows
  /\ InsertFull.questionsNotFound (Store.st_stats st) = Report.unresolved d meta
  /\ map Store.l_id rows = map uuidv4 (seq 0 (length rows))
  /\ ((forall i j, i < length rows -> j < length rows -> uuidv4 i = uuidv4 j -> i = j) ->
      NoDup (map Store.l_id rows)).
Proof.
  intros st rows.
  assert (H : Report.ordered uuidv4 d st).
  { subst st. unfold InsertFull.main. cbv zeta.
    apply fold_left_preserves; [intros a b; apply ordered_linkQuestion_report|].
    apply fold_left_preserves; [intros a b; apply upsertFile_report|].
    by repeat split. }
  destruct H as (H1 & H2 & H3 & H4 & H5). fold rows in H2, H3, H4.
  repeat split; try done.
  - subst st. unfold InsertFull.main. cbv zeta.
    rewrite (linkQuestions_notFound _ _ d).
    + by rewrite upsertFiles_notFound.
    + rewrite (fold_db _ _ (upsertFile_db _)). simpl.
      rewrite <- sql_ops_flat_map. apply upserts_keep_tables.
  - intros Hinj. rewrite H4. by apply NoDup_map_seq.
Qed.

Lemma ordered_rebuild_report_and_row_ids_witness :
  NoDup (map Store.l_id
           (Acts.inserted
              (Store.st_trace (InsertFull.main Scenarios.orderedMeta Scenarios.tree
                                               Scenarios.rngA Scenarios.db0)))).
Proof.
  apply (proj2 (proj2 (proj2 (proj2
           (ordered_rebuild_report_and_row_ids Scenarios.orderedMeta Scenarios.tree
              Scenarios.rngA Scenarios.db0))))).
  intros i j Hi Hj. vm_compute in Hi, Hj.
  do 4 (destruct i as [|i];
        [do 4 (destruct j as [|j];
               [first [by intros _ | intros H; vm_compute in H; discriminate H]|]); lia|]).
  lia.
Defined.

(** X12: the ordered full rebuild upserts each file of the manifest at
    most once, however many questions list it: the paths of its upsert
    statements are, without repetition, the distinct files of the
    manifest in order of first appearance that were loaded with
    non-empty content; a file that is missing or empty is never
    upserted. *)
Theorem ordered_rebuild_upserts_each_file_once
    (meta : InsertFull.manifest) (tree : list Fs.dirent) (uuidv4 : Uuid.rng)
    (d : Store.db) :
  let files := InsertFull.readExplanationsDir tree in
  let paths := Acts.upsert_paths (Store.st_trace (InsertFull.main meta tree uuidv4 d)) in
  paths = List.filter (fun f => bool_decide (is_Some (Fs.truthy (files !! f))))
                      (InsertFull.uniqueFiles meta)
  /\ NoDup paths
  /\ forall f, In f paths <->
       (exists q fl, In (q, fl) meta /\ In f fl)
       /\ exists c, files !! f = Some c /\ c <> EmptyString.
Proof.
  intros files paths.
  assert (Hp : paths = List.filter (fun f => bool_decide (is_Some (Fs.truthy (files !! f))))
                                   (InsertFull.uniqueFiles meta)).
  { subst paths. unfold InsertFull.main. fold files.
    set (st1 := fold_left (InsertFull.upsertFile files) _ _).
    transitivity (Acts.upsert_paths (Store.st_trace st1)).
    - generalize st1. induction meta as [|qf m IH]; intros s; simpl; [done|].
      by rewrite IH, linkQuestion_upsert_paths.
    - subst st1. rewrite (fold_trace _ _ (upsertFile_trace files)). simpl.
      induction (InsertFull.uniqueFiles meta) as [|f l IH]; simpl; [done|].
      rewrite upsert_paths_app, IH. unfold OrderedPlan.upsertFileEvents.
      destruct (Fs.truthy (files !! f)); simpl; [done|done]. }
  split; [done|]. split.
  - rewrite Hp, <- (map_id (List.filter _ _)). apply NoDup_map_filter.
    rewrite map_id. apply uniq_NoDup.
  - intros f. rewrite Hp, filter_In. unfold InsertFull.uniqueFiles.
    rewrite in_uniq, in_flat_map, bool_decide_eq_true. split.
    + intros [([q fl] & Hin & Hf) [c Hc]]. split; [eauto|].
      apply truthy_Some in Hc. eauto.
    + intros [(q & fl & Hin & Hf) (c & Hc & Hne)]. split; [exists (q, fl); eauto|].
      rewrite Hc. destruct c; [done|]. by eexists.
Qed.

(** ** The ordered full rebuild: links it leaves alone *)

Section StaleLinks.
Import Store Fs InsertFull OrderedPlan.
Variables (files : gmap string string) (uuidv4 : Uuid.rng).

Lemma insertLink_links_of q qid' qid st item :
  qid' <> qid ->
  links_of qid (st_db (insertLink files uuidv4 q qid' st item)) = links_of qid (st_db st).
Proof.
  intros Hne. destruct item as [order file]. unfold insertLink, links_of.
  destruct (truthy _); simpl; [|done].
  rewrite List.filter_app. simpl.
  destruct (String.eqb_spec qid' qid) as [E|E]; [done|]. by rewrite app_nil_r.
Qed.

Lemma linkQuestion_links_of st qf qid :
  target (st_db st) qf <> Some qid ->
  links_of qid (st_db (linkQuestion files uuidv4 st qf)) = links_of qid (st_db st).
Proof.
  destruct qf as [q fl]. unfold target, linkQuestion. simpl.
  destruct (length fl =? 0)%nat; [done|].
  destruct (select_question q (st_db st)) as [|qid' rest]; [done|].
  intros Hne. assert (Hq : qid' <> qid) by congruence.
  transitivity (links_of qid (st_db (issue q (DeleteLinks qid') st))).
  - generalize (issue q (DeleteLinks qid') st).
    induction (combine (seq 0 (length fl)) fl) as [|item items IH]; intros s; simpl; [done|].
    by rewrite IH, insertLink_links_of.
  - unfold links_of. simpl. rewrite filter_filter. apply filter_ext. intros l.
    destruct (String.eqb_spec (l_questionId l) qid) as [E|E]; [|by rewrite andb_false_r].
    rewrite andb_true_r. destruct (String.eqb_spec (l_questionId l) qid'); [congruence|done].
Qed.

Lemma targets_ext (d d' : db) (meta : manifest) :
  question_tbl d = question_tbl d' -> targets d meta = targets d' meta.
Proof.
  intros H. unfold targets. induction meta as [|qf meta IH]; simpl; [done|].
  by rewrite IH, (target_ext d d' qf H).
Qed.

Lemma linkQuestions_links_of (meta : manifest) st qid :
  ~ In qid (targets (st_db st) meta) ->
  links_of qid (st_db (fold_left (linkQuestion files uuidv4) meta st))
  = links_of qid (st_db st).
Proof.
  revert st. induction meta as [|qf meta IH]; intros st Hn; simpl; [done|].
  destruct (linkQuestion_tables files uuidv4 st qf) as (Hq & _ & _). simpl in Hq.
  unfold targets in Hn. simpl in Hn. fold (targets (st_db st) meta) in Hn.
  rewrite IH.
  - apply linkQuestion_links_of. intros Ht. rewrite Ht in Hn. apply Hn. by left.
  - rewrite (targets_ext _ (st_db st) meta Hq). intros Hin. apply Hn.
    apply in_app_iff. by right.
Qed.
End StaleLinks.

(** X13: the ordered full rebuild leaves the stored links of a question
    row exactly as they were unless some manifest key with a non-empty
    list resolves to that row.  In particular a question whose list in
    the manifest is empty keeps the links it had: they are not deleted. *)
Theorem ordered_rebuild_keeps_untargeted_links
    (meta : InsertFull.manifest) (tree : list Fs.dirent) (uuidv4 : Uuid.rng)
    (d : Store.db) :
  let d' := Store.st_db (InsertFull.main meta tree uuidv4 d) in
  (forall qid, ~ In qid (OrderedPlan.targets d meta) ->
     OrderedPlan.links_of qid d' = OrderedPlan.links_of qid d)
  /\ (NoDup (map fst meta) ->
      NoDup (map Store.q_id (Store.question_tbl d)) ->
      forall q qid rest,
        In (q, []) meta -> Store.select_question q d = qid :: rest ->
        OrderedPlan.links_of qid d' = OrderedPlan.links_of qid d).
Proof.
  intros d'.
  assert (H1 : forall qid, ~ In qid (OrderedPlan.targets d meta) ->
                 OrderedPlan.links_of qid d' = OrderedPlan.links_of qid d).
  { intros qid Hn. subst d'. unfold InsertFull.main. cbv zeta.
    set (st1 := fold_left (InsertFull.upsertFile _) _ _).
    assert (Hdb : Store.question_tbl (Store.st_db st1) = Store.question_tbl d
                  /\ Store.link_tbl (Store.st_db st1) = Store.link_tbl d).
    { subst st1. rewrite (fold_db _ _ (upsertFile_db _)). simpl.
      rewrite <- sql_ops_flat_map. apply upserts_keep_tables. }
    destruct Hdb as [Hq Hl].
    rewrite linkQuestions_links_of.
    - unfold OrderedPlan.links_of. by rewrite Hl.
    - by rewrite (targets_ext _ d meta Hq). }
  split; [done|].
  intros Hkeys Hids q qid rest Hin Hsel. apply H1.
  destruct (in_split _ _ Hin) as (m1 & m2 & ->).
  rewrite map_app in Hkeys. simpl in Hkeys.
  apply NoDup_app in Hkeys as (_ & Hk1 & Hk2).
  apply NoDup_cons in Hk2 as [Hk2 _]. rewrite list_elem_of_In in Hk2.
  unfold OrderedPlan.targets. rewrite flat_map_app. simpl.
  rewrite in_app_iff. intros [Hm|Hm].
  - apply (targets_other d m1 q qid rest Hids Hsel); [|done].
    intros Hq. apply (Hk1 q); [by apply list_elem_of_In|]. left.
  - by apply (targets_other d m2 q qid rest Hids Hsel).
Qed.

Lemma ordered_rebuild_keeps_untargeted_links_witness :
  OrderedPlan.links_of "2"
    (Store.st_db (InsertFull.main Scenarios.orderedMeta Scenarios.tree Scenarios.rngA
                                  Scenarios.db0))
  = OrderedPlan.links_of "2" Scenarios.db0.
Proof.
  apply (proj1 (ordered_rebuild_keeps_untargeted_links Scenarios.orderedMeta Scenarios.tree
                  Scenarios.rngA Scenarios.db0)).
  vm_compute. intros [H|[H|[]]]; discriminate.
Defined.

(** ** The two directory readers *)

Section Readers.
Import Fs.

Lemma readers_agree_entry :
  forall entry rel (fi fs : gmap string string),
    (forall p, Js.endsWith p ".md" = true -> fi !! p = fs !! p) ->
    (forall p c, fs !! p = Some c -> Js.endsWith p ".md" = true) ->
    (forall p, Js.endsWith p ".md" = true ->
       InsertFull.readEntry rel fi entry !! p = SyncFull.readEntry rel fs entry !! p)
    /\ (forall p c, SyncFull.readEntry rel fs entry !! p = Some c ->
          Js.endsWith p ".md" = true).
Proof.
  fix IH 1. intros [name content|name entries] rel fi fs Hagree Hmd; simpl.
  - destruct (Js.endsWith name ".md") eqn:Emd.
    + pose proof (endsWith_relPath rel name _ Emd) as Hk. split.
      * intros p Hp. destruct (decide (relPath rel name = p)) as [<-|Hne].
        -- by rewrite !lookup_insert_eq.
        -- rewrite !lookup_insert_ne by done. by apply Hagree.
      * intros p c [[<- _]|[_ Hp]]%lookup_insert_Some; [done|by apply (Hmd p c)].
    + split; [|done]. destruct (Js.endsWith name ".svg") eqn:Esvg; [|done].
      intros p Hp. pose proof (endsWith_relPath rel name _ Esvg) as Hk.
      rewrite lookup_insert_ne; [by apply Hagree|].
      intros <-. by destruct (md_is_not_svg _ Hp Hk).
  - assert (Hsub : forall (gi gs : gmap string string),
              (forall p, Js.endsWith p ".md" = true -> gi !! p = gs !! p) ->
              (forall p c, gs !! p = Some c -> Js.endsWith p ".md" = true) ->
              (forall p, Js.endsWith p ".md" = true ->
                 fold_left (InsertFull.readEntry (relPath rel name)) entries gi !! p
                 = fold_left (SyncFull.readEntry (relPath rel name)) entries gs !! p)
              /\ (forall p c,
                    fold_left (SyncFull.readEntry (relPath rel name)) entries gs !! p
                    = Some c -> Js.endsWith p ".md" = true)).
    { induction entries as [|e es IHes]; intros gi gs Ha Hm; simpl; [done|].
      destruct (IH e (relPath rel name) gi gs Ha Hm) as [Ha' Hm']. by apply IHes. }
    destruct (Hsub ∅ ∅) as [Ha' Hm']; [done|by intros p c; rewrite lookup_empty|].
    split.
    + intros p Hp. rewrite !lookup_union, (Ha' p Hp), (Hagree p Hp). done.
    + intros p c [Hp|[_ Hp]]%lookup_union_Some_raw; [by apply (Hm' p c)|by apply (Hmd p c)].
Qed.
End Readers.

(** X14: the directory reader of the single-link full rebuild loads only
    paths ending in [.md], and on those paths the reader of the ordered
    full rebuild returns the same content: the two readers differ only
    by the generated entries for [.svg] files. *)
Theorem directory_readers_agree_on_markdown (tree : list Fs.dirent) :
  (forall p, Js.endsWith p ".md" = true ->
     InsertFull.readExplanationsDir tree !! p = SyncFull.readExplanationsDir tree !! p)
  /\ (forall p c, SyncFull.readExplanationsDir tree !! p = Some c ->
        Js.endsWith p ".md" = true)
  /\ (forall p c, InsertFull.readExplanationsDir tree !! p = Some c ->
        Js.endsWith p ".md" = false ->
        Js.endsWith p ".svg" = true /\ SyncFull.readExplanationsDir tree !! p = None).
Proof.
  unfold InsertFull.readExplanationsDir, SyncFull.readExplanationsDir.
  assert (H : forall (gi gs : gmap string string),
            (forall p, Js.endsWith p ".md" = true -> gi !! p = gs !! p) ->
            (forall p c, gs !! p = Some c -> Js.endsWith p ".md" = true) ->
            (forall p, Js.endsWith p ".md" = true ->
               fold_left (InsertFull.readEntry EmptyString) tree gi !! p
               = fold_left (SyncFull.readEntry EmptyString) tree gs !! p)
            /\ (forall p c,
                  fold_left (SyncFull.readEntry EmptyString) tree gs !! p = Some c ->
                  Js.endsWith p ".md" = true)).
  { induction tree as [|e es IHes]; intros gi gs Ha Hm; simpl; [done|].
    destruct (readers_agree_entry e EmptyString gi gs Ha Hm) as [Ha' Hm']. by apply IHes. }
  destruct (H ∅ ∅) as [Ha Hm]; [done|by intros p c; rewrite lookup_empty|].
  split; [done|]. split; [done|].
  intros p c Hp Hnmd.
  destruct (readExplanationsDir_loaded tree p c Hp) as [[Hmd|Hsvg] _]; [congruence|].
  split; [done|].
  destruct (fold_left (SyncFull.readEntry EmptyString) tree ∅ !! p) as [c'|] eqn:E; [|done].
  apply Hm in E. congruence.
Qed.

Lemma directory_readers_agree_on_markdown_witness :
  InsertFull.readExplanationsDir Scenarios.tree !! "sub/d2/z.md"
  = SyncFull.readExplanationsDir Scenarios.tree !! "sub/d2/z.md".
Proof.
  apply (proj1 (directory_readers_agree_on_markdown Scenarios.tree) "sub/d2/z.md").
  reflexivity.
Defined.

(** ** The generated reference of an [.svg] file *)

Lemma HEX_digit_not_slash (d : Z) :
  (0 <= d < 16)%Z -> Bytes.HEX_digit d <> "/"%char.
Proof.
  intros Hd. replace d with (Z.of_nat (Z.to_nat d)) by lia.
  assert (Hn : (Z.to_nat d < 16)%nat) by lia. revert Hn.
  generalize (Z.to_nat d). intros n Hn.
  do 16 (destruct n as [|n]; [vm_compute; discriminate|]). lia.
Qed.

Lemma encodeURIComponent_no_slash (s : string) :
  ~ In "/"%char (list_ascii_of_string (Js.encodeURIComponent s)).
Proof.
  induction s as [|c s IH]; simpl; [tauto|].
  rewrite list_ascii_app, in_app_iff. intros [H|H]; [|done].
  destruct (Js.uri_unreserved c) eqn:E; simpl in H.
  - destruct H as [->|[]]. vm_compute in E. discriminate.
  - pose proof (nat_ascii_bounded c) as Hc.
    set (n := Z.of_nat (nat_of_ascii c)) in *.
    assert (Hn : (0 <= n < 256)%Z) by lia.
    destruct H as [H|[H|[H|[]]]]; [discriminate| |].
    + revert H. apply HEX_digit_not_slash.
      rewrite Z.shiftr_div_pow2 by lia. change (2 ^ 4)%Z with 16%Z.
      split; [apply Z.div_pos; lia|apply Z.div_lt_upper_bound; lia].
    + revert H. apply HEX_digit_not_slash.
      change 15%Z with (Z.ones 4). rewrite Z.land_ones by lia.
      apply Z.mod_pos_bound. lia.
Qed.

Lemma list_ascii_inj (a b : string) :
  list_ascii_of_string a = list_ascii_of_string b -> a = b.
Proof.
  intros H. rewrite <- (string_of_list_ascii_of_string a), H.
  apply string_of_list_ascii_of_string.
Qed.

(** X15: the reference generated for an [.svg] file never contains the
    path as it stands once the file lies in a sub-directory: the path
    is percent-encoded as one URI component, so no [/] of it survives
    and the separator of a nested path is written [%2F]. *)
Theorem svg_reference_encodes_separators :
  (forall p, ~ In "/"%char (list_ascii_of_string (Js.encodeURIComponent p)))
  /\ (forall rel name, rel <> EmptyString ->
        InsertFull.svgContent (Fs.relPath rel name)
        <> "![](" +:+ InsertFull.SVGS_BASE_URL +:+ Fs.relPath rel name +:+ ")")
  /\ InsertFull.svgContent (Fs.relPath "img" "a.svg")
     = "![](" +:+ InsertFull.SVGS_BASE_URL +:+ "img%2Fa.svg" +:+ ")".
Proof.
  split; [apply encodeURIComponent_no_slash|]. split; [|by vm_compute].
  intros rel name Hrel Heq. unfold InsertFull.svgContent in Heq.
  apply (f_equal list_ascii_of_string) in Heq.
  rewrite !list_ascii_app in Heq.
  apply app_inv_head in Heq. rewrite <- app_assoc in Heq.
  apply app_inv_head in Heq. apply app_inv_tail in Heq.
  apply (encodeURIComponent_no_slash (Fs.relPath rel name)). rewrite Heq.
  destruct rel as [|c rel]; [done|]. unfold Fs.relPath.
  rewrite !list_ascii_app, !in_app_iff. right. left. by left.
Qed.

Lemma svg_reference_encodes_separators_witness :
  InsertFull.svgContent (Fs.relPath "img" "a.svg")
  <> "![](" +:+ InsertFull.SVGS_BASE_URL +:+ Fs.relPath "img" "a.svg" +:+ ")".
Proof.
  apply (proj1 (proj2 svg_reference_encodes_separators)). discriminate.
Defined.

(** ** The shape of the hash-derived identifier *)

Section HashId.
Import Xxh64.
Local Open Scope Z_scope.

Lemma u64_range (x : Z) : 0 <= u64 x < 2 ^ 64.
Proof.
  unfold u64. change 0xFFFFFFFFFFFFFFFF with (Z.ones 64).
  rewrite Z.land_ones by lia. apply Z.mod_pos_bound. lia.
Qed.

Lemma lxor_range (a b : Z) :
  0 <= a < 2 ^ 64 -> 0 <= b < 2 ^ 64 -> 0 <= Z.lxor a b < 2 ^ 64.
Proof.
  intros Ha Hb.
  assert (H0 : 0 <= Z.lxor a b) by (apply Z.lxor_nonneg; lia).
  split; [done|].
  destruct (Z.eq_dec (Z.lxor a b) 0) as [->|Hne]; [lia|].
  apply Z.log2_lt_pow2; [lia|].
  pose proof (Z.log2_lxor a b ltac:(lia) ltac:(lia)) as Hl.
  assert (Hla : Z.log2 a < 64).
  { destruct (Z.eq_dec a 0) as [->|?]; [simpl; lia|]. apply Z.log2_lt_pow2; lia. }
  assert (Hlb : Z.log2 b < 64).
  { destruct (Z.eq_dec b 0) as [->|?]; [simpl; lia|]. apply Z.log2_lt_pow2; lia. }
  lia.
Qed.

Lemma avalanche_range (h : Z) : 0 <= avalanche h < 2 ^ 64.
Proof.
  unfold avalanche. cbv zeta.
  set (h2 := u64 (Z.lxor (u64 _) _ * P3)).
  pose proof (u64_range (Z.lxor (u64 (Z.lxor h (Z.shiftr h 33) * P2))
                           (Z.shiftr (u64 (Z.lxor h (Z.shiftr h 33) * P2)) 29) * P3)) as Hh.
  fold h2 in Hh. apply lxor_range; [done|].
  rewrite Z.shiftr_div_pow2 by lia.
  split; [apply Z.div_pos; lia|].
  apply Z.div_lt_upper_bound; [lia|]. lia.
Qed.

Lemma h64_range (input : list Z) (seed : Z) : 0 <= h64 input seed < 2 ^ 64.
Proof.
  unfold h64. cbv zeta.
  repeat match goal with
         | |- context [let '(_, _) := ?x in _] => destruct x
         end.
  apply avalanche_range.
Qed.

Lemma to_hex_length (k : nat) :
  forall (fuel : nat) (x : Z) (acc : string),
    (S k <= fuel)%nat -> 0 <= x < 16 ^ Z.of_nat (S k) ->
    ((0 < k)%nat -> 16 ^ Z.of_nat k <= x) ->
    String.length (to_hex fuel x acc) = (S k + String.length acc)%nat.
Proof.
  induction k as [|k IH]; intros fuel x acc Hf Hx Hlow.
  - destruct fuel as [|fuel]; [lia|]. simpl.
    change (16 ^ Z.of_nat 1) with 16 in Hx.
    destruct (Z.ltb_spec x 16); [done|lia].
  - destruct fuel as [|fuel]; [lia|]. simpl to_hex. cbv zeta.
    assert (H16 : 16 <= x).
    { specialize (Hlow ltac:(lia)).
      assert (16 ^ 1 <= 16 ^ Z.of_nat (S k)) by (apply Z.pow_le_mono_r; lia). lia. }
    destruct (Z.ltb_spec x 16); [lia|].
    rewrite IH; [simpl; lia|lia| |].
    + rewrite Z.shiftr_div_pow2 by lia. change (2 ^ 4) with 16.
      split; [apply Z.div_pos; lia|].
      apply Z.div_lt_upper_bound; [lia|].
      replace (Z.of_nat (S (S k))) with (Z.succ (Z.of_nat (S k))) in Hx by lia.
      rewrite Z.pow_succ_r in Hx by lia. lia.
    + intros Hk. specialize (Hlow ltac:(lia)).
      rewrite Z.shiftr_div_pow2 by lia. change (2 ^ 4) with 16.
      apply Z.div_le_lower_bound; [lia|].
      replace (Z.of_nat (S k)) with (Z.succ (Z.of_nat k)) in Hlow by lia.
      rewrite Z.pow_succ_r in Hlow by lia. lia.
Qed.

Lemma toString16_length (x : Z) :
  0 <= x < 2 ^ 64 ->
  (1 <= String.length (toString16 x) <= 16)%nat
  /\ (String.length (toString16 x) = 16%nat <-> 2 ^ 60 <= x).
Proof.
  intros Hx.
  assert (Hk : exists k, (k < 16)%nat /\ x < 16 ^ Z.of_nat (S k)
                         /\ ((0 < k)%nat -> 16 ^ Z.of_nat k <= x)).
  { assert (Hb : x < 16 ^ Z.of_nat (S 15)) by (change (16 ^ Z.of_nat 16) with (2 ^ 64); lia).
    assert (Hg : forall n, x < 16 ^ Z.of_nat (S n) ->
                   exists k, (k <= n)%nat /\ x < 16 ^ Z.of_nat (S k)
                             /\ ((0 < k)%nat -> 16 ^ Z.of_nat k <= x)).
    { induction n as [|n IHn]; intros Hn.
      - exists 0%nat. split; [lia|]. split; [done|lia].
      - destruct (Z.lt_ge_cases x (16 ^ Z.of_nat (S n))) as [Hlt|Hge].
        + destruct (IHn Hlt) as (k & Hk1 & Hk2 & Hk3). exists k. split; [lia|done].
        + exists (S n). split; [lia|]. split; [done|]. by intros _. }
    destruct (Hg 15%nat Hb) as (k & Hk1 & Hk2 & Hk3). exists k. split; [lia|done]. }
  destruct Hk as (k & Hk & Hup & Hlow).
  unfold toString16. rewrite (to_hex_length k) by (try lia; done). simpl String.length.
  split; [lia|].
  change (2 ^ 60) with (16 ^ Z.of_nat 15). split.
  - intros E. assert (k = 15%nat) by lia. subst k. apply Hlow. lia.
  - intros Hge. destruct (decide (k = 15%nat)) as [->|Hne]; [done|].
    assert (16 ^ Z.of_nat (S k) <= 16 ^ Z.of_nat 15) by (apply Z.pow_le_mono_r; lia).
    lia.
Qed.
End HashId.

Lemma substring_length (s : string) :
  forall n m, String.length (substring n m s) = Nat.min m (String.length s - n).
Proof.
  induction s as [|c s IH]; intros [|n] [|m]; simpl; rewrite ?IH, ?Nat.sub_0_r; done.
Qed.

Lemma string_length_app (a b : string) :
  String.length (a +:+ b) = String.length a + String.length b.
Proof. induction a as [|c a IH]; simpl; [done|]. by rewrite IH. Qed.

(** X16: the identifier of the single-link full rebuild is the
    hexadecimal form of the 64-bit hash, cut into groups of 8, 4 and 4
    digits and followed by the constant tail, without padding: its
    length is 20 plus the number of digits of the hash, so it has the 36
    characters of a UUID exactly when the hash is at least 2^60, and it
    is shorter otherwise (35 characters for [g.md]). *)
Theorem hash_id_is_not_padded (filePath : string) :
  let h := Xxh64.h64 (Bytes.of_string filePath) 0 in
  let id := SyncFull.generateExplanationId filePath in
  (0 <= h < 2 ^ 64)%Z
  /\ String.length id = 20 + String.length (Xxh64.toString16 h)
  /\ 21 <= String.length id <= 36
  /\ (String.length id = 36 <-> (2 ^ 60 <= h)%Z)
  /\ Js.endsWith id "-0000-000000000000" = true.
Proof.
  intros h id.
  pose proof (h64_range (Bytes.of_string filePath) 0) as Hh. fold h in Hh.
  destruct (toString16_length h Hh) as [Hlen H16].
  assert (Hid : String.length id = 20 + String.length (Xxh64.toString16 h)).
  { subst id. unfold SyncFull.generateExplanationId. cbv zeta. fold h.
    unfold Js.slice. rewrite !string_length_app, !substring_length. simpl String.length. lia. }
  split; [done|]. split; [done|]. split; [lia|]. split.
  - rewrite <- H16. lia.
  - subst id. unfold SyncFull.generateExplanationId, Js.endsWith. cbv zeta.
    apply bool_decide_eq_true. rewrite !list_ascii_app.
    rewrite !app_assoc. apply suffix_app_r. done.
Qed.

(** The path [g.md] hashes below 2^60. *)
Example hash_id_of_g_md :
  SyncFull.generateExplanationId "g.md" = "978d9c27-e772-322-0000-000000000000".
Proof. by vm_compute. Qed.

(** ** Reading the list of changed files *)

Section ChangedFiles.
Import Text Git.
















End ChangedFiles.



(** The paths [git] prints as they stand are recovered; the path of the
    repository's own explanation is printed quoted and is not. *)
Example changed_files_of_this_repository :
  Snapshot.diff_output ["łączność/alfabet-fonetyczny.md"]
  = String Js.dquote
      ("explanations/\305\202\304\205czno\305\233\304\207/alfabet-fonetyczny.md"
       +:+ String Js.dquote (String Text.newline EmptyString))
  /\ Snapshot.getChangedExplanationFiles
       (Some (Snapshot.diff_output ["a.md"; "sub/b c.md"; "p.svg"]))
     = list_to_set ["a.md"; "sub/b c.md"; "p.svg"].
Proof. split; by vm_compute. Qed.

(** ** Comparing the question lists of an entry *)

Lemma string_app_assoc (a b c : string) : (a +:+ b) +:+ c = a +:+ (b +:+ c).
Proof.
  induction a as [|x a IH]; [done|].
  change (String x ((a +:+ b) +:+ c) = String x (a +:+ (b +:+ c))). by rewrite IH.
Qed.

Lemma unescape_json_char (c : ascii) (rest : string) :
  Json.unescape (Js.json_char c +:+ rest) = Some (c, rest).
Proof. destruct c as [[] [] [] [] [] [] [] []]; reflexivity. Qed.

Lemma json_chars_inj (s : string) :
  forall s' rest rest',
    Js.json_chars s +:+ String Js.dquote rest
    = Js.json_chars s' +:+ String Js.dquote rest' ->
    s = s' /\ rest = rest'.
Proof.
  induction s as [|c s IH]; intros [|c' s'] rest rest' H; simpl in H.
  - by injection H as ->.
  - apply (f_equal Json.unescape) in H.
    rewrite string_app_assoc, unescape_json_char in H. discriminate.
  - apply (f_equal Json.unescape) in H.
    rewrite string_app_assoc, unescape_json_char in H. discriminate.
  - apply (f_equal Json.unescape) in H.
    rewrite !string_app_assoc, !unescape_json_char in H.
    injection H as -> H. by destruct (IH _ _ _ H) as [-> ->].
Qed.

Lemma json_string_app (x rest : string) :
  Js.json_string x +:+ rest
  = String Js.dquote (Js.json_chars x +:+ String Js.dquote rest).
Proof.
  unfold Js.json_string.
  change (String Js.dquote ((Js.json_chars x +:+ String Js.dquote EmptyString) +:+ rest)
          = String Js.dquote (Js.json_chars x +:+ String Js.dquote rest)).
  by rewrite string_app_assoc.
Qed.

Lemma stringify_items (x : string) (l : list string) :
  String.concat "," (map Js.json_string (x :: l)) +:+ "]"
  = String Js.dquote
      (Js.json_chars x
       +:+ String Js.dquote
             (match l with
              | [] => "]"
              | _ => "," +:+ (String.concat "," (map Js.json_string l) +:+ "]")
              end)).
Proof.
  destruct l as [|y l].
  - apply json_string_app.
  - change (String.concat "," (map Js.json_string (x :: y :: l)))
      with (Js.json_string x +:+ "," +:+ String.concat "," (map Js.json_string (y :: l))).
    by rewrite string_app_assoc, json_string_app, string_app_assoc.
Qed.

Lemma JSON_stringify_inj (l l' : list string) :
  Js.JSON_stringify l = Js.JSON_stringify l' -> l = l'.
Proof.
  unfold Js.JSON_stringify. intros H. injection H as H. revert l' H.
  induction l as [|x l IH]; intros [|x' l'] H.
  - done.
  - rewrite stringify_items in H. discriminate.
  - rewrite stringify_items in H. discriminate.
  - rewrite !stringify_items in H. injection H as H.
    apply json_chars_inj in H as [-> H]. f_equal.
    destruct l as [|y l], l' as [|y' l']; try done; try discriminate.
    injection H as H. by apply IH.
Qed.

Lemma string_leb_trans (s t u : string) :
  String.leb s t = true -> String.leb t u = true -> String.leb s u = true.
Proof.
  unfold String.leb. revert t u.
  induction s as [|a s IH]; intros [|b t] [|c u]; simpl; try done.
  unfold Ascii.compare.
  destruct (N.compare_spec (N_of_ascii a) (N_of_ascii b)),
           (N.compare_spec (N_of_ascii b) (N_of_ascii c)),
           (N.compare_spec (N_of_ascii a) (N_of_ascii c));
    try done; try lia.
  apply IH.
Qed.

#[local] Instance le_trans_inst : Transitive Order.le.
Proof. intros s t u. apply string_leb_trans. Qed.

#[local] Instance le_antisym_inst : AntiSymm eq Order.le.
Proof. intros s t. apply String.leb_antisym. Qed.

Lemma sort_insert_perm (x : string) (l : list string) : Js.sort_insert x l ≡ₚ x :: l.
Proof.
  induction l as [|y l IH]; simpl; [done|].
  destruct (String.leb x y); [done|]. by rewrite IH, Permutation_swap.
Qed.

Lemma sort_perm (l : list string) : Js.sort l ≡ₚ l.
Proof.
  induction l as [|x l IH]; simpl; [done|]. by rewrite sort_insert_perm, IH.
Qed.

Lemma sort_insert_sorted (x : string) (l : list string) :
  Sorted Order.le l -> Sorted Order.le (Js.sort_insert x l).
Proof.
  induction l as [|y l IH]; intros Hs; simpl.
  - by repeat constructor.
  - destruct (String.leb x y) eqn:E.
    + constructor; [done|]. by constructor.
    + apply Sorted_inv in Hs as [Hs Hhd]. constructor; [by apply IH|].
      assert (Hyx : Order.le y x).
      { destruct (String.leb_total x y) as [H|H]; [congruence|done]. }
      destruct l as [|z l]; simpl.
      * by constructor.
      * destruct (String.leb x z); constructor; [done|].
        by apply HdRel_inv in Hhd.
Qed.

Lemma sort_sorted (l : list string) : Sorted Order.le (Js.sort l).
Proof.
  induction l as [|x l IH]; simpl; [constructor|]. by apply sort_insert_sorted.
Qed.

Lemma sort_eq_iff (a b : list string) : Js.sort a = Js.sort b <-> a ≡ₚ b.
Proof.
  split.
  - intros H. by rewrite <- (sort_perm a), H, sort_perm.
  - intros H. apply (Sorted_unique Order.le); [apply sort_sorted..|].
    by rewrite !sort_perm.
Qed.

(** X18: an entry kept from the old manifest counts as modified exactly
    when its old and new question lists are not permutations of each
    other: the comparison ignores the order of the questions, but not
    how often a question is listed. *)
Theorem questions_are_compared_up_to_order (oldMeta : list Meta.MetaEntry)
    (e : Meta.MetaEntry) :
  Incremental.questionsDiffer oldMeta e = false
  <-> Incremental.oldQuestions oldMeta e ≡ₚ Meta.questions e.
Proof.
  unfold Incremental.questionsDiffer.
  rewrite negb_false_iff, String.eqb_eq, <- sort_eq_iff.
  split; [apply JSON_stringify_inj|by intros ->].
Qed.

(** A repeated question makes the lists differ; a reordering does not. *)
Example repeated_question_is_a_modification :
  let old := [Meta.Entry "a.md" ["Q1"; "Q2"]] in
  Incremental.questionsDiffer old (Meta.Entry "a.md" ["Q2"; "Q1"]) = false
  /\ Incremental.questionsDiffer old (Meta.Entry "a.md" ["Q1"; "Q2"; "Q1"]) = true.
Proof. by vm_compute. Qed.

(** ** What the directory readers load *)

Section Loading.
Import Fs Walk.

Lemma to_map_rev_app (a b : list (string * string)) :
  (list_to_map (rev (a ++ b)) : gmap string string)
  = list_to_map (rev b) ∪ list_to_map (rev a).
Proof. by rewrite rev_app_distr, list_to_map_app. Qed.

Section Reader.
Variable keep : string * (string * string) -> list (string * string).
Variable readEntry : string -> gmap string string -> dirent -> gmap string string.
Hypothesis read_file : forall rel acc name content,
  readEntry rel acc (File name content)
  = list_to_map (rev (keep (name, (relPath rel name, content)))) ∪ acc.
Hypothesis read_dir : forall rel acc name entries,
  readEntry rel acc (Dir name entries)
  = fold_left (readEntry (relPath rel name)) entries ∅ ∪ acc.

Lemma readEntries_walk (rel : string) (entries : list dirent) :
  (forall e, In e entries -> forall rel acc,
     readEntry rel acc e = list_to_map (rev (flat_map keep (walk rel e))) ∪ acc) ->
  forall acc,
    fold_left (readEntry rel) entries acc
    = list_to_map (rev (flat_map keep (flat_map (walk rel) entries))) ∪ acc.
Proof.
  induction entries as [|e es IHes]; intros He acc; simpl.
  - by rewrite (left_id_L ∅ (∪)).
  - rewrite IHes by (intros e' He'; apply He; by right).
    rewrite (He e (or_introl eq_refl)), flat_map_app, to_map_rev_app.
    by rewrite (assoc_L (∪)).
Qed.

Lemma readEntry_walk :
  forall entry rel acc,
    readEntry rel acc entry = list_to_map (rev (flat_map keep (walk rel entry))) ∪ acc.
Proof.
  fix IH 1. intros [name content|name entries] rel acc.
  - rewrite read_file. simpl. by rewrite app_nil_r.
  - rewrite read_dir, readEntries_walk.
    + by rewrite (right_id_L ∅ (∪)).
    + clear rel acc. induction entries as [|e es IHes]; intros e' He'; [destruct He'|].
      destruct He' as [<-|He']; [apply IH|by apply IHes].
Qed.
End Reader.

Lemma last_binding (l : list (string * string)) (p c : string) :
  NoDup (map fst l) -> In (p, c) l ->
  (list_to_map (rev l) : gmap string string) !! p = Some c.
Proof.
  induction l as [|[k v] l IH]; intros Hnd Hin; [destruct Hin|].
  simpl in Hnd. apply NoDup_cons in Hnd as [Hk Hnd]. rewrite list_elem_of_In in Hk.
  simpl rev. rewrite list_to_map_app.
  destruct Hin as [[= -> ->]|Hin].
  - destruct (list_to_map (rev l) !! p) as [c'|] eqn:E.
    + apply elem_of_list_to_map_2, list_elem_of_In, in_rev in E.
      destruct Hk. by apply (in_map fst) in E.
    + rewrite lookup_union_r by done. simpl. apply lookup_insert_eq.
  - apply lookup_union_Some_l. by apply IH.
Qed.

Lemma kept_paths (keep : string * (string * string) -> list (string * string))
    (l : list (string * (string * string))) :
  (forall f, map fst (keep f) = [] \/ map fst (keep f) = [f.2.1]) ->
  NoDup (map (fun f => f.2.1) l) -> NoDup (map fst (flat_map keep l)).
Proof.
  intros Hkeep. induction l as [|f l IH]; intros Hnd; simpl; [constructor|].
  simpl in Hnd. apply NoDup_cons in Hnd as [Hf Hnd]. rewrite list_elem_of_In in Hf.
  rewrite map_app. destruct (Hkeep f) as [->| ->]; simpl; [by apply IH|].
  apply NoDup_cons. split; [|by apply IH].
  rewrite list_elem_of_In. intros Hin. apply Hf. clear -Hin Hkeep.
  induction l as [|g l IH]; [done|]. simpl in *. rewrite map_app, in_app_iff in Hin.
  destruct Hin as [Hin|Hin]; [|right; by apply IH].
  destruct (Hkeep g) as [E|E]; rewrite E in Hin; [done|].
  destruct Hin as [<-|[]]. by left.
Qed.
End Loading.

(** X19: each directory reader returns the files of the tree under
    their paths relative to the content directory, a later file
    replacing an earlier one of the same path: the single-link reader
    keeps the files named [*.md] with their content, the ordered reader
    also the files named [*.svg] with the generated reference.  When no
    two files of the tree have the same path, every markdown file of the
    tree is loaded with its own content by both readers. *)
Theorem readers_load_the_files_of_the_tree (tree : list Fs.dirent) :
  SyncFull.readExplanationsDir tree
  = list_to_map (rev (flat_map Walk.markdown (Walk.files tree)))
  /\ InsertFull.readExplanationsDir tree
     = list_to_map (rev (flat_map Walk.markdown_or_svg (Walk.files tree)))
  /\ (NoDup (map (fun f => f.2.1) (Walk.files tree)) ->
      forall name p c,
        In (name, (p, c)) (Walk.files tree) -> Js.endsWith name ".md" = true ->
        SyncFull.readExplanationsDir tree !! p = Some c
        /\ InsertFull.readExplanationsDir tree !! p = Some c).
Proof.
  assert (Hs : SyncFull.readExplanationsDir tree
               = list_to_map (rev (flat_map Walk.markdown (Walk.files tree)))).
  { unfold SyncFull.readExplanationsDir, Walk.files.
    rewrite (readEntries_walk Walk.markdown SyncFull.readEntry).
    - by rewrite (right_id_L ∅ (∪)).
    - intros e _. apply readEntry_walk; [|done].
      intros rel acc name content. unfold Walk.markdown. simpl.
      destruct (Js.endsWith name ".md"); simpl.
      + by rewrite insert_union_singleton_l.
      + by rewrite (left_id_L ∅ (∪)). }
  assert (Hi : InsertFull.readExplanationsDir tree
               = list_to_map (rev (flat_map Walk.markdown_or_svg (Walk.files tree)))).
  { unfold InsertFull.readExplanationsDir, Walk.files.
    rewrite (readEntries_walk Walk.markdown_or_svg InsertFull.readEntry).
    - by rewrite (right_id_L ∅ (∪)).
    - intros e _. apply readEntry_walk; [|done].
      intros rel acc name content. unfold Walk.markdown_or_svg. simpl.
      destruct (Js.endsWith name ".md"); simpl; [by rewrite insert_union_singleton_l|].
      destruct (Js.endsWith name ".svg"); simpl; [by rewrite insert_union_singleton_l|].
      by rewrite (left_id_L ∅ (∪)). }
  split; [done|]. split; [done|].
  intros Hnd name p c Hin Hmd. rewrite Hs, Hi. split.
  - apply last_binding.
    + apply kept_paths; [|done]. intros f. unfold Walk.markdown.
      destruct (Js.endsWith f.1 ".md"); [by right|by left].
    + apply in_flat_map. exists (name, (p, c)). split; [done|].
      unfold Walk.markdown. simpl. rewrite Hmd. by left.
  - apply last_binding.
    + apply kept_paths; [|done]. intros f. unfold Walk.markdown_or_svg.
      destruct (Js.endsWith f.1 ".md"); [by right|].
      destruct (Js.endsWith f.1 ".svg"); [by right|by left].
    + apply in_flat_map. exists (name, (p, c)). split; [done|].
      unfold Walk.markdown_or_svg. simpl. rewrite Hmd. by left.
Qed.

Lemma readers_load_the_files_of_the_tree_witness :
  SyncFull.readExplanationsDir Scenarios.tree !! "sub/y.md" = Some "Y"
  /\ InsertFull.readExplanationsDir Scenarios.tree !! "sub/y.md" = Some "Y".
Proof.
  apply (proj2 (proj2 (readers_load_the_files_of_the_tree Scenarios.tree))
           ltac:(apply (bool_decide_unpack _); by vm_compute) "y.md").
  - vm_compute. tauto.
  - reflexivity.
Defined.

(** ** Links and the explanations they point at *)

Section Present.
Import Store Acts.

Lemma expl_run_present (ops : list op) k v :
  ~ In (DeleteExplanation k) ops ->
  is_Some v \/ (exists c, In (UpsertExplanation k c) ops) ->
  is_Some (expl_run ops k v).
Proof.
  revert v. induction ops as [|o ops IH]; intros v Hd Hv; simpl.
  - destruct Hv as [Hv|[c []]]. done.
  - apply IH; [intros H; apply Hd; by right|].
    destruct Hv as [Hv|[c [->|Hc]]].
    + left. destruct o as [|e|e c| | |]; simpl; try done; unfold expl_act.
      * case_decide; [subst; destruct Hd; by left|done].
      * by case_decide.
    + left. unfold expl_act. by rewrite decide_True.
    + right. eauto.
Qed.

Lemma assignments_delete_nothing (ops : list op) k :
  Forall (fun o => is_assignment o = true) ops -> ~ In (DeleteExplanation k) ops.
Proof.
  intros Hall Hin. rewrite Forall_forall in Hall.
  by apply list_elem_of_In, Hall in Hin.
Qed.
End Present.

Section OrderedRows.
Import Store Fs InsertFull Acts OrderedPlan.
Variables (files : gmap string string) (uuidv4 : Uuid.rng).

Lemma insertLink_rows q qid (fl : list string) st item :
  In item.2 fl ->
  forall row, In row (inserted (st_trace (insertLink files uuidv4 q qid st item))) ->
    In row (inserted (st_trace st))
    \/ exists f c, In f fl /\ truthy (files !! f) = Some c
                   /\ l_explanationId row = generateExplanationId f.
Proof.
  destruct item as [order file]. simpl. intros Hf row. unfold insertLink.
  destruct (truthy _) as [c|] eqn:E; simpl; rewrite inserted_app, in_app_iff; simpl.
  - intros [H|[<-|[]]]; [by left|]. right. by exists file, c.
  - intros [H|[]]. by left.
Qed.

Lemma linkQuestion_rows st qf :
  forall row, In row (inserted (st_trace (linkQuestion files uuidv4 st qf))) ->
    In row (inserted (st_trace st))
    \/ exists f c, In f qf.2 /\ truthy (files !! f) = Some c
                   /\ l_explanationId row = generateExplanationId f.
Proof.
  destruct qf as [q fl]. unfold linkQuestion. simpl.
  destruct (length fl =? 0)%nat; [by left|].
  destruct (select_question q (st_db st)) as [|qid rest].
  - simpl. intros row. rewrite inserted_app, in_app_iff. simpl. intros [H|[]]. by left.
  - assert (Hitems : forall item, In item (combine (seq 0 (length fl)) fl) -> In item.2 fl).
    { intros [o f] H. by apply in_combine_r in H. }
    revert Hitems. generalize (combine (seq 0 (length fl)) fl). intros items Hitems.
    set (st0 := issue q (DeleteLinks qid) st).
    assert (H0 : forall row, In row (inserted (st_trace st0)) ->
                   In row (inserted (st_trace st))
                   \/ exists f c, In f fl /\ truthy (files !! f) = Some c
                                  /\ l_explanationId row = generateExplanationId f).
    { intros row. subst st0. simpl. rewrite inserted_app, in_app_iff. simpl.
      intros [H|[]]. by left. }
    clearbody st0. revert st0 H0.
    induction items as [|item items IH]; intros st0 H0; simpl; [done|].
    apply IH; [intros i Hi; apply Hitems; by right|].
    intros row Hrow.
    destruct (insertLink_rows q qid fl st0 item (Hitems item (or_introl eq_refl)) row Hrow)
      as [H|H]; [by apply H0|by right].
Qed.

Lemma linkQuestions_rows (meta : manifest) st :
  forall row, In row (inserted (st_trace (fold_left (linkQuestion files uuidv4) meta st))) ->
    In row (inserted (st_trace st))
    \/ exists qf f c, In qf meta /\ In f qf.2 /\ truthy (files !! f) = Some c
                      /\ l_explanationId row = generateExplanationId f.
Proof.
  revert st. induction meta as [|qf meta IH]; intros st row Hrow; simpl in *; [by left|].
  destruct (IH _ row Hrow) as [H|(qf' & f & c & H1 & H2)].
  - destruct (linkQuestion_rows st qf row H) as [H'|(f & c & H')]; [by left|].
    right. exists qf, f, c. split; [by left|done].
  - right. exists qf', f, c. split; [by right|done].
Qed.
End OrderedRows.

(** X20: no run leaves a link it wrote dangling: every explanation id
    that a run of the incremental sync or of the single-link full
    rebuild assigns to a question, and every explanation id of a row the
    ordered full rebuild inserts in the join table, has a row in the
    explanation table when the run ends. *)
Theorem links_point_at_stored_explanations :
  (forall (fs : string -> option string) (oldMeta newMeta : list Meta.MetaEntry)
     (changedFiles : gset string) (d : Store.db) q id,
     let st := Incremental.main fs oldMeta newMeta changedFiles d in
     In (Store.SetQuestionLink q id) (Store.sql_ops (Store.st_trace st)) ->
     is_Some (Store.explanation_tbl (Store.st_db st) !! id))
  /\ (forall (meta : list Meta.MetaEntry) (tree : list Fs.dirent) (d : Store.db) q id,
        let st := SyncFull.main meta tree d in
        In (Store.SetQuestionLink q id) (Store.sql_ops (Store.st_trace st)) ->
        is_Some (Store.explanation_tbl (Store.st_db st) !! id))
  /\ (forall (meta : InsertFull.manifest) (tree : list Fs.dirent) (uuidv4 : Uuid.rng)
        (d : Store.db) row,
        let st := InsertFull.main meta tree uuidv4 d in
        In row (Acts.inserted (Store.st_trace st)) ->
        is_Some (Store.explanation_tbl (Store.st_db st) !! Store.l_explanationId row)).
Proof.
  split; [|split].
  - intros fs oldMeta newMeta changedFiles d q id st Hin. subst st.
    rewrite main_trace, plan_ops in Hin. rewrite main_db, plan_ops.
    rewrite run_explanation_lookup, expl_run_app.
    pose proof (removeEvents_clearing (Incremental.removed oldMeta newMeta)) as HR.
    pose proof (upsertEvents_assign fs (Incremental.toUpsert oldMeta newMeta changedFiles))
      as HU.
    pose proof (unlinkEvents_clearing oldMeta (Incremental.questionsModified oldMeta newMeta))
      as HD.
    rewrite Forall_forall in HR, HD.
    apply expl_run_present.
    + rewrite in_app_iff. intros [H|H].
      * by apply (assignments_delete_nothing _ id HU).
      * apply in_sql_ops in H as (p & H). apply in_flat_map in H as (e & _ & H).
        unfold Plan.unlinkEvents in H. by apply in_map_iff in H as (x & ? & _).
    + right. rewrite !in_app_iff in Hin. destruct Hin as [H|[H|H]].
      * by apply list_elem_of_In, HR in H.
      * apply in_sql_ops in H as (p & H). apply in_flat_map in H as (e & He & H).
        unfold Plan.upsertEvents in H. destruct (fs (Meta.file e)) as [c|] eqn:E.
        -- destruct H as [|H]; [done|].
           apply in_map_iff in H as (x & [= _ _ <-] & _).
           exists c. apply in_app_iff. left. apply in_sql_ops. exists (Meta.file e).
           apply in_flat_map. exists e. split; [done|].
           unfold Plan.upsertEvents. rewrite E. by left.
        -- by destruct H as [|[]].
      * by apply list_elem_of_In, HD in H.
  - intros meta tree d q id st Hin. subst st. unfold SyncFull.main in *.
    destruct (sync_main_trace (SyncFull.readExplanationsDir tree) d meta) as [_ Ht].
    rewrite Ht in Hin. rewrite sync_main_db. simpl.
    rewrite run_explanation_lookup.
    apply expl_run_present.
    + apply assignments_delete_nothing, sync_ops_assign.
    + right. apply in_sql_ops in Hin as (p & H). apply in_flat_map in H as (e & He & H).
      unfold SyncTrace.entryEvents in H.
      destruct (Fs.truthy (_ !! Meta.file e)) as [c|] eqn:E; [|by destruct H as [|[]]].
      destruct H as [|H]; [done|].
      apply in_flat_map in H as (x & _ & H). unfold SyncTrace.linkEvents in H.
      assert (Hid : id = SyncFull.generateExplanationId (Meta.file e)).
      { destruct H as [[= _ _ <-]|H]; [done|].
        destruct (Acts.has_question d x); [done|]. by destruct H as [|[]]. }
      exists c. apply in_flat_map. exists e. split; [done|].
      unfold SyncPlan.entryOps. rewrite E, Hid. by left.
  - intros meta tree uuidv4 d row st Hin. subst st.
    destruct (main_tables meta tree uuidv4 d) as (_ & He & _). simpl in He. rewrite He.
    unfold InsertFull.main in Hin.
    apply linkQuestions_rows in Hin as [Hin|(qf & f & c & Hqf & Hf & Hc & Hid)].
    + exfalso. revert Hin. cbv zeta.
      apply (fold_left_preserves (InsertFull.upsertFile _)
               (fun st => ~ In row (Acts.inserted (Store.st_trace st)))).
      * intros st file Hst. unfold InsertFull.upsertFile.
        destruct (Fs.truthy _); simpl; rewrite inserted_app, in_app_iff; simpl; tauto.
      * simpl. tauto.
    + rewrite run_explanation_lookup, Hid.
      apply expl_run_present.
      * apply assignments_delete_nothing, Forall_forall.
        intros o Ho. apply list_elem_of_In, in_sql_ops in Ho as (p & H).
        apply in_flat_map in H as (f' & _ & H). unfold OrderedPlan.upsertFileEvents in H.
        destruct (Fs.truthy (_ !! f')); destruct H as [H|[]]; [|done]. by injection H as _ <-.
      * right. exists c. apply in_sql_ops. exists f. apply in_flat_map. exists f. split.
        -- apply in_uniq, in_flat_map. by exists qf.
        -- unfold OrderedPlan.upsertFileEvents. rewrite Hc. by left.
Qed.

Lemma links_point_at_stored_explanations_witness :
  is_Some (Store.explanation_tbl
             (Store.st_db (Incremental.main Scenarios.fsABC Scenarios.oldC Scenarios.newC ∅
                                            Scenarios.db0))
           !! Incremental.generateExplanationId "c.md").
Proof.
  apply (proj1 links_point_at_stored_explanations Scenarios.fsABC Scenarios.oldC
           Scenarios.newC ∅ Scenarios.db0 "Q2").
  vm_compute. do 2 right. by left.
Defined.

(** ** A run on an unchanged manifest *)

Section NoChange.
Import Store Meta Incremental.

Lemma toMap_untouched (l : list MetaEntry) (m : gmap string MetaEntry) k :
  ~ In k (map file l) ->
  fold_left (fun m e => <[file e := e]> m) l m !! k = m !! k.
Proof.
  revert m. induction l as [|x l IH]; intros m Hk; simpl; [done|].
  rewrite IH by (intros H; apply Hk; by right).
  apply lookup_insert_ne. intros H. apply Hk. by left.
Qed.

Lemma toMap_lookup (l : list MetaEntry) (e : MetaEntry) :
  NoDup (map file l) -> In e l -> toMap l !! file e = Some e.
Proof.
  unfold toMap. generalize (∅ : gmap string MetaEntry).
  induction l as [|x l IH]; intros m Hnd Hin; [destruct Hin|].
  simpl in Hnd. apply NoDup_cons in Hnd as [Hx Hnd]. rewrite list_elem_of_In in Hx.
  simpl. destruct Hin as [->|Hin]; [|by apply IH].
  rewrite toMap_untouched by done. apply lookup_insert_eq.
Qed.
End NoChange.

(** X21: an incremental run whose old and new manifest are the same
    list of entries with unique paths, none of them among the changed
    files, has nothing to do: it issues no statement, prints no warning
    and reports zero everywhere, whatever else [git diff] lists. *)
Theorem unchanged_manifest_needs_no_statement
    (fs : string -> option string) (meta : list Meta.MetaEntry)
    (changedFiles : gset string) (d : Store.db) :
  NoDup (map Meta.file meta) ->
  (forall e, In e meta -> Meta.file e ∉ changedFiles) ->
  Incremental.main fs meta meta changedFiles d
  = Store.State d (Incremental.Stats 0 0 0 0 []) [].
Proof.
  intros Hnd Hch.
  assert (Hhas : forall e, In e meta -> Meta.has (Meta.toMap meta) (Meta.file e) = true).
  { intros e He. apply has_toMap. by apply in_map. }
  assert (Hr : Incremental.removed meta meta = []).
  { apply filter_none. intros e He. unfold Incremental.newMap. by rewrite Hhas. }
  assert (Ha : Incremental.added meta meta = []).
  { apply filter_none. intros e He. unfold Incremental.oldMap. by rewrite Hhas. }
  assert (Hk : forall e, In e (Incremental.kept meta meta) -> In e meta).
  { intros e He. by apply filter_In in He as [He _]. }
  assert (Hq : Incremental.questionsModified meta meta = []).
  { apply filter_none. intros e He%Hk.
    unfold Incremental.questionsDiffer, Incremental.oldQuestions, Incremental.oldMap.
    rewrite (toMap_lookup meta e Hnd He). by rewrite String.eqb_refl. }
  assert (Hc : Incremental.contentOnly meta meta changedFiles = []).
  { apply filter_none. intros e He%Hk.
    rewrite (bool_decide_eq_false_2 _ (Hch e He)). apply andb_false_r. }
  unfold Incremental.main, Incremental.toUpsert. by rewrite Hr, Ha, Hq, Hc.
Qed.

Lemma unchanged_manifest_needs_no_statement_witness :
  Incremental.main Scenarios.fsNone Scenarios.newAB Scenarios.newAB {["p.svg"]}
                   Scenarios.db0
  = Store.State Scenarios.db0 (Incremental.Stats 0 0 0 0 []) [].
Proof.
  apply (unchanged_manifest_needs_no_statement Scenarios.fsNone Scenarios.newAB {["p.svg"]}
           Scenarios.db0).
  - apply (bool_decide_unpack _). by vm_compute.
  - intros e [<-|[<-|[]]]; apply (bool_decide_unpack _); by vm_compute.
Defined.

(** ** Where a question points after an incremental run *)

Section FinalLink.
Import Store Acts.

Lemma link_run_kept (ops : list op) q id :
  (forall e, ~ In (SetQuestionLink q e) ops) ->
  ~ In (UnlinkIfMatches q id) ops ->
  link_run ops q (Some id) = Some id.
Proof.
  induction ops as [|o ops IH]; intros Hs Hu; simpl; [done|].
  assert (Ho : link_act o q (Some id) = Some id).
  { destruct o as [q' e| | |q' e| |]; simpl; try done; unfold link_act.
    - case_decide as H; [|done]. destruct H as [-> [= ->]]. destruct Hu. by left.
    - case_decide as H; [|done]. subst. destruct (Hs e). by left. }
  rewrite Ho. apply IH.
  - intros e He. apply (Hs e). by right.
  - intros He. apply Hu. by right.
Qed.
End FinalLink.

(** X22: after an incremental run a question points at the last entry
    of the upsert loop that lists it and whose file could be read, also
    when the same run drops the question from another entry: with
    unique paths in the new manifest, and no modified entry of another
    path sharing the derived id, the scoped unlinks of the last loop do
    not clear the link just written. *)
Theorem moved_question_points_at_its_new_entry
    (fs : string -> option string) (oldMeta newMeta : list Meta.MetaEntry)
    (changedFiles : gset string) (d : Store.db)
    (before after : list Meta.MetaEntry) (entry : Meta.MetaEntry) (q content : string) :
  NoDup (map Meta.file newMeta) ->
  Incremental.toUpsert oldMeta newMeta changedFiles = before ++ entry :: after ->
  fs (Meta.file entry) = Some content ->
  In q (Meta.questions entry) ->
  (forall later, In later after -> In q (Meta.questions later) ->
     fs (Meta.file later) = None) ->
  (forall other, In other (Incremental.questionsModified oldMeta newMeta) ->
     Meta.file other <> Meta.file entry ->
     Incremental.generateExplanationId (Meta.file other)
     <> Incremental.generateExplanationId (Meta.file entry)) ->
  forall r,
    In r (Store.question_tbl
            (Store.st_db (Incremental.main fs oldMeta newMeta changedFiles d))) ->
    Store.q_externalId r = q ->
    Store.q_explanationId r = Some (Incremental.generateExplanationId (Meta.file entry)).
Proof.
  intros Hnd Hsplit Hfs Hq Hlater Hcoll r Hr Hext.
  assert (Hentry : In entry newMeta).
  { apply (toUpsert_new oldMeta newMeta changedFiles). rewrite Hsplit.
    apply in_app_iff. right. by left. }
  rewrite main_db, plan_ops, Hsplit in Hr.
  rewrite run_question_tbl in Hr. apply in_map_iff in Hr as ([i x v] & <- & _).
  simpl in *. subst x.
  replace (entry :: after) with ([entry] ++ after) by done.
  rewrite !flat_map_app, !sql_ops_app, !link_run_app.
  remember (Incremental.generateExplanationId (Meta.file entry)) as id eqn:Hid.
  rewrite (link_run_set (Store.sql_ops (flat_map (Plan.upsertEvents fs) [entry])) q id).
  - rewrite (link_run_untouched (Store.sql_ops (flat_map (Plan.upsertEvents fs) after))).
    + apply link_run_kept.
      * intros e He.
        pose proof (unlinkEvents_clearing oldMeta
                      (Incremental.questionsModified oldMeta newMeta)) as HD.
        rewrite Forall_forall in HD. by apply list_elem_of_In, HD in He.
      * intros (p & H)%in_sql_ops. apply in_flat_map in H as (other & Ho & H).
        unfold Plan.unlinkEvents in H. apply in_map_iff in H as (q' & Heq & Hq').
        assert (Hq'q : q' = q) by congruence. subst q'.
        assert (Hoid : Incremental.generateExplanationId (Meta.file other) = id)
          by congruence.
        apply in_removedQuestions in Hq' as [_ Hnot].
        destruct (decide (Meta.file other = Meta.file entry)) as [Hf|Hf].
        -- apply in_questionsModified in Ho as [[Ho _] _].
           rewrite (new_entry_unique newMeta Hnd other entry Ho Hentry Hf) in Hnot. done.
        -- apply (Hcoll other Ho Hf). by rewrite Hoid.
    + intros e (p & H)%in_sql_ops. apply in_flat_map in H as (later & Hl & H).
      unfold Plan.upsertEvents in H. destruct (fs (Meta.file later)) eqn:E.
      * destruct H as [|H]; [done|]. apply in_map_iff in H as (q' & Heq & Hq').
        assert (q' = q) by congruence. subst q'.
        rewrite (Hlater later Hl Hq') in E. done.
      * by destruct H as [|[]].
    + intros e He.
      pose proof (upsertEvents_assign fs after) as HU.
      rewrite Forall_forall in HU. by apply list_elem_of_In, HU in He.
  - apply upsertEvents_assign.
  - intros e' (p & H)%in_sql_ops. apply in_flat_map in H as (e0 & [<-|[]] & H).
    unfold Plan.upsertEvents in H. rewrite Hfs in H.
    destruct H as [|H]; [done|]. apply in_map_iff in H as (q' & Heq & _).
    rewrite <- Hid in Heq. congruence.
  - left. apply in_sql_ops. exists (Meta.file entry). apply in_flat_map.
    exists entry. split; [by left|]. unfold Plan.upsertEvents. rewrite Hfs.
    right. rewrite <- Hid. apply in_map_iff. eauto.
Qed.

Lemma moved_question_points_at_its_new_entry_witness :
  Store.q_explanationId
    (nth 1 (Store.question_tbl
              (Store.st_db
                 (Incremental.main Scenarios.fsABC
                    [Meta.Entry "a.md" ["Q1"; "Q2"]; Meta.Entry "b.md" ["Q3"]]
                    [Meta.Entry "a.md" ["Q1"]; Meta.Entry "b.md" ["Q3"; "Q2"]]
                    ∅ Scenarios.db0)))
         (Store.Question "" "" None))
  = Some (Incremental.generateExplanationId "b.md").
Proof.
  apply (moved_question_points_at_its_new_entry Scenarios.fsABC
           [Meta.Entry "a.md" ["Q1"; "Q2"]; Meta.Entry "b.md" ["Q3"]]
           [Meta.Entry "a.md" ["Q1"]; Meta.Entry "b.md" ["Q3"; "Q2"]]
           ∅ Scenarios.db0
           [Meta.Entry "a.md" ["Q1"]] [] (Meta.Entry "b.md" ["Q3"; "Q2"]) "Q2" "B").
  - apply (bool_decide_unpack _). by vm_compute.
  - by vm_compute.
  - reflexivity.
  - simpl. right. by left.
  - intros later [].
  - intros other Hin Hf. vm_compute in Hin. destruct Hin as [<-|[<-|[]]].
    + vm_compute. discriminate.
    + by destruct Hf.
  - vm_compute. right. by left.
  - by vm_compute.
Defined.

(** ** C10: what is loaded from the content directory, and what is stored *)

Section SvgReference.
Import Store Fs InsertFull OrderedPlan.

(** The ordered reader as the last binding of each path among the
    files of the tree. *)
Lemma ordered_reader_walk (tree : list dirent) :
  readExplanationsDir tree
  = list_to_map (rev (flat_map Walk.markdown_or_svg (Walk.files tree))).
Proof.
  unfold readExplanationsDir, Walk.files.
  rewrite (readEntries_walk Walk.markdown_or_svg readEntry).
  - by rewrite (right_id_L ∅ (∪)).
  - intros e _. apply readEntry_walk; [|done].
    intros rel acc name content. unfold Walk.markdown_or_svg. simpl.
    destruct (Js.endsWith name ".md"); simpl; [by rewrite insert_union_singleton_l|].
    destruct (Js.endsWith name ".svg"); simpl; [by rewrite insert_union_singleton_l|].
    by rewrite (left_id_L ∅ (∪)).
Qed.

(** The path of a file of the tree ends in the name of the file. *)
Lemma walk_path name p bytes :
  forall e rel, In (name, (p, bytes)) (Walk.walk rel e) ->
                exists rel', p = relPath rel' name.
Proof.
  fix IH 1. intros [n content|n entries] rel; simpl.
  - clear IH. intros [H|[]]. injection H as <- <- <-. exists rel. reflexivity.
  - generalize (relPath rel n). intros rel0.
    induction entries as [|x xs IHxs]; simpl; [intros []|].
    intros Hw. apply in_app_iff in Hw as [Hw|Hw].
    + exact (IH x rel0 Hw).
    + exact (IHxs Hw).
Qed.

Lemma svg_file_is_loaded (tree : list dirent) name p bytes :
  In (name, (p, bytes)) (Walk.files tree) -> Js.endsWith name ".svg" = true ->
  readExplanationsDir tree !! p = Some (svgContent p).
Proof.
  intros Hin Hsvg.
  assert (Hmd : Js.endsWith name ".md" = false).
  { destruct (Js.endsWith name ".md") eqn:E; [|done].
    by destruct (md_is_not_svg name E Hsvg). }
  assert (Hp : Js.endsWith p ".svg" = true).
  { unfold Walk.files in Hin. apply in_flat_map in Hin as (e & _ & Hw).
    destruct (walk_path _ _ _ _ _ Hw) as [rel' ->]. by apply endsWith_relPath. }
  assert (Hb : In (p, svgContent p) (flat_map Walk.markdown_or_svg (Walk.files tree))).
  { apply in_flat_map. exists (name, (p, bytes)). split; [done|].
    unfold Walk.markdown_or_svg. simpl. rewrite Hmd, Hsvg. by left. }
  destruct (readExplanationsDir tree !! p) as [c|] eqn:E.
  - destruct (readExplanationsDir_loaded tree p c E) as [_ Hc]. f_equal. by apply Hc.
  - rewrite ordered_reader_walk in E. apply not_elem_of_list_to_map_2 in E.
    destruct E. apply list_elem_of_fmap. exists (p, svgContent p).
    split; [done|]. by apply list_elem_of_In, in_rev; rewrite rev_involutive.
Qed.

Lemma linkQuestions_keep_events (files : gmap string string) (uuidv4 : Uuid.rng)
    (meta : manifest) (st : state stats) ev :
  In ev (st_trace st) ->
  In ev (st_trace (fold_left (linkQuestion files uuidv4) meta st)).
Proof.
  apply (fold_left_preserves (linkQuestion files uuidv4)
           (fun st => In ev (st_trace st))).
  clear st. intros st [q fl] Hin. unfold linkQuestion.
  destruct (length fl =? 0)%nat; [done|].
  destruct (select_question q (st_db st)) as [|qid rest].
  - simpl. apply in_app_iff. by left.
  - apply (fold_left_preserves (insertLink files uuidv4 q qid)
             (fun st => In ev (st_trace st))).
    + intros st' [order file] Hin'. unfold insertLink.
      destruct (truthy _); simpl; apply in_app_iff; by left.
    + simpl. apply in_app_iff. by left.
Qed.

Lemma upsert_ops_assign (files : gmap string string) (l : list string) :
  Forall (fun o => is_assignment o = true)
         (sql_ops (flat_map (upsertFileEvents files) l)).
Proof.
  apply Forall_forall. intros o Ho. apply list_elem_of_In, in_sql_ops in Ho as (p & H).
  apply in_flat_map in H as (g & _ & H). unfold upsertFileEvents in H.
  destruct (truthy (files !! g)); destruct H as [H|[]]; [|done]. by injection H as _ <-.
Qed.
End SvgReference.

(** C10: the ordered full rebuild loads only paths ending in [.md] or
    [.svg]; every file of the tree named [*.svg] is loaded, whatever it
    holds, as the markdown image reference
    [![](https://raw.githubusercontent.com/fmkra/pplka-explanations/refs/heads/feat/profil-skrzydla/explanations/<path>)]
    with the path percent-encoded; every explanation row a run upserts
    takes its content from what was loaded; and for every [.svg] path
    that a question of the manifest lists and that was loaded the run
    upserts exactly that reference under the id derived from the path,
    and the explanation table holds it when the run ends (no other
    listed path deriving the same id). *)
Theorem svg_content_is_generated (tree : list Fs.dirent) :
  let files := InsertFull.readExplanationsDir tree in
  let reference := fun p =>
    "![](https://raw.githubusercontent.com/fmkra/pplka-explanations/refs/heads/feat/profil-skrzydla/explanations/"
    +:+ Js.encodeURIComponent p +:+ ")" in
  (forall p c, files !! p = Some c ->
     (Js.endsWith p ".md" = true \/ Js.endsWith p ".svg" = true)
     /\ (Js.endsWith p ".svg" = true -> c = reference p))
  /\ (forall name p bytes,
        In (name, (p, bytes)) (Walk.files tree) -> Js.endsWith name ".svg" = true ->
        files !! p = Some (reference p))
  /\ (forall (meta : InsertFull.manifest) (uuidv4 : Uuid.rng) (d : Store.db)
        (path id content : string),
        In (Store.Sql path (Store.UpsertExplanation id content))
           (Store.st_trace (InsertFull.main meta tree uuidv4 d)) ->
        id = InsertFull.generateExplanationId path
        /\ files !! path = Some content
        /\ (Js.endsWith path ".md" = true \/ Js.endsWith path ".svg" = true)
        /\ (Js.endsWith path ".svg" = true -> content = reference path))
  /\ (forall (meta : InsertFull.manifest) (uuidv4 : Uuid.rng) (d : Store.db)
        (q : string) (fl : list string) (f : string),
        In (q, fl) meta -> In f fl -> Js.endsWith f ".svg" = true ->
        is_Some (files !! f) ->
        let st := InsertFull.main meta tree uuidv4 d in
        In (Store.Sql f (Store.UpsertExplanation (InsertFull.generateExplanationId f)
                                                 (reference f)))
           (Store.st_trace st)
        /\ ((forall g, In g (InsertFull.uniqueFiles meta) ->
               InsertFull.generateExplanationId g = InsertFull.generateExplanationId f ->
               g = f) ->
            Store.explanation_tbl (Store.st_db st) !! InsertFull.generateExplanationId f
            = Some (reference f))).
Proof.
  intros files reference.
  assert (Href : forall p, InsertFull.svgContent p = reference p) by reflexivity.
  pose proof (readExplanationsDir_loaded tree) as Hall. fold files in Hall.
  assert (Hloaded : forall p c, files !! p = Some c ->
            (Js.endsWith p ".md" = true \/ Js.endsWith p ".svg" = true)
            /\ (Js.endsWith p ".svg" = true -> c = reference p)).
  { intros p c Hp. destruct (Hall p c Hp) as [H1 H2]. split; [done|].
    intros Hs. rewrite <- Href. by apply H2. }
  split; [exact Hloaded|]. split; [|split].
  - intros name p bytes Hin Hsvg. rewrite <- Href.
    by apply (svg_file_is_loaded tree name p bytes).
  - intros meta uuidv4 d path id content Hin.
    apply main_upserts in Hin as (file & _ & Hev); [|done].
    unfold OrderedPlan.upsertFileEvents in Hev.
    destruct (Fs.truthy _) as [c|] eqn:Et; destruct Hev as [Hev|[]]; [|done].
    injection Hev as <- <- <-. apply truthy_Some in Et as [Hc _].
    fold files in Hc. destruct (Hloaded _ _ Hc) as [? ?]. done.
  - intros meta uuidv4 d q fl f Hq Hf Hsvg [c Hc] st.
    assert (Hcf : c = reference f) by (by apply (Hloaded f c Hc)). subst c.
    assert (Ht : Fs.truthy (files !! f) = Some (reference f)) by (by rewrite Hc).
    assert (Hu : In f (InsertFull.uniqueFiles meta)).
    { apply in_uniq, in_flat_map. by exists (q, fl). }
    remember (InsertFull.generateExplanationId f) as k eqn:Hk.
    assert (Hev : In (Store.Sql f (Store.UpsertExplanation k (reference f)))
                     (flat_map (OrderedPlan.upsertFileEvents files)
                               (InsertFull.uniqueFiles meta))).
    { apply in_flat_map. exists f. split; [done|].
      unfold OrderedPlan.upsertFileEvents. rewrite Ht, Hk. by left. }
    split.
    + subst st. unfold InsertFull.main. cbv zeta. apply linkQuestions_keep_events.
      rewrite (fold_trace _ _ (upsertFile_trace (InsertFull.readExplanationsDir tree))).
      simpl. exact Hev.
    + intros Hinj. subst st.
      destruct (main_tables meta tree uuidv4 d) as (_ & He & _). simpl in He.
      rewrite He. fold files. rewrite run_explanation_lookup.
      apply expl_run_upserted; [apply upsert_ops_assign| |].
      * intros c' (p & H)%in_sql_ops. apply in_flat_map in H as (g & Hg & H).
        unfold OrderedPlan.upsertFileEvents in H.
        destruct (Fs.truthy (files !! g)) as [c0|] eqn:Eg; destruct H as [H|[]]; [|done].
        assert (Hid : InsertFull.generateExplanationId g = k) by congruence.
        assert (Hc0 : c0 = c') by congruence. subst c'.
        rewrite (Hinj g Hg Hid) in Eg. congruence.
      * left. apply in_sql_ops. by exists f.
Qed.

Lemma svg_content_is_generated_witness :
  Store.explanation_tbl
    (Store.st_db (InsertFull.main [("Q3", ["sub/q r.svg"; "x.md"])] Scenarios.tree
                                  Scenarios.rngA Scenarios.db0))
  !! InsertFull.generateExplanationId "sub/q r.svg"
  = Some "![](https://raw.githubusercontent.com/fmkra/pplka-explanations/refs/heads/feat/profil-skrzydla/explanations/sub%2Fq%20r.svg)".
Proof.
  apply (proj2 (proj2 (proj2 (proj2 (svg_content_is_generated Scenarios.tree)))
                  [("Q3", ["sub/q r.svg"; "x.md"])] Scenarios.rngA Scenarios.db0
                  "Q3" ["sub/q r.svg"; "x.md"] "sub/q r.svg"
                  ltac:(by left) ltac:(by left) ltac:(by vm_compute)
                  ltac:(by vm_compute; eexists))).
  intros g Hg Hid. vm_compute in Hg. destruct Hg as [<-|[<-|[]]]; [done|].
  vm_compute in Hid. discriminate Hid.
Defined.
